(** * Multi-robot package delivery: the simulation engine of [envs/env.py]

    A shallow embedding of the [Environment] class (grid, robots, packages,
    [reset], [get_state], [step], [check_terminate]) together with the
    properties of the movement-conflict resolution, the package lifecycle,
    the reward accounting and the termination test. *)

From stdpp Require Import gmap strings list fin_maps sorting.
From Stdlib Require Import ZArith Lia.

(** ** Exceptions and results *)

(** [ValueError] and [IndexError] are the Python exceptions the engine can
    raise.  The other two are not Python exceptions: [OutOfFuel] is returned
    when the bounded unfolding of a [while True] loop is exhausted, and
    [OutOfDraws] when the finite tape standing for the random generator has
    no draw left. *)
Inductive exn := ValueError | IndexError | OutOfFuel | OutOfDraws.

Inductive result (A : Type) :=
| Ok (a : A)
| Raise (e : exn).
Arguments Ok {A} a.
Arguments Raise {A} e.

(** ** Numbers used for rewards

    [move_cost], [delivery_reward] and [delay_reward] are Python numbers
    (floats by default).  The engine only ever starts from [0] and adds, so
    the embedding is generic in the number type and its addition; nothing is
    assumed about [r_add] (it may round). *)
Class RewardOps (R : Type) := { r_zero : R; r_add : R -> R -> R }.

#[export] Instance Z_RewardOps : RewardOps Z := {| r_zero := 0%Z; r_add := Z.add |}.

(** ** Data model *)

Abbreviation cell := (Z * Z)%type (only parsing).

(** class Robot *)
Record Robot := { position : cell; carrying : nat }.

(** The four values the [status] string of a package takes:
    ['None'], ['waiting'], ['in_transit'], ['delivered']. *)
Inductive Status := StNone | Waiting | InTransit | Delivered.

#[export] Instance Status_eq_dec : EqDecision Status.
Proof. solve_decision. Defined.

(** class Package *)
Record Package := {
  start : cell;
  start_time : Z;
  target : cell;
  deadline : Z;
  package_id : nat;
  status : Status
}.

#[export] Instance Robot_inhabited : Inhabited Robot :=
  populate {| position := (0%Z, 0%Z); carrying := 0 |}.

Definition set_position (rb : Robot) (p : cell) : Robot :=
  {| position := p; carrying := carrying rb |}.
Definition set_carrying (rb : Robot) (k : nat) : Robot :=
  {| position := position rb; carrying := k |}.
Definition set_status (p : Package) (s : Status) : Package :=
  {| start := start p; start_time := start_time p; target := target p;
     deadline := deadline p; package_id := package_id p; status := s |}.

(** An action is the pair [(move_action, package_action)] of strings. *)
Abbreviation action := (string * string)%type (only parsing).

(** The tuples [(start_time, start, target, deadline)] of [list_packages]. *)
Abbreviation package_tuple := (Z * cell * cell * Z)%type (only parsing).

(** The dictionary returned by [get_state]. Coordinates are 1-based. *)
Record Snapshot := {
  snap_time_step : Z;
  snap_map : list (list Z);
  snap_robots : list (Z * Z * nat);
  snap_packages : list (nat * Z * Z * Z * Z * Z * Z)
}.

(** Position order of the status values (Pending < Waiting < InTransit <
    Delivered). *)
Definition status_rank (s : Status) : nat :=
  match s with StNone => 0 | Waiting => 1 | InTransit => 2 | Delivered => 3 end.

Section Simulation.
Context {R : Type} {RO : RewardOps R}.

(** The values stored in the [infos] dictionary of [step]. *)
Inductive InfoVal := InfoReward (x : R) | InfoSteps (n : Z).

(** class Environment.  [rng] is the tape of the raw draws the seeded
    generator will produce.  The fields [map_file], [done], [state], [frames]
    and [results_dir] are never read by the engine and are left out;
    [n_rows] and [n_cols] are computed from the grid, which never changes. *)
Record Environment := {
  grid : list (list Z);
  move_cost : R;
  delivery_reward : R;
  delay_reward : R;
  t : Z;
  robots : list Robot;
  packages : list Package;
  total_reward : R;
  n_robots : nat;
  max_time_steps : Z;
  n_packages : nat;
  rng : list Z
}.

Definition n_rows (env : Environment) : Z := Z.of_nat (length (grid env)).
Definition n_cols (env : Environment) : Z :=
  match grid env with
  | [] => 0%Z
  | row :: _ => Z.of_nat (length row)
  end.

Definition set_robots (env : Environment) (rs : list Robot) : Environment :=
  {| grid := grid env; move_cost := move_cost env;
     delivery_reward := delivery_reward env; delay_reward := delay_reward env;
     t := t env; robots := rs; packages := packages env;
     total_reward := total_reward env; n_robots := n_robots env;
     max_time_steps := max_time_steps env; n_packages := n_packages env;
     rng := rng env |}.
Definition set_packages (env : Environment) (ps : list Package) : Environment :=
  {| grid := grid env; move_cost := move_cost env;
     delivery_reward := delivery_reward env; delay_reward := delay_reward env;
     t := t env; robots := robots env; packages := ps;
     total_reward := total_reward env; n_robots := n_robots env;
     max_time_steps := max_time_steps env; n_packages := n_packages env;
     rng := rng env |}.
Definition set_t (env : Environment) (k : Z) : Environment :=
  {| grid := grid env; move_cost := move_cost env;
     delivery_reward := delivery_reward env; delay_reward := delay_reward env;
     t := k; robots := robots env; packages := packages env;
     total_reward := total_reward env; n_robots := n_robots env;
     max_time_steps := max_time_steps env; n_packages := n_packages env;
     rng := rng env |}.
Definition set_total_reward (env : Environment) (x : R) : Environment :=
  {| grid := grid env; move_cost := move_cost env;
     delivery_reward := delivery_reward env; delay_reward := delay_reward env;
     t := t env; robots := robots env; packages := packages env;
     total_reward := x; n_robots := n_robots env;
     max_time_steps := max_time_steps env; n_packages := n_packages env;
     rng := rng env |}.
Definition set_rng (env : Environment) (tape : list Z) : Environment :=
  {| grid := grid env; move_cost := move_cost env;
     delivery_reward := delivery_reward env; delay_reward := delay_reward env;
     t := t env; robots := robots env; packages := packages env;
     total_reward := total_reward env; n_robots := n_robots env;
     max_time_steps := max_time_steps env; n_packages := n_packages env;
     rng := tape |}.

(** ** Methods run on the environment: state passing with exceptions *)

Definition M (A : Type) : Type := Environment -> result A * Environment.

Definition ret {A} (a : A) : M A := fun env => (Ok a, env).
Definition raise {A} (e : exn) : M A := fun env => (Raise e, env).
Definition bind {A B} (m : M A) (k : A -> M B) : M B :=
  fun env =>
    match m env with
    | (Ok a, env') => k a env'
    | (Raise e, env') => (Raise e, env')
    end.
Definition get : M Environment := fun env => (Ok env, env).
Definition modify (f : Environment -> Environment) : M unit :=
  fun env => (Ok tt, f env).
Definition lift {A} (x : result A) : M A := fun env => (x, env).

Notation "'do' x <- m ; k" := (bind m (fun x => k))
  (at level 10, x pattern, m at level 100, k at level 200, only parsing).
Notation "'exec' m ; k" := (bind m (fun _ => k))
  (at level 10, m at level 100, k at level 200, only parsing).

(** ** Grid *)

(** [grid[r][c]], for [0 <= r] and [0 <= c]. *)
Definition grid_at (g : list (list Z)) (r c : Z) : result Z :=
  match g !! Z.to_nat r with
  | None => Raise IndexError
  | Some row =>
      match row !! Z.to_nat c with
      | None => Raise IndexError
      | Some v => Ok v
      end
  end.

Definition out_of_bounds (env : Environment) (r c : Z) : bool :=
  (r <? 0)%Z || (n_rows env <=? r)%Z || (c <? 0)%Z || (n_cols env <=? c)%Z.

Definition is_free_cell (env : Environment) (pos : cell) : result bool :=
  let '(r, c) := pos in
  if out_of_bounds env r c then Ok false
  else match grid_at (grid env) r c with
       | Raise e => Raise e
       | Ok v => Ok (v =? 0)%Z
       end.

Definition valid_position (env : Environment) (pos : cell) : result bool :=
  let '(r, c) := pos in
  if out_of_bounds env r c then Ok false
  else match grid_at (grid env) r c with
       | Raise e => Raise e
       | Ok v => if (v =? 1)%Z then Ok false else Ok true
       end.

Definition compute_new_position (pos : cell) (move : string) : cell :=
  let '(r, c) := pos in
  if decide (move = "S") then (r, c)
  else if decide (move = "L") then (r, c - 1)%Z
  else if decide (move = "R") then (r, c + 1)%Z
  else if decide (move = "U") then (r - 1, c)%Z
  else if decide (move = "D") then (r + 1, c)%Z
  else (r, c).

(** ** step: proposed positions (first loop of the movement phase) *)

Record Proposal := {
  proposed_positions : list cell;
  old_pos : gmap cell nat;
  next_pos : gmap cell nat
}.

Definition empty_proposal : Proposal :=
  {| proposed_positions := []; old_pos := empty; next_pos := empty |}.

Fixpoint propose_loop (env : Environment) (actions : list action)
    (i : nat) (rs : list Robot) (acc : Proposal) : result Proposal :=
  match rs with
  | [] => Ok acc
  | robot :: rest =>
      match actions !! i with
      | None => Raise IndexError
      | Some (move, pkg_act) =>
          let new_pos := compute_new_position (position robot) move in
          match valid_position env new_pos with
          | Raise e => Raise e
          | Ok v =>
              let new_pos := if v then new_pos else position robot in
              propose_loop env actions (S i) rest
                {| proposed_positions := proposed_positions acc ++ [new_pos];
                   old_pos := <[position robot := i]> (old_pos acc);
                   next_pos := <[new_pos := i]> (next_pos acc) |}
          end
      end
  end.

Definition propose (env : Environment) (actions : list action) : result Proposal :=
  propose_loop env actions 0 (robots env) empty_proposal.

(** ** step: conflict resolution (the [while True] scan loop) *)

Record Resolution := {
  moved_robots : list nat;
  computed_moved : list nat;
  final_positions : list (option cell);
  occupied : gmap cell nat
}.

Definition init_resolution (n : nat) : Resolution :=
  {| moved_robots := replicate n 0; computed_moved := replicate n 0;
     final_positions := replicate n None; occupied := empty |}.

(** Robot [i] is decided: it takes [new_pos] when the cell is not claimed yet,
    and is sent back to [pos] otherwise. *)
Definition decide_robot (i : nat) (pos new_pos : cell) (st : Resolution) : Resolution :=
  match occupied st !! new_pos with
  | None =>
      {| moved_robots := <[i := 1]> (moved_robots st);
         computed_moved := <[i := 1]> (computed_moved st);
         final_positions := <[i := Some new_pos]> (final_positions st);
         occupied := <[new_pos := i]> (occupied st) |}
  | Some _ =>
      {| moved_robots := <[i := 0]> (moved_robots st);
         computed_moved := <[i := 1]> (computed_moved st);
         final_positions := <[i := Some pos]> (final_positions st);
         occupied := <[pos := i]> (occupied st) |}
  end.

(** One [for i in range(len(self.robots))] pass over the indices [idx] still
    to visit; the boolean is [updated].  The indices read here are those of
    [range(len(self.robots))] and those stored in [old_pos], all of them
    indices of robots, so the list reads are total. *)
Fixpoint scan (rs : list Robot) (pr : Proposal) (idx : list nat)
    (st : Resolution) : Resolution * bool :=
  match idx with
  | [] => (st, false)
  | i :: rest =>
      if negb (computed_moved st !!! i =? 0) then scan rs pr rest st
      else
        let pos := position (rs !!! i) in
        let new_pos := proposed_positions pr !!! i in
        match old_pos pr !! new_pos with
        | None => (decide_robot i pos new_pos st, true)
        | Some j =>
            if negb (j =? i) && (computed_moved st !!! j =? 0)
            then scan rs pr rest st
            else (decide_robot i pos new_pos st, true)
        end
  end.

Fixpoint resolve_loop (rs : list Robot) (pr : Proposal) (fuel : nat)
    (st : Resolution) : result Resolution :=
  match fuel with
  | 0 => Raise OutOfFuel
  | S fuel' =>
      let '(st', updated) := scan rs pr (seq 0 (length rs)) st in
      if updated then resolve_loop rs pr fuel' st' else Ok st'
  end.

(** Robots the scan loop left undecided stay where they are. *)
Fixpoint default_loop (rs : list Robot) (computed : list nat) (idx : list nat)
    (fp : list (option cell)) : list (option cell) :=
  match idx with
  | [] => fp
  | i :: rest =>
      default_loop rs computed rest
        (if computed !!! i =? 0 then <[i := Some (position (rs !!! i))]> fp else fp)
  end.

(** The whole movement resolution: every pass of the scan loop decides one
    robot or ends the loop, so [length rs + 1] passes are enough (lemma
    [resolve_returns]). *)
Definition resolve (rs : list Robot) (pr : Proposal) : result (list (option cell)) :=
  match resolve_loop rs pr (S (length rs)) (init_resolution (length rs)) with
  | Raise e => Raise e
  | Ok st =>
      Ok (default_loop rs (computed_moved st) (seq 0 (length rs)) (final_positions st))
  end.

(** ** step: positions and movement cost (lines 261-265)

    After [default_loop] no entry of [final_positions] is [None] (lemma
    [resolve_returns]); the typed [position] field cannot hold [None], so
    that case is closed with an exception here. *)
Definition is_LRUD (move : string) : bool :=
  bool_decide (elem_of move ["L"; "R"; "U"; "D"]).

Fixpoint update_positions (actions : list action) (fp : list (option cell))
    (idx : list nat) (r : R) : M R :=
  match idx with
  | [] => ret r
  | i :: rest =>
      do env <- get ;
      match robots env !! i, actions !! i, fp !! i with
      | Some robot, Some (move, pkg_act), Some (Some fin) =>
          let r := if is_LRUD move && negb (bool_decide (fin = position robot))
                   then r_add r (move_cost env) else r in
          exec modify (fun env => set_robots env (<[i := set_position robot fin]> (robots env))) ;
          update_positions actions fp rest r
      | _, _, _ => raise IndexError
      end
  end.

(** ** step: package actions (lines 268-300) *)

(** [for j in range(len(self.packages))]: the first package that is waiting
    at [pos] and has spawned, with its index. *)
Fixpoint pickup_scan (pos : cell) (tick : Z) (j : nat) (ps : list Package)
    : option (nat * Package) :=
  match ps with
  | [] => None
  | p :: rest =>
      if bool_decide (status p = Waiting) && bool_decide (start p = pos)
         && (start_time p <=? tick)%Z
      then Some (j, p)
      else pickup_scan pos tick (S j) rest
  end.

Definition package_action (i : nat) (pkg_act : string) (r : R) : M R :=
  do env <- get ;
  match robots env !! i with
  | None => raise IndexError
  | Some robot =>
      if decide (pkg_act = "1") then
        if carrying robot =? 0 then
          match pickup_scan (position robot) (t env) 0 (packages env) with
          | None => ret r
          | Some (j, p) =>
              exec modify (fun env =>
                set_robots env (<[i := set_carrying robot (package_id p)]> (robots env))) ;
              exec modify (fun env =>
                set_packages env (<[j := set_status p InTransit]> (packages env))) ;
              ret r
          end
        else ret r
      else if decide (pkg_act = "2") then
        if negb (carrying robot =? 0) then
          let package_id := carrying robot in
          match packages env !! (package_id - 1) with
          | None => raise IndexError
          | Some pkg =>
              if bool_decide (position robot = target pkg) then
                exec modify (fun env =>
                  set_packages env
                    (<[package_id - 1 := set_status pkg Delivered]> (packages env))) ;
                let r := if (t env <=? deadline pkg)%Z
                         then r_add r (delivery_reward env)
                         else r_add r (delay_reward env) in
                exec modify (fun env =>
                  set_robots env (<[i := set_carrying robot 0]> (robots env))) ;
                ret r
              else ret r
          end
        else ret r
      else ret r
  end.

Fixpoint package_actions (actions : list action) (idx : list nat) (r : R) : M R :=
  match idx with
  | [] => ret r
  | i :: rest =>
      match actions !! i with
      | None => raise IndexError
      | Some (move, pkg_act) =>
          do r <- package_action i pkg_act r ;
          package_actions actions rest r
      end
  end.

(** ** check_terminate and get_state *)

Fixpoint all_delivered (ps : list Package) : bool :=
  match ps with
  | [] => true
  | p :: rest => if bool_decide (status p = Delivered) then all_delivered rest else false
  end.

Definition check_terminate (env : Environment) : bool :=
  if (t env =? max_time_steps env)%Z then true else all_delivered (packages env).

(** The selection loop of [get_state]: the packages spawning at [tick] are
    collected (the very objects of the list, so with their new status) and
    marked waiting. *)
Fixpoint select_packages (tick : Z) (ps : list Package) : list Package * list Package :=
  match ps with
  | [] => ([], [])
  | p :: rest =>
      let '(selected, ps') := select_packages tick rest in
      if (start_time p =? tick)%Z
      then (set_status p Waiting :: selected, set_status p Waiting :: ps')
      else (selected, p :: ps')
  end.

Definition robot_view (rb : Robot) : Z * Z * nat :=
  ((position rb).1 + 1, (position rb).2 + 1, carrying rb)%Z.

Definition package_view (p : Package) : nat * Z * Z * Z * Z * Z * Z :=
  (package_id p, (start p).1 + 1, (start p).2 + 1,
   (target p).1 + 1, (target p).2 + 1, start_time p, deadline p)%Z.

Definition get_state : M Snapshot :=
  do env <- get ;
  let '(selected_packages, ps') := select_packages (t env) (packages env) in
  exec modify (fun env => set_packages env ps') ;
  do env <- get ;
  ret {| snap_time_step := t env;
         snap_map := grid env;
         snap_robots := robot_view <$> robots env;
         snap_packages := package_view <$> selected_packages |}.

(** ** step *)

Definition step (actions : list action)
    : M (Snapshot * R * bool * gmap string InfoVal) :=
  let r := r_zero in
  do env <- get ;
  if negb (length actions =? length (robots env)) then raise ValueError
  else
    do pr <- lift (propose env actions) ;
    do final_positions <- lift (resolve (robots env) pr) ;
    let idx := seq 0 (length (robots env)) in
    do r <- update_positions actions final_positions idx r ;
    do r <- package_actions actions idx r ;
    exec modify (fun env => set_t env (t env + 1)%Z) ;
    exec modify (fun env => set_total_reward env (r_add (total_reward env) r)) ;
    do env <- get ;
    let done := check_terminate env in
    let infos : gmap string InfoVal :=
      if done
      then <["total_time_steps" := InfoSteps (t env)]>
             (<["total_reward" := InfoReward (total_reward env)]> empty)
      else empty in
    do state <- get_state ;
    ret (state, r, done, infos).

(** ** reset: the scenario generator *)

(** [self.rng.randint(lo, hi)]: an integer of [lo, hi)], [ValueError] when
    the range is empty.  The next raw draw of the tape is reduced into the
    range. *)
Definition randint (lo hi : Z) : M Z :=
  fun env =>
    if (hi <=? lo)%Z then (Raise ValueError, env)
    else match rng env with
         | [] => (Raise OutOfDraws, env)
         | x :: tape => (Ok (lo + x mod (hi - lo))%Z, set_rng env tape)
         end.

(** [[(i, j) for j in range(n_cols) if g[i][j] == 0]] for one row index. *)
Fixpoint free_in_row (g : list (list Z)) (i : nat) (js : list nat) : result (list cell) :=
  match js with
  | [] => Ok []
  | j :: rest =>
      match grid_at g (Z.of_nat i) (Z.of_nat j) with
      | Raise e => Raise e
      | Ok v =>
          match free_in_row g i rest with
          | Raise e => Raise e
          | Ok cs => Ok (if (v =? 0)%Z then (Z.of_nat i, Z.of_nat j) :: cs else cs)
          end
      end
  end.

Fixpoint free_in_rows (g : list (list Z)) (is_ : list nat) (js : list nat) : result (list cell) :=
  match is_ with
  | [] => Ok []
  | i :: rest =>
      match free_in_row g i js with
      | Raise e => Raise e
      | Ok cs =>
          match free_in_rows g rest js with
          | Raise e => Raise e
          | Ok cs' => Ok (cs ++ cs')
          end
      end
  end.

Definition free_cells (env : Environment) (g : list (list Z)) : result (list cell) :=
  free_in_rows g (seq 0 (Z.to_nat (n_rows env))) (seq 0 (Z.to_nat (n_cols env))).

Definition get_random_free_cell_p : M cell :=
  do env <- get ;
  do cells <- lift (free_cells env (grid env)) ;
  do i <- randint 0 (Z.of_nat (length cells)) ;
  match cells !! Z.to_nat i with
  | None => raise IndexError
  | Some c => ret c
  end.

Definition get_random_free_cell (new_grid : list (list Z)) : M (cell * list (list Z)) :=
  do env <- get ;
  do cells <- lift (free_cells env new_grid) ;
  do i <- randint 0 (Z.of_nat (length cells)) ;
  match cells !! Z.to_nat i with
  | None => raise IndexError
  | Some c =>
      match new_grid !! Z.to_nat c.1 with
      | None => raise IndexError
      | Some row =>
          ret (c, <[Z.to_nat c.1 := <[Z.to_nat c.2 := 1%Z]> row]> new_grid)
      end
  end.

Definition add_robot (pos : cell) : M unit :=
  do env <- get ;
  do free <- lift (is_free_cell env pos) ;
  if free
  then modify (fun env => set_robots env (robots env ++ [ {| position := pos; carrying := 0 |} ]))
  else raise ValueError.

Fixpoint place_robots (n : nat) (tmp_grid : list (list Z)) : M unit :=
  match n with
  | 0 => ret tt
  | S n' =>
      do (pos, tmp_grid) <- get_random_free_cell tmp_grid ;
      exec add_robot pos ;
      place_robots n' tmp_grid
  end.

(** [while True: target = ...; if start != target: break].  Every turn takes
    one draw from the tape, so a bound above the tape length is never the
    reason the loop stops (lemma [draw_target_fuel]). *)
Fixpoint draw_target (start : cell) (fuel : nat) : M cell :=
  match fuel with
  | 0 => raise OutOfFuel
  | S fuel' =>
      do target <- get_random_free_cell_p ;
      if bool_decide (start <> target) then ret target else draw_target start fuel'
  end.


(** One turn of the generation loop, for generation index [i].  The float
    bound [N/2] is truncated by [randint]. *)
Definition generate_package (i : nat) : M package_tuple :=
  do env <- get ;
  let N := n_rows env in
  do start <- get_random_free_cell_p ;
  do env <- get ;
  do target <- draw_target start (S (length (rng env))) ;
  do x <- randint (N / 2)%Z (3 * N)%Z ;
  let to_deadline := (10 + x)%Z in
  do start_time <- (if i <=? Nat.min (n_robots env) 20
                 then ret 0%Z
                 else randint 1 (max_time_steps env)) ;
  ret (start_time, start, target, (start_time + to_deadline)%Z).

Fixpoint generate_packages (idx : list nat) (list_packages : list package_tuple)
    : M (list package_tuple) :=
  match idx with
  | [] => ret list_packages
  | i :: rest =>
      do tup <- generate_package i ;
      generate_packages rest (list_packages ++ [tup])
  end.

(** [list_packages.sort(key=lambda x: x[0])]: a stable sort on the spawn
    time. *)
Fixpoint insert_by_time (x : package_tuple) (l : list package_tuple) : list package_tuple :=
  match l with
  | [] => [x]
  | y :: l' =>
      if (x.1.1.1 <=? y.1.1.1)%Z then x :: y :: l' else y :: insert_by_time x l'
  end.

Definition sort_by_time (l : list package_tuple) : list package_tuple :=
  foldr insert_by_time [] l.

Fixpoint make_packages (i : nat) (l : list package_tuple) : list Package :=
  match l with
  | [] => []
  | (start_time, start, target, deadline) :: rest =>
      {| start := start; start_time := start_time; target := target;
         deadline := deadline; package_id := i + 1; status := StNone |}
      :: make_packages (S i) rest
  end.

Definition reset : M Snapshot :=
  exec modify (fun env => set_t env 0%Z) ;
  exec modify (fun env => set_robots env []) ;
  exec modify (fun env => set_packages env []) ;
  exec modify (fun env => set_total_reward env r_zero) ;
  do env <- get ;
  exec place_robots (n_robots env) (grid env) ;
  do list_packages <- generate_packages (seq 0 (n_packages env)) [] ;
  let list_packages := sort_by_time list_packages in
  exec modify (fun env => set_packages env (packages env ++ make_packages 0 list_packages)) ;
  get_state.

(** ** main: the simulation loop (main.py, lines 57-62)

    [render] draws and saves a frame: it reads the environment and writes
    nothing of what is modelled here.  The agents are an object of a class
    that is not part of this code; [get_actions] stands for its method and
    [A] for its state.  The loop has no bound of its own: [fuel] bounds the
    number of turns. *)
Fixpoint main_loop {A : Type} (get_actions : A -> Snapshot -> list action * A)
    (fuel : nat) (agents : A) (state : Snapshot) : M (Snapshot * A) :=
  match fuel with
  | 0 => raise OutOfFuel
  | S fuel' =>
      let '(actions, agents) := get_actions agents state in
      do (state, reward, done, infos) <- step actions ;
      if done then ret (state, agents) else main_loop get_actions fuel' agents state
  end.

End Simulation.

(** * Specification-level definitions *)

(** The test the scan makes on robot [i]: not decided yet, and the robot
    recorded at its proposed cell, if any, is [i] itself or decided. *)
Definition can_decide (pr : Proposal) (st : Resolution) (i : nat) : bool :=
  (computed_moved st !!! i =? 0) &&
  match old_pos pr !! (proposed_positions pr !!! i) with
  | None => true
  | Some j => negb (negb (j =? i) && (computed_moved st !!! j =? 0))
  end.

Definition decision (rs : list Robot) (pr : Proposal) (st : Resolution) (i : nat) : Resolution :=
  decide_robot i (position (rs !!! i)) (proposed_positions pr !!! i) st.

(** Number of robots the scan loop has not decided yet. *)
Definition undecided (st : Resolution) : nat :=
  length (filter (fun v => v = 0) (computed_moved st)).

(** What the scan loop keeps whatever the robots and the proposal: the lists
    keep their length and a decided robot has a final position. *)
Record LInv (rs : list Robot) (st : Resolution) : Prop := {
  linv_len_c : length (computed_moved st) = length rs;
  linv_len_f : length (final_positions st) = length rs;
  linv_some : forall i,
    i < length rs -> computed_moved st !!! i <> 0 ->
    exists c, final_positions st !! i = Some (Some c)
}.

(** The invariant of the scan loop, for robots [rs] and proposal [pr]. *)
Record RInv (rs : list Robot) (pr : Proposal) (st : Resolution) : Prop := {
  inv_len_c : length (computed_moved st) = length rs;
  inv_len_f : length (final_positions st) = length rs;
  inv_claimed : forall i,
    i < length rs -> computed_moved st !!! i <> 0 ->
    exists c, final_positions st !! i = Some (Some c) /\ is_Some (occupied st !! c);
  inv_vacated : forall k c j,
    k < length rs -> computed_moved st !!! k <> 0 ->
    final_positions st !! k = Some (Some c) ->
    position <$> rs !! j = Some c ->
    computed_moved st !!! j <> 0;
  inv_distinct : forall k k' c,
    k < length rs -> k' < length rs -> k <> k' ->
    computed_moved st !!! k <> 0 -> computed_moved st !!! k' <> 0 ->
    final_positions st !! k = Some (Some c) ->
    final_positions st !! k' = Some (Some c) -> False;
  inv_choice : forall i,
    i < length rs -> computed_moved st !!! i <> 0 ->
    final_positions st !! i = Some (Some (proposed_positions pr !!! i)) \/
    final_positions st !! i = Some (Some (position (rs !!! i)))
}.

(** The test of line 263 for robot [i], on the robots as they stand when the
    loop starts. *)
Definition charged (actions : list action) (fp : list (option cell)) (rs : list Robot) (i : nat) : bool :=
  match rs !! i, actions !! i, fp !! i with
  | Some robot, Some (move, _), Some (Some fin) =>
      is_LRUD move && negb (bool_decide (fin = position robot))
  | _, _, _ => false
  end.

Definition count_charged (actions : list action) (fp : list (option cell)) (rs : list Robot) (idx : list nat) : nat :=
  length (filter (fun i => charged actions fp rs i = true) idx).

(** The cell robot [robot] proposes with move [move]. *)
Definition proposed_cell {R : Type} (env : Environment (R := R)) (robot : Robot) (move : string) (v : bool) : cell :=
  if v then compute_new_position (position robot) move else position robot.


(** One package list is a later stage of another: the same packages, index by
    index, each with a status at least as advanced. *)
Definition advances (ps ps' : list Package) : Prop :=
  Forall2 (fun p p' => p' = set_status p (status p') /\
                       status_rank (status p) <= status_rank (status p')) ps ps'.

(** What holds of the environment between two calls of an episode: package
    ids follow the list order, a carried id names a package that was picked
    up, and a package that has not spawned yet is still in its initial
    status. *)
Record Good {R : Type} (env : Environment (R := R)) : Prop := {
  good_ids : forall j p, packages env !! j = Some p -> package_id p = S j;
  good_carry : forall i robot,
    robots env !! i = Some robot -> carrying robot <> 0 ->
    exists p, packages env !! (carrying robot - 1) = Some p /\
              2 <= status_rank (status p);
  good_unrevealed : forall j p,
    packages env !! j = Some p -> (t env < start_time p)%Z -> status p = StNone
}.

(** No read of the grid inside its bounds fails: no row is shorter than the
    first one. *)
Definition grid_ok {R : Type} (env : Environment (R := R)) : Prop :=
  Forall (fun row => Z.to_nat (n_cols env) <= length row) (grid env).

(** Any number of [step] calls, whatever they return. *)
Inductive calls {R : Type} {RO : RewardOps R}
    : Environment (R := R) -> Environment (R := R) -> Prop :=
| calls_nil env : calls env env
| calls_step env actions res env1 env2 :
    step actions env = (res, env1) -> calls env1 env2 -> calls env env2.

(** What [get_state] does to a package at tick [tick]. *)
Definition reveal (tick : Z) (p : Package) : Package :=
  if (start_time p =? tick)%Z then set_status p Waiting else p.

(** The state [step] builds before it tests termination and takes the
    snapshot: the tick advanced, the step reward [r] added to the total. *)
Definition ticked {R : Type} {RO : RewardOps R} (env : Environment (R := R)) (r : R)
    : Environment :=
  set_total_reward (set_t env (t env + 1)%Z) (r_add (total_reward env) r).

(** The [infos] dictionary of a step that ends in state [env]. *)
Definition infos_of {R : Type} (env : Environment (R := R)) (done : bool)
    : gmap string InfoVal :=
  if done
  then <["total_time_steps" := InfoSteps (t env)]>
         (<["total_reward" := InfoReward (total_reward env)]> empty)
  else empty.

(** The rule [reset] follows for the spawn time [st] of the package with
    generation index [i]. *)
Definition spawn_rule {R : Type} (env : Environment (R := R)) (i : nat) (st : Z) : Prop :=
  (i <= Nat.min (n_robots env) 20 -> st = 0%Z) /\
  (Nat.min (n_robots env) 20 < i -> (1 <= st <= max_time_steps env - 1)%Z).

(** A method that only draws random numbers: everything but the tape is as
    before. *)
Definition draws_only {R : Type} (env env' : Environment (R := R)) : Prop :=
  env' = set_rng env (rng env').

(** The environment as the first lines of [reset] leave it. *)
Definition cleared {R : Type} {RO : RewardOps R} (env : Environment (R := R)) : Environment :=
  set_total_reward (set_packages (set_robots (set_t env 0%Z) []) []) r_zero.

(** No robot carries anything. *)
Definition idle {R : Type} (env : Environment (R := R)) : Prop :=
  Forall (fun rb => carrying rb = 0) (robots env).

(** The two changes a package action can make: robot [i] picks up package
    [p], found at index [j]; robot [i] delivers the package [pkg] it carries. *)
Definition picked_up {R : Type} (env : Environment (R := R)) (i : nat) (robot : Robot) (j : nat) (p : Package) : Environment :=
  set_packages
    (set_robots env (<[i := set_carrying robot (package_id p)]> (robots env)))
    (<[j := set_status p InTransit]> (packages env)).

Definition dropped {R : Type} (env : Environment (R := R)) (i : nat) (robot : Robot) (pkg : Package) : Environment :=
  set_robots
    (set_packages env (<[carrying robot - 1 := set_status pkg Delivered]> (packages env)))
    (<[i := set_carrying robot 0]> (robots env)).

(** What a phase of [step] leaves alone. *)
Record frame {R : Type} (env env' : Environment (R := R)) : Prop := {
  frame_grid : grid env' = grid env;
  frame_t : t env' = t env;
  frame_total : total_reward env' = total_reward env;
  frame_max : max_time_steps env' = max_time_steps env;
  frame_move_cost : move_cost env' = move_cost env;
  frame_delivery : delivery_reward env' = delivery_reward env;
  frame_delay : delay_reward env' = delay_reward env;
  frame_len : length (robots env') = length (robots env)
}.

(** ** Concrete scenarios *)

(** A corridor of three free cells with two robots side by side. *)
Definition corridor : Environment (R := Z) :=
  {| grid := [[0; 0; 0]]%Z; move_cost := (-1)%Z; delivery_reward := 1000%Z;
     delay_reward := 100%Z; t := 0%Z;
     robots := [ {| position := (0, 0)%Z; carrying := 0 |};
                 {| position := (0, 1)%Z; carrying := 0 |} ];
     packages := []; total_reward := 0%Z; n_robots := 2;
     max_time_steps := 10%Z; n_packages := 0; rng := [] |}.

Definition swap_actions : list action := [("R", "0"); ("L", "0")].

(** A 2x4 map with one obstacle, one robot, three packages and a tape of
    draws, before [reset]. *)
Definition depot : Environment (R := Z) :=
  {| grid := [[0; 0; 0; 0]; [0; 1; 0; 0]]%Z; move_cost := (-1)%Z;
     delivery_reward := 1000%Z; delay_reward := 100%Z; t := 0%Z;
     robots := []; packages := []; total_reward := 0%Z; n_robots := 1;
     max_time_steps := 10%Z; n_packages := 3;
     rng := [3; 5; 7; 7; 7; 2; 9; 4; 1; 1; 3; 5; 6; 2; 8; 4; 2; 1; 0; 9]%Z |}.

Definition depot_reset : Environment (R := Z) := Eval vm_compute in (reset depot).2.

Definition depot_actions : list action := [("L", "0")].

Definition depot_step1 : Environment (R := Z) :=
  Eval vm_compute in (step depot_actions depot_reset).2.

Definition depot_step2 : Environment (R := Z) :=
  Eval vm_compute in (step [("D", "1")] depot_step1).2.

(** What the scenarios above compute. *)
Definition ok_or {A : Type} (d : A) (x : result A) : A :=
  match x with Ok a => a | Raise _ => d end.

Definition no_snapshot : Snapshot :=
  {| snap_time_step := 0%Z; snap_map := []; snap_robots := []; snap_packages := [] |}.

Definition no_output : Snapshot * Z * bool * gmap string (InfoVal (R := Z)) :=
  (no_snapshot, 0%Z, false, empty).

Definition corridor_proposal : Proposal :=
  Eval vm_compute in ok_or empty_proposal (propose corridor swap_actions).

Definition corridor_output : Snapshot * Z * bool * gmap string (InfoVal (R := Z)) :=
  Eval vm_compute in ok_or no_output (step swap_actions corridor).1.

Definition corridor_after : Environment (R := Z) :=
  Eval vm_compute in (step swap_actions corridor).2.

(** The second robot of the corridor steps right, the first one stays. *)
Definition advance_actions : list action := [("S", "0"); ("R", "0")].

(** The first robot of the corridor is sent a move that is no move. *)
Definition odd_actions : list action := [("X", "0"); ("S", "0")].

Definition depot_snapshot : Snapshot := Eval vm_compute in ok_or no_snapshot (reset depot).1.

Definition depot_placed : Environment (R := Z) :=
  Eval vm_compute in (place_robots (n_robots depot) (grid depot) (cleared depot)).2.

Definition depot_generated : list package_tuple :=
  Eval vm_compute in
    ok_or [] (generate_packages (seq 0 (n_packages depot)) [] depot_placed).1.

Definition depot_drawn : Environment (R := Z) :=
  Eval vm_compute in (generate_packages (seq 0 (n_packages depot)) [] depot_placed).2.

(** The first and the third package of the depot after its reset. *)
Definition depot_first : Package :=
  {| start := (1, 2)%Z; start_time := 0%Z; target := (0, 0)%Z; deadline := 13%Z;
     package_id := 1; status := Waiting |}.

Definition depot_third : Package :=
  {| start := (1, 0)%Z; start_time := 4%Z; target := (0, 1)%Z; deadline := 16%Z;
     package_id := 3; status := StNone |}.

(** The first package of the depot once it is picked up. *)
Definition depot_carried : Package :=
  {| start := (1, 2)%Z; start_time := 0%Z; target := (0, 0)%Z; deadline := 13%Z;
     package_id := 1; status := InTransit |}.

(** The second package of the depot after its reset. *)
Definition depot_second : Package :=
  {| start := (0, 0)%Z; start_time := 0%Z; target := (0, 2)%Z; deadline := 15%Z;
     package_id := 2; status := Waiting |}.

(** The depot three steps later: the robot walks to the target of package 1
    and drops it as it gets there. *)
Definition depot_step3 : Environment (R := Z) :=
  Eval vm_compute in (step [("U", "0")] depot_step2).2.

Definition depot_step4 : Environment (R := Z) :=
  Eval vm_compute in (step [("L", "0")] depot_step3).2.

Definition deliver_actions : list action := [("L", "2")].

Definition depot_output5 : Snapshot * Z * bool * gmap string (InfoVal (R := Z)) :=
  Eval vm_compute in ok_or no_output (step deliver_actions depot_step4).1.

Definition depot_step5 : Environment (R := Z) :=
  Eval vm_compute in (step deliver_actions depot_step4).2.

(** The depot on another course: after its first step the robot walks on
    to the left and picks up as it gets to the cell of package 2. *)
Definition depot_west2 : Environment (R := Z) :=
  Eval vm_compute in (step [("L", "0")] depot_step1).2.

Definition collect_actions : list action := [("L", "1")].

Definition depot_west_output : Snapshot * Z * bool * gmap string (InfoVal (R := Z)) :=
  Eval vm_compute in ok_or no_output (step collect_actions depot_west2).1.

Definition depot_west3 : Environment (R := Z) :=
  Eval vm_compute in (step collect_actions depot_west2).2.

(** The outputs of the two steps of the depot. *)
Definition depot_output1 : Snapshot * Z * bool * gmap string (InfoVal (R := Z)) :=
  Eval vm_compute in ok_or no_output (step depot_actions depot_reset).1.

Definition depot_output2 : Snapshot * Z * bool * gmap string (InfoVal (R := Z)) :=
  Eval vm_compute in ok_or no_output (step [("D", "1")] depot_step1).1.

Definition depot_free : list cell :=
  Eval vm_compute in ok_or [] (free_cells depot (grid depot)).

(** The corridor after the second robot has stepped right. *)
Definition advance_output : Snapshot * Z * bool * gmap string (InfoVal (R := Z)) :=
  Eval vm_compute in ok_or no_output (step advance_actions corridor).1.

Definition advance_after : Environment (R := Z) :=
  Eval vm_compute in (step advance_actions corridor).2.

(** The first robot of the corridor asks for the cell of the second one,
    which stays. *)
Definition block_actions : list action := [("R", "0"); ("S", "0")].

Definition block_proposal : Proposal :=
  Eval vm_compute in ok_or empty_proposal (propose corridor block_actions).

(** Both robots of the corridor step right, the first one into the cell the
    second one leaves. *)
Definition convoy_actions : list action := [("R", "0"); ("R", "0")].

Definition convoy_proposal : Proposal :=
  Eval vm_compute in ok_or empty_proposal (propose corridor convoy_actions).

(** Two robots at the ends of a row of three cells, both asking for the
    cell in the middle. *)
Definition junction : Environment (R := Z) :=
  {| grid := [[0; 0; 0]]%Z; move_cost := (-1)%Z; delivery_reward := 1000%Z;
     delay_reward := 100%Z; t := 0%Z;
     robots := [ {| position := (0, 0)%Z; carrying := 0 |};
                 {| position := (0, 2)%Z; carrying := 0 |} ];
     packages := []; total_reward := 0%Z; n_robots := 2;
     max_time_steps := 10%Z; n_packages := 0; rng := [] |}.

Definition junction_actions : list action := [("R", "0"); ("L", "0")].

Definition junction_proposal : Proposal :=
  Eval vm_compute in ok_or empty_proposal (propose junction junction_actions).

(** A robot at (0,1) at tick 3, with four packages: one waiting on another
    cell, one on its cell that has not spawned, two waiting on its cell. *)
Definition shelf_robot : Robot := {| position := (0, 1)%Z; carrying := 0 |}.

Definition shelf_package : Package :=
  {| start := (0, 1)%Z; start_time := 2%Z; target := (0, 2)%Z; deadline := 20%Z;
     package_id := 3; status := Waiting |}.

Definition shelf : Environment (R := Z) :=
  {| grid := [[0; 0; 0]]%Z; move_cost := (-1)%Z; delivery_reward := 1000%Z;
     delay_reward := 100%Z; t := 3%Z;
     robots := [ shelf_robot ];
     packages :=
       [ {| start := (0, 0)%Z; start_time := 0%Z; target := (0, 2)%Z; deadline := 20%Z;
            package_id := 1; status := Waiting |};
         {| start := (0, 1)%Z; start_time := 5%Z; target := (0, 2)%Z; deadline := 25%Z;
            package_id := 2; status := StNone |};
         shelf_package;
         {| start := (0, 1)%Z; start_time := 3%Z; target := (0, 0)%Z; deadline := 20%Z;
            package_id := 4; status := Waiting |} ];
     total_reward := 0%Z; n_robots := 1; max_time_steps := 10%Z; n_packages := 4;
     rng := [] |}.

(** The robot of the shelf stays and picks up. *)
Definition shelf_actions : list action := [("S", "1")].

Definition shelf_output : Snapshot * Z * bool * gmap string (InfoVal (R := Z)) :=
  Eval vm_compute in ok_or no_output (step shelf_actions shelf).1.

Definition shelf_after : Environment (R := Z) :=
  Eval vm_compute in (step shelf_actions shelf).2.

(** Agents that always stay and do nothing. *)
Definition idle_agents (agents : unit) (state : Snapshot) : list action * unit :=
  ([("S", "0")], agents).

(** The spawn-time rule in the words of the specification: the packages
    with generation index among the first [min(R, 20)] spawn at 0, every
    other one between 1 and [T - 1]. *)
Definition first_packages_rule {R : Type} (env : Environment (R := R))
    (l : list package_tuple) : Prop :=
  forall i tup, l !! i = Some tup ->
    (i < Nat.min (n_robots env) 20 -> tup.1.1.1 = 0%Z) /\
    (~ i < Nat.min (n_robots env) 20 -> (1 <= tup.1.1.1 <= max_time_steps env - 1)%Z).

(** Two action vectors the engine cannot tell apart: the same package
    actions, and moves that propose the same cells and are both, or neither,
    among L, R, U, D. *)
Definition same_effect (a a' : action) : Prop :=
  a.2 = a'.2 /\ is_LRUD a.1 = is_LRUD a'.1 /\
  forall pos, compute_new_position pos a.1 = compute_new_position pos a'.1.

(** Every robot stands on a cell [valid_position] accepts, or on a cell
    [is_free_cell] accepts. *)
Definition on_valid_cells {R : Type} (env : Environment (R := R)) : Prop :=
  Forall (fun rb => valid_position env (position rb) = Ok true) (robots env).

Definition on_free_cells {R : Type} (env : Environment (R := R)) : Prop :=
  Forall (fun rb => is_free_cell env (position rb) = Ok true) (robots env).

(** A generated tuple is sound for the map of [env]: two different free
    cells, a spawn time that is not negative and a deadline at least ten
    ticks after it. *)
Definition tuple_ok {R : Type} (env : Environment (R := R)) (tup : package_tuple) : Prop :=
  tup.1.1.2 <> tup.1.2 /\
  is_free_cell env tup.1.1.2 = Ok true /\
  is_free_cell env tup.1.2 = Ok true /\
  (0 <= tup.1.1.1)%Z /\
  (tup.1.1.1 + 10 <= tup.2)%Z.

Definition package_ok {R : Type} (env : Environment (R := R)) (p : Package) : Prop :=
  tuple_ok env (start_time p, start p, target p, deadline p).

(** The order [sort] puts the tuples in. *)
Definition time_le (x y : package_tuple) : Prop := (x.1.1.1 <= y.1.1.1)%Z.

(** Carrying and package status agree: a carried id names a package in
    transit, no two robots carry the same package, and a package in transit
    is carried by some robot. *)
Record Tight {R : Type} (env : Environment (R := R)) : Prop := {
  tight_in_transit : forall i rb,
    robots env !! i = Some rb -> carrying rb <> 0 ->
    exists p, packages env !! (carrying rb - 1) = Some p /\ status p = InTransit;
  tight_unique : forall i k a b,
    robots env !! i = Some a -> robots env !! k = Some b ->
    carrying a <> 0 -> carrying a = carrying b -> i = k;
  tight_carried : forall j p,
    packages env !! j = Some p -> status p = InTransit ->
    exists i rb, robots env !! i = Some rb /\ carrying rb = S j
}.

(** [run rs env env']: a sequence of [step] calls from [env] to [env']; [rs]
    lists the rewards of the calls that returned, in order, and the calls
    that raised leave no entry. *)
Inductive run {R : Type} {RO : RewardOps R}
    : list R -> Environment (R := R) -> Environment (R := R) -> Prop :=
| run_nil env : run [] env env
| run_ok rs env actions snap r done infos env1 env2 :
    step actions env = (Ok (snap, r, done, infos), env1) ->
    run rs env1 env2 -> run (r :: rs) env env2
| run_raise rs env actions e env1 env2 :
    step actions env = (Raise e, env1) -> run rs env1 env2 -> run rs env env2.

(** Package [p] can be picked up on cell [pos] at tick [tick]. *)
Definition available (pos : cell) (tick : Z) (p : Package) : Prop :=
  status p = Waiting /\ start p = pos /\ (start_time p <= tick)%Z.

(** The map holds nothing but 0 (free cell) and 1 (obstacle). *)
Definition binary_grid {R : Type} (env : Environment (R := R)) : Prop :=
  forall row v, elem_of row (grid env) -> elem_of v row -> v = 0%Z \/ v = 1%Z.

(** Every package whose spawn time has come has left its initial status. *)
Definition Shown {R : Type} (env : Environment (R := R)) : Prop :=
  forall j p, packages env !! j = Some p -> (start_time p <= t env)%Z -> status p <> StNone.

(** What can happen to a package in the step that ends at tick [tick]: it
    keeps its status, it spawns, it is picked up, or it is delivered. *)
Definition stage (tick : Z) (p p' : Package) : Prop :=
  status p' = status p \/
  (status p = StNone /\ status p' = Waiting /\ start_time p = tick) \/
  (status p = Waiting /\ status p' = InTransit) \/
  (status p = InTransit /\ status p' = Delivered).

(** The invariant of the package-action loop, [env0] being the environment
    when the loop starts and [rest] the robots still to visit: a package
    picked up in this loop is carried by a robot already visited. *)
Definition Staged {R : Type} (rest : list nat) (env0 env : Environment (R := R)) : Prop :=
  forall j p0 p, packages env0 !! j = Some p0 -> packages env !! j = Some p ->
    status p = status p0 \/
    (status p0 = Waiting /\ status p = InTransit /\
     forall i rb, robots env !! i = Some rb -> carrying rb = S j -> ~ elem_of i rest) \/
    (status p0 = InTransit /\ status p = Delivered).

(** ** The reward of a step, robot by robot *)

(** Robot [i] is charged for its move in the step that leads from [env] to
    [env']: it was sent one of L, R, U, D and does not end on the cell it
    stood on. *)
Definition pays {R : Type} (env env' : Environment (R := R)) (actions : list action)
    (i : nat) : bool :=
  match actions !! i, robots env !! i, robots env' !! i with
  | Some (move, _), Some rb, Some rb' =>
      bool_decide (elem_of move ["L"; "R"; "U"; "D"]) &&
      negb (bool_decide (position rb' = position rb))
  | _, _, _ => false
  end.

(** The package a robot delivers when it is told [pa], carries the package of
    id [carried] and stands on [pos] once it has moved. *)
Definition delivery (ps : list Package) (carried : nat) (pos : cell) (pa : string)
    : option Package :=
  if decide (pa = "2") then
    if carried =? 0 then None
    else match ps !! (carried - 1) with
         | Some pkg => if bool_decide (pos = target pkg) then Some pkg else None
         | None => None
         end
  else None.

(** The package robot [i] delivers in the step that leads from [env] to
    [env']: what it carries is read when the step starts, where it stands
    when the step ends. *)
Definition delivers {R : Type} (env env' : Environment (R := R)) (actions : list action)
    (i : nat) : option Package :=
  match actions !! i, robots env !! i, robots env' !! i with
  | Some (_, pa), Some rb, Some rb' =>
      delivery (packages env) (carrying rb) (position rb') pa
  | _, _, _ => None
  end.

(** What the delivery of [pkg] is worth in a step called at the tick of
    [env]. *)
Definition credit {R : Type} (env : Environment (R := R)) (pkg : Package) : R :=
  if (t env <=? deadline pkg)%Z then delivery_reward env else delay_reward env.

(** The share of robot [i] in the reward of the step, added to [acc]: the
    cost of its move, the credit of its delivery. *)
Definition add_cost {R : Type} {RO : RewardOps R} (env env' : Environment (R := R))
    (actions : list action) (acc : R) (i : nat) : R :=
  if pays env env' actions i then r_add acc (move_cost env) else acc.

Definition add_credit {R : Type} {RO : RewardOps R} (env env' : Environment (R := R))
    (actions : list action) (acc : R) (i : nat) : R :=
  match delivers env env' actions i with
  | Some pkg => r_add acc (credit env pkg)
  | None => acc
  end.

(** The same packages, index by index, but for their status. *)
Definition restaged (ps ps' : list Package) : Prop :=
  Forall2 (fun p p' => p' = set_status p (status p')) ps ps'.

(** * Properties *)

Ltac unfold_M := unfold bind, get, modify, ret, raise, lift in *.


(** ** The scan loop *)

Lemma scan_spec rs pr idx st st' b :
  scan rs pr idx st = (st', b) ->
  (b = false /\ st' = st /\ Forall (fun i => can_decide pr st i = false) idx) \/
  (b = true /\ exists i, elem_of i idx /\ can_decide pr st i = true /\
                         st' = decision rs pr st i).
Proof.
  revert st st' b. induction idx as [|i idx IH]; intros st st' b Hs; simpl in Hs.
  - left. inversion Hs. auto.
  - unfold can_decide, decision in *.
    destruct (computed_moved st !!! i =? 0) eqn:Hc; simpl in Hs.
    + destruct (old_pos pr !! (proposed_positions pr !!! i)) as [j|] eqn:Ho.
      * destruct (negb (j =? i) && (computed_moved st !!! j =? 0)) eqn:Hw.
        -- destruct (IH _ _ _ Hs) as [(-> & -> & HF)|(-> & k & Hk & Hd & ->)].
           ++ left. repeat split; auto. constructor; auto.
              simpl. rewrite Hc, Ho, Hw. reflexivity.
           ++ right. split; auto. exists k. repeat split; auto. by right.
        -- inversion Hs; subst. right. split; auto. exists i.
           split; [by left|]. simpl. rewrite Hc, Ho, Hw. auto.
      * inversion Hs; subst. right. split; auto. exists i.
        split; [by left|]. simpl. rewrite Hc, Ho. auto.
    + destruct (IH _ _ _ Hs) as [(-> & -> & HF)|(-> & k & Hk & Hd & ->)].
      * left. repeat split; auto. constructor; auto. simpl. by rewrite Hc.
      * right. split; auto. exists k. repeat split; auto. by right.
Qed.


Lemma filter_insert_zero (l : list nat) i :
  l !! i = Some 0 ->
  length (filter (fun v => v = 0) l) = S (length (filter (fun v => v = 0) (<[i := 1]> l))).
Proof.
  revert i. induction l as [|x l IH]; intros [|i] H; simpl in *; try discriminate.
  - inversion H; subst. rewrite filter_cons_True by done.
    rewrite filter_cons_False by done. reflexivity.
  - destruct (decide (x = 0)).
    + rewrite !filter_cons_True by done. simpl. f_equal. by apply IH.
    + rewrite !filter_cons_False by done. by apply IH.
Qed.

Lemma computed_decide_robot i pos new_pos st :
  computed_moved (decide_robot i pos new_pos st) = <[i := 1]> (computed_moved st).
Proof. unfold decide_robot. by destruct (occupied st !! new_pos). Qed.

Lemma can_decide_zero pr st i :
  can_decide pr st i = true -> computed_moved st !!! i = 0.
Proof.
  unfold can_decide. intros H. apply andb_true_iff in H as [H _].
  by apply Nat.eqb_eq in H.
Qed.

Lemma decide_robot_fields i pos new_pos st :
  exists c,
    computed_moved (decide_robot i pos new_pos st) = <[i := 1]> (computed_moved st) /\
    final_positions (decide_robot i pos new_pos st) = <[i := Some c]> (final_positions st) /\
    occupied (decide_robot i pos new_pos st) = <[c := i]> (occupied st) /\
    ((c = new_pos /\ occupied st !! new_pos = None) \/
     (c = pos /\ is_Some (occupied st !! new_pos))).
Proof.
  unfold decide_robot. destruct (occupied st !! new_pos) eqn:Ho; simpl.
  - exists pos. split_and!; auto.
  - exists new_pos. split_and!; auto.
Qed.

(** The scan loop returns, for any robots and any proposal, and every robot
    has a final position after the defaulting loop. *)
Lemma LInv_decision rs pr st i :
  LInv rs st -> i < length rs -> LInv rs (decision rs pr st i).
Proof.
  intros [Hlc Hlf Hsome] Hi. unfold decision.
  destruct (decide_robot_fields i (position (rs !!! i)) (proposed_positions pr !!! i) st)
    as (c & Ec & Ef & _ & _).
  split; rewrite ?Ec, ?Ef, ?length_insert; auto.
  intros k Hk Hck. destruct (decide (k = i)) as [->|Hne].
  - exists c. apply list_lookup_insert_eq. lia.
  - rewrite list_lookup_total_insert_ne in Hck by done.
    rewrite list_lookup_insert_ne by done. auto.
Qed.

Lemma resolve_loop_returns rs pr fuel :
  forall st, LInv rs st -> undecided st < fuel ->
  exists st', resolve_loop rs pr fuel st = Ok st' /\ LInv rs st'.
Proof.
  induction fuel as [|fuel IH]; intros st Hinv Hlt; [lia|].
  simpl. destruct (scan rs pr (seq 0 (length rs)) st) as [st1 b] eqn:Hs.
  destruct (scan_spec _ _ _ _ _ _ Hs) as [(-> & -> & HF)|(-> & i & Hi & Hcan & ->)].
  - eauto.
  - apply elem_of_seq in Hi. apply IH.
    + apply LInv_decision; [done|lia].
    + assert (Hic : i < length (computed_moved st)) by (rewrite (linv_len_c _ _ Hinv); lia).
      unfold undecided, decision in *. rewrite computed_decide_robot.
      rewrite (filter_insert_zero (computed_moved st) i) in Hlt; [lia|].
      rewrite (list_lookup_lookup_total_lt _ _ Hic). f_equal.
      by apply can_decide_zero in Hcan.
Qed.

Lemma default_loop_all rs cm :
  forall idx fp i,
  i < length fp ->
  (elem_of i idx \/ exists c, fp !! i = Some (Some c)) ->
  (cm !!! i <> 0 -> exists c, fp !! i = Some (Some c)) ->
  exists c, default_loop rs cm idx fp !! i = Some (Some c).
Proof.
  induction idx as [|k idx IH]; intros fp i Hi Hin Hdec; simpl.
  - destruct Hin as [Hin|Hin]; [by apply elem_of_nil in Hin|done].
  - destruct (cm !!! k =? 0) eqn:Hk.
    + apply Nat.eqb_eq in Hk. apply IH.
      * by rewrite length_insert.
      * destruct (decide (i = k)) as [->|Hne].
        -- right. rewrite list_lookup_insert_eq by done. eauto.
        -- rewrite list_lookup_insert_ne by done.
           destruct Hin as [Hin|Hin]; [|by right].
           apply elem_of_cons in Hin as [?|Hin]; [done|by left].
      * intros Hc. destruct (decide (i = k)) as [->|Hne]; [done|].
        rewrite list_lookup_insert_ne by done. auto.
    + apply Nat.eqb_neq in Hk. apply IH; [done| |done].
      destruct Hin as [Hin|Hin]; [|by right].
      apply elem_of_cons in Hin as [->|Hin]; [right; auto|by left].
Qed.

Lemma default_loop_len rs cm idx :
  forall fp, length (default_loop rs cm idx fp) = length fp.
Proof.
  induction idx as [|k idx IH]; intros fp; simpl; auto.
  rewrite IH. destruct (cm !!! k =? 0); by rewrite ?length_insert.
Qed.

Lemma resolve_returns rs pr :
  exists fp, resolve rs pr = Ok fp /\ length fp = length rs /\
             forall i, i < length rs -> exists c, fp !! i = Some (Some c).
Proof.
  destruct (resolve_loop_returns rs pr (S (length rs)) (init_resolution (length rs)))
    as (st & Hres & [Hlc Hlf Hsome]).
  - split; simpl; rewrite ?length_replicate; auto.
    intros i Hi Hc. by rewrite lookup_total_replicate_2 in Hc.
  - unfold undecided. simpl.
    assert (E : forall n, length (filter (fun v => v = 0) (replicate n 0)) = n).
    { induction n as [|n IHn]; simpl; auto. }
    rewrite E. lia.
  - unfold resolve. rewrite Hres. eexists. split; [reflexivity|].
    split; [by rewrite default_loop_len|].
    intros i Hi. apply default_loop_all; [lia| |auto].
    left. apply elem_of_seq. lia.
Qed.

Section Resolve.
Variables (rs : list Robot) (pr : Proposal).

(** What the first loop of [step] leaves in [old_pos] when the robots stand
    on pairwise distinct cells: the cell of robot [j], mapped to [j]. *)
Hypothesis old_pos_spec :
  forall c j, old_pos pr !! c = Some j <-> position <$> rs !! j = Some c.


Lemma RInv_init : RInv rs pr (init_resolution (length rs)).
Proof.
  split; simpl; rewrite ?length_replicate; auto.
  - intros i Hi Hc. by rewrite lookup_total_replicate_2 in Hc.
  - intros k c j Hk Hc. by rewrite lookup_total_replicate_2 in Hc.
  - intros k k' c Hk _ _ Hc. by rewrite lookup_total_replicate_2 in Hc.
  - intros i Hi Hc. by rewrite lookup_total_replicate_2 in Hc.
Qed.

Lemma position_lookup i :
  i < length rs -> position <$> rs !! i = Some (position (rs !!! i)).
Proof. intros Hi. by rewrite (list_lookup_lookup_total_lt rs i Hi). Qed.

Lemma can_decide_target st i j :
  can_decide pr st i = true ->
  old_pos pr !! (proposed_positions pr !!! i) = Some j ->
  j = i \/ computed_moved st !!! j <> 0.
Proof.
  unfold can_decide. intros H Ho. rewrite Ho in H.
  apply andb_true_iff in H as [_ H]. apply negb_true_iff, andb_false_iff in H.
  destruct H as [H|H].
  - left. apply negb_false_iff, Nat.eqb_eq in H. done.
  - right. by apply Nat.eqb_neq in H.
Qed.

Lemma RInv_decision st i :
  RInv rs pr st -> i < length rs -> can_decide pr st i = true ->
  RInv rs pr (decision rs pr st i).
Proof.
  intros [Hlc Hlf Hcl Hva Hdi Hch] Hi Hcan. unfold decision.
  pose proof (can_decide_zero _ _ _ Hcan) as Hzero.
  destruct (decide_robot_fields i (position (rs !!! i)) (proposed_positions pr !!! i) st)
    as (c & Ec & Ef & Eo & Hc).
  assert (Hown : forall j, position <$> rs !! j = Some c -> j = i \/ computed_moved st !!! j <> 0).
  { intros j Hj. destruct Hc as [[-> _]|[-> _]].
    - apply (can_decide_target st i j Hcan). by apply old_pos_spec.
    - left. apply old_pos_spec in Hj. pose proof (position_lookup i Hi) as Hp.
      apply old_pos_spec in Hp. congruence. }
  assert (Hfree : forall k, k < length rs -> k <> i -> computed_moved st !!! k <> 0 ->
                            final_positions st !! k = Some (Some c) -> False).
  { intros k Hk Hne Hck Hfk. destruct Hc as [[-> Hnone]|[-> _]].
    - destruct (Hcl k Hk Hck) as (c' & Hf' & Hocc). rewrite Hfk in Hf'.
      destruct Hocc as [x Hx]. congruence.
    - apply (Hva k _ i Hk Hck Hfk); [by apply position_lookup | done]. }
  assert (Hcm : forall k, <[i := 1]> (computed_moved st) !!! k <> 0 ->
                          k = i \/ computed_moved st !!! k <> 0).
  { intros k. rewrite list_lookup_total_insert.
    case_decide as Hd; [left; symmetry; apply Hd | by right]. }
  assert (Hcm' : forall k, k = i \/ computed_moved st !!! k <> 0 ->
                           <[i := 1]> (computed_moved st) !!! k <> 0).
  { intros k [->|Hk].
    - rewrite list_lookup_total_insert_eq by lia. done.
    - rewrite list_lookup_total_insert. by case_decide. }
  split; rewrite ?Ec, ?Ef, ?Eo, ?length_insert; auto.
  - intros k Hk Hck. destruct (decide (k = i)) as [->|Hne].
    + exists c. rewrite list_lookup_insert_eq by lia. split; auto.
      rewrite lookup_insert_eq. eauto.
    + apply Hcm in Hck as [?|Hck]; [done|].
      destruct (Hcl k Hk Hck) as (c' & Hf' & Hocc). exists c'.
      rewrite list_lookup_insert_ne by done. split; auto.
      rewrite lookup_insert. case_decide; eauto.
  - intros k c' j Hk Hck Hfk Hj. apply Hcm'. destruct (decide (k = i)) as [->|Hne].
    + rewrite list_lookup_insert_eq in Hfk by lia. inversion Hfk; subst. by apply Hown.
    + rewrite list_lookup_insert_ne in Hfk by done.
      apply Hcm in Hck as [?|Hck]; [done|]. right. eapply Hva; eauto.
  - intros k k' c' Hk Hk' Hne Hck Hck' Hfk Hfk'.
    destruct (decide (k = i)) as [->|Hki]; destruct (decide (k' = i)) as [->|Hki']; try done.
    + rewrite list_lookup_insert_eq in Hfk by lia. inversion Hfk; subst.
      rewrite list_lookup_insert_ne in Hfk' by done.
      apply Hcm in Hck' as [?|Hck']; [done|]. eauto.
    + rewrite list_lookup_insert_eq in Hfk' by lia. inversion Hfk'; subst.
      rewrite list_lookup_insert_ne in Hfk by done.
      apply Hcm in Hck as [?|Hck]; [done|]. eauto.
    + rewrite list_lookup_insert_ne in Hfk, Hfk' by done.
      apply Hcm in Hck as [?|Hck]; [done|]. apply Hcm in Hck' as [?|Hck']; [done|]. eauto.
  - intros k Hk Hck. destruct (decide (k = i)) as [->|Hne].
    + rewrite list_lookup_insert_eq by lia. destruct Hc as [[-> _]|[-> _]]; auto.
    + rewrite list_lookup_insert_ne by done.
      apply Hcm in Hck as [?|Hck]; [done|]. auto.
Qed.

Lemma undecided_decision st i :
  i < length (computed_moved st) -> can_decide pr st i = true ->
  undecided st = S (undecided (decision rs pr st i)).
Proof.
  intros Hi Hcan. unfold undecided, decision. rewrite computed_decide_robot.
  apply filter_insert_zero. rewrite (list_lookup_lookup_total_lt _ _ Hi).
  f_equal. by apply can_decide_zero in Hcan.
Qed.

(** The scan loop stops: with more passes allowed than robots left to decide
    it returns, in a state where a further pass decides nobody.  Any property
    [P] kept by every decision holds of the state it returns. *)
Lemma resolve_loop_total (P : Resolution -> Prop) :
  (forall st i, RInv rs pr st -> P st -> i < length rs -> can_decide pr st i = true ->
                P (decision rs pr st i)) ->
  forall fuel st,
  RInv rs pr st -> P st -> undecided st < fuel ->
  exists st', resolve_loop rs pr fuel st = Ok st' /\ RInv rs pr st' /\ P st' /\
              Forall (fun i => can_decide pr st' i = false) (seq 0 (length rs)).
Proof.
  intros HP fuel. induction fuel as [|fuel IH]; intros st Hinv HPst Hlt; [lia|].
  simpl. destruct (scan rs pr (seq 0 (length rs)) st) as [st1 b] eqn:Hs.
  destruct (scan_spec _ _ _ _ _ _ Hs) as [(-> & -> & HF)|(-> & i & Hi & Hcan & ->)].
  - eauto.
  - apply elem_of_seq in Hi. apply IH.
    + apply RInv_decision; auto. lia.
    + apply HP; auto. lia.
    + rewrite (undecided_decision st i) in Hlt; [lia| |done].
      rewrite (inv_len_c _ _ _ Hinv). lia.
Qed.

Lemma undecided_init n : undecided (init_resolution n) = n.
Proof.
  unfold undecided. simpl. induction n as [|n IH]; simpl; auto.
Qed.

(** The loop that sends undecided robots back to their cells. *)
Lemma default_loop_decided cm idx fp i :
  cm !!! i <> 0 -> default_loop rs cm idx fp !! i = fp !! i.
Proof.
  intros Hi. revert fp. induction idx as [|k idx IH]; intros fp; simpl; auto.
  rewrite IH. destruct (cm !!! k =? 0) eqn:Hk; auto.
  apply Nat.eqb_eq in Hk. apply list_lookup_insert_ne. congruence.
Qed.

Lemma default_loop_keeps cm idx fp i :
  fp !! i = Some (Some (position (rs !!! i))) ->
  default_loop rs cm idx fp !! i = Some (Some (position (rs !!! i))).
Proof.
  revert fp. induction idx as [|k idx IH]; intros fp Hi; simpl; auto.
  apply IH. destruct (cm !!! k =? 0); auto.
  destruct (decide (k = i)) as [->|Hne].
  - apply list_lookup_insert_eq. by apply lookup_lt_Some in Hi.
  - by rewrite list_lookup_insert_ne.
Qed.

Lemma default_loop_undecided cm idx fp i :
  elem_of i idx -> i < length fp -> cm !!! i = 0 ->
  default_loop rs cm idx fp !! i = Some (Some (position (rs !!! i))).
Proof.
  revert fp. induction idx as [|k idx IH]; intros fp Hin Hi Hc; simpl.
  - by apply elem_of_nil in Hin.
  - apply elem_of_cons in Hin as [->|Hin].
    + apply default_loop_keeps. rewrite Hc. simpl. by apply list_lookup_insert_eq.
    + apply IH; auto. destruct (cm !!! k =? 0); by rewrite ?length_insert.
Qed.

(** The movement resolution returns, and what it returns: a cell for every
    robot, its own cell for a robot the scan loop left undecided, its proposed
    cell or its own cell otherwise, and no cell twice. *)
Lemma resolve_spec (P : Resolution -> Prop) :
  (forall st i, RInv rs pr st -> P st -> i < length rs -> can_decide pr st i = true ->
                P (decision rs pr st i)) ->
  P (init_resolution (length rs)) ->
  exists st fp,
    resolve rs pr = Ok fp /\ P st /\ length fp = length rs /\
    (forall i, i < length rs ->
       (computed_moved st !!! i = 0 /\ fp !! i = Some (Some (position (rs !!! i)))) \/
       (computed_moved st !!! i <> 0 /\
        (fp !! i = Some (Some (proposed_positions pr !!! i)) \/
         fp !! i = Some (Some (position (rs !!! i)))))) /\
    (forall i j c, fp !! i = Some (Some c) -> fp !! j = Some (Some c) -> i = j).
Proof.
  intros HP HP0.
  destruct (resolve_loop_total P HP (S (length rs)) (init_resolution (length rs)))
    as (st & Hres & Hinv & HPst & _); auto using RInv_init.
  { rewrite undecided_init. lia. }
  unfold resolve. rewrite Hres. eexists st, _. split; [reflexivity|].
  destruct Hinv as [Hlc Hlf Hcl Hva Hdi Hch].
  assert (Hcases : forall i, i < length rs ->
    (computed_moved st !!! i = 0 /\
     default_loop rs (computed_moved st) (seq 0 (length rs)) (final_positions st) !! i
       = Some (Some (position (rs !!! i)))) \/
    (computed_moved st !!! i <> 0 /\
     default_loop rs (computed_moved st) (seq 0 (length rs)) (final_positions st) !! i
       = final_positions st !! i)).
  { intros i Hi. destruct (decide (computed_moved st !!! i = 0)) as [Hz|Hnz].
    - left. split; auto. apply default_loop_undecided; auto.
      + apply elem_of_seq. lia.
      + lia.
    - right. split; auto. by apply default_loop_decided. }
  split; [done|]. split; [by rewrite default_loop_len|]. split.
  - intros i Hi. destruct (Hcases i Hi) as [[Hz Hd]|[Hnz Hd]]; [by left|].
    right. split; auto. rewrite Hd. auto.
  - intros i j c Hfi Hfj.
    assert (Hi : i < length rs).
    { apply lookup_lt_Some in Hfi. by rewrite default_loop_len, Hlf in Hfi. }
    assert (Hj : j < length rs).
    { apply lookup_lt_Some in Hfj. by rewrite default_loop_len, Hlf in Hfj. }
    destruct (decide (i = j)) as [|Hne]; [done|exfalso].
    destruct (Hcases i Hi) as [[Hzi Hdi']|[Hnzi Hdi']];
      destruct (Hcases j Hj) as [[Hzj Hdj]|[Hnzj Hdj]];
      rewrite Hdi' in Hfi; rewrite Hdj in Hfj.
    + inversion Hfi as [Hpi]. inversion Hfj as [Hpj].
      pose proof (position_lookup i Hi) as Hp1. pose proof (position_lookup j Hj) as Hp2.
      rewrite Hpi in Hp1. rewrite Hpj in Hp2.
      apply old_pos_spec in Hp1, Hp2. congruence.
    + inversion Hfi as [Hpi]. pose proof (position_lookup i Hi) as Hp1.
      rewrite Hpi in Hp1. by apply (Hva j c i Hj Hnzj Hfj Hp1).
    + inversion Hfj as [Hpj]. pose proof (position_lookup j Hj) as Hp2.
      rewrite Hpj in Hp2. by apply (Hva i c j Hi Hnzi Hfi Hp2).
    + eauto.
Qed.

End Resolve.

(** ** The proposal loop *)

Section Propose.
Context {R : Type} {RO : RewardOps R}.
Implicit Types (env : Environment (R := R)) (actions : list action).


Lemma propose_loop_spec env actions rs :
  forall i acc pr,
  propose_loop env actions i rs acc = Ok pr ->
  length (proposed_positions pr) = length (proposed_positions acc) + length rs /\
  (forall k robot, rs !! k = Some robot ->
     exists move pa v,
       actions !! (i + k) = Some (move, pa) /\
       valid_position env (compute_new_position (position robot) move) = Ok v /\
       proposed_positions pr !! (length (proposed_positions acc) + k)
         = Some (proposed_cell env robot move v)) /\
  (forall k, k < length (proposed_positions acc) ->
     proposed_positions pr !! k = proposed_positions acc !! k).
Proof.
  induction rs as [|robot rest IH]; intros i acc pr Hp; simpl in Hp.
  - inversion Hp; subst. split; [simpl; lia|]. split; [|done].
    intros k rb Hk. by rewrite lookup_nil in Hk.
  - destruct (actions !! i) as [[move pa]|] eqn:Ha; [|done].
    destruct (valid_position env (compute_new_position (position robot) move))
      as [v|] eqn:Hv; [|done].
    apply IH in Hp as (Hlen & Hrest & Hkeep). simpl in *.
    rewrite length_app in Hlen, Hrest, Hkeep. simpl in *.
    split; [lia|]. split.
    + intros [|k] rb Hk; simpl in Hk.
      * inversion Hk; subst. exists move, pa, v.
        rewrite Nat.add_0_r. split; [done|]. split; [done|].
        rewrite Hkeep by lia. rewrite Nat.add_0_r.
        rewrite lookup_app_r by lia. by rewrite Nat.sub_diag.
      * destruct (Hrest k rb Hk) as (m & p & w & H1 & H2 & H3).
        exists m, p, w. split; [|split; [done|]].
        -- by replace (i + S k) with (S i + k) by lia.
        -- by replace (length (proposed_positions acc) + S k)
             with (length (proposed_positions acc) + 1 + k) by lia.
    + intros k Hk. rewrite Hkeep by lia. by rewrite lookup_app_l.
Qed.

Lemma propose_loop_old_pos env actions rs :
  forall i acc pr,
  NoDup (position <$> rs) ->
  propose_loop env actions i rs acc = Ok pr ->
  forall c j,
    old_pos pr !! c = Some j <->
    (exists k, j = i + k /\ position <$> rs !! k = Some c) \/
    ((forall k, position <$> rs !! k <> Some c) /\ old_pos acc !! c = Some j).
Proof.
  induction rs as [|robot rest IH]; intros i acc pr Hnd Hp c j; simpl in Hp.
  - inversion Hp; subst. split.
    + intros H. right. split; [|done]. intros k. by rewrite lookup_nil.
    + intros [(k & _ & Hk)|[_ H]]; [|done]. by rewrite lookup_nil in Hk.
  - destruct (actions !! i) as [[move pa]|] eqn:Ha; [|done].
    destruct (valid_position env (compute_new_position (position robot) move))
      as [v|] eqn:Hv; [|done].
    rewrite fmap_cons in Hnd. apply NoDup_cons in Hnd as [Hnotin Hnd].
    rewrite (IH _ _ _ Hnd Hp c j). simpl. clear IH Hp. split.
    + intros [(k & -> & Hk)|[Hno Hacc]].
      * left. exists (S k). split; [lia|done].
      * rewrite lookup_insert in Hacc. case_decide as Hd.
        -- inversion Hacc; subst. left. exists 0. split; [lia|]. by simpl.
        -- right. split; [|done]. intros [|k]; simpl; [congruence|apply Hno].
    + intros [(k & -> & Hk)|[Hno Hacc]].
      * destruct k as [|k]; simpl in Hk.
        -- inversion Hk; subst. right. split.
           ++ intros k Hk'. apply Hnotin. apply list_elem_of_lookup.
              exists k. by rewrite list_lookup_fmap.
           ++ rewrite lookup_insert_eq. f_equal. lia.
        -- left. exists k. split; [lia|done].
      * right. split; [intros k; apply (Hno (S k))|].
        rewrite lookup_insert_ne; [done|]. intros E. by apply (Hno 0); simpl; rewrite E.
Qed.

Lemma propose_old_pos env actions pr :
  NoDup (position <$> robots env) ->
  propose env actions = Ok pr ->
  forall c j, old_pos pr !! c = Some j <-> position <$> robots env !! j = Some c.
Proof.
  intros Hnd Hp c j. rewrite (propose_loop_old_pos _ _ _ _ _ _ Hnd Hp c j). simpl. split.
  - intros [(k & -> & Hk)|[_ H]]; [done|by rewrite lookup_empty in H].
  - intros H. left. by exists j.
Qed.

Lemma propose_proposed env actions pr :
  propose env actions = Ok pr ->
  length (proposed_positions pr) = length (robots env) /\
  forall k robot, robots env !! k = Some robot ->
    exists move pa v,
      actions !! k = Some (move, pa) /\
      valid_position env (compute_new_position (position robot) move) = Ok v /\
      proposed_positions pr !! k = Some (proposed_cell env robot move v).
Proof.
  intros Hp. apply propose_loop_spec in Hp as (Hlen & Hrest & _). simpl in *.
  split; [done|]. intros k robot Hk. by apply Hrest.
Qed.

End Propose.

(** ** The phases of step *)


Section Phases.
Context {R : Type} {RO : RewardOps R}.
Implicit Types (env : Environment (R := R)) (actions : list action) (r : R).

(** *** Positions and movement cost *)


Lemma count_charged_ext actions fp rs rs' idx :
  (forall i, elem_of i idx -> rs' !! i = rs !! i) ->
  count_charged actions fp rs' idx = count_charged actions fp rs idx.
Proof.
  unfold count_charged. induction idx as [|i idx IH]; intros H; [done|].
  assert (E : charged actions fp rs' i = charged actions fp rs i).
  { unfold charged. rewrite H; [done|by left]. }
  destruct (charged actions fp rs i) eqn:Hc.
  - rewrite !filter_cons_True by done. simpl. f_equal. apply IH.
    intros j Hj. apply H. by right.
  - rewrite !filter_cons_False by (by rewrite ?E, ?Hc). apply IH.
    intros j Hj. apply H. by right.
Qed.

Lemma update_positions_cons actions fp i rest r env :
  update_positions actions fp (i :: rest) r env =
  match robots env !! i, actions !! i, fp !! i with
  | Some robot, Some (move, pkg_act), Some (Some fin) =>
      update_positions actions fp rest
        (if is_LRUD move && negb (bool_decide (fin = position robot))
         then r_add r (move_cost env) else r)
        (set_robots env (<[i := set_position robot fin]> (robots env)))
  | _, _, _ => (Raise IndexError, env)
  end.
Proof.
  simpl. unfold_M.
  destruct (robots env !! i); [|done].
  destruct (actions !! i) as [[??]|]; [|done].
  by destruct (fp !! i) as [[?|]|].
Qed.

Lemma update_positions_spec actions fp :
  forall idx r env,
  NoDup idx ->
  (forall i, elem_of i idx ->
     i < length (robots env) /\ is_Some (actions !! i) /\ exists c, fp !! i = Some (Some c)) ->
  exists rs',
    update_positions actions fp idx r env
      = (Ok (Nat.iter (count_charged actions fp (robots env) idx)
                      (fun x => r_add x (move_cost env)) r),
         set_robots env rs') /\
    length rs' = length (robots env) /\
    (forall i, elem_of i idx ->
       exists robot c, robots env !! i = Some robot /\ fp !! i = Some (Some c) /\
                       rs' !! i = Some (set_position robot c)) /\
    (forall i, ~ elem_of i idx -> rs' !! i = robots env !! i).
Proof.
  induction idx as [|i idx IH]; intros r env Hnd Hok.
  - exists (robots env). simpl. unfold ret. split; [by destruct env|].
    split; [done|]. split; [|done]. intros i Hi. by apply elem_of_nil in Hi.
  - apply NoDup_cons in Hnd as [Hni Hnd].
    destruct (Hok i) as (Hi & [[move pa] Ha] & c & Hc); [by left|].
    destruct (lookup_lt_is_Some_2 _ _ Hi) as [robot Hr].
    rewrite update_positions_cons, Hr, Ha, Hc.
    set (env1 := set_robots env (<[i := set_position robot c]> (robots env))).
    set (r1 := if is_LRUD move && negb (bool_decide (c = position robot))
               then r_add r (move_cost env) else r).
    destruct (IH r1 env1 Hnd) as (rs' & Hup & Hlen & Hin & Hout).
    { intros j Hj. simpl. rewrite length_insert. apply Hok. by right. }
    exists rs'. simpl in *. rewrite length_insert in Hlen. split; [|split; [done|split]].
    + rewrite Hup. f_equal. f_equal.
      rewrite (count_charged_ext actions fp (robots env)).
      2:{ intros j Hj. apply list_lookup_insert_ne. intros ->. done. }
      unfold count_charged at 2. unfold r1.
      assert (Ech : charged actions fp (robots env) i
                    = is_LRUD move && negb (bool_decide (c = position robot))).
      { unfold charged. by rewrite Hr, Ha, Hc. }
      destruct (is_LRUD move && negb (bool_decide (c = position robot))) eqn:E.
      * rewrite filter_cons_True by done. simpl. symmetry.
        apply (Nat.iter_succ_r _ _ (fun x => r_add x (move_cost env)) r).
      * rewrite filter_cons_False by (by rewrite Ech). done.
    + intros j Hj. apply elem_of_cons in Hj as [->|Hj].
      * exists robot, c. split; [done|]. split; [done|].
        rewrite Hout by done. by apply list_lookup_insert_eq.
      * destruct (Hin j Hj) as (rb & c' & H1 & H2 & H3).
        exists rb, c'. split; [|done].
        rewrite list_lookup_insert_ne in H1; [done|]. intros ->. done.
    + intros j Hj. rewrite Hout.
      * apply list_lookup_insert_ne. intros ->. apply Hj. by left.
      * intros Hj'. apply Hj. by right.
Qed.

End Phases.

(** ** Package actions *)

Section PackagePhase.
Context {R : Type} {RO : RewardOps R}.
Implicit Types (env : Environment (R := R)) (actions : list action) (r : R).

Lemma pickup_scan_spec pos tick ps :
  forall j0 j p,
  pickup_scan pos tick j0 ps = Some (j, p) ->
  exists k, j = j0 + k /\ ps !! k = Some p /\
            status p = Waiting /\ start p = pos /\ (start_time p <= tick)%Z.
Proof.
  induction ps as [|q ps IH]; intros j0 j p H; simpl in H; [done|].
  destruct (bool_decide (status q = Waiting) && bool_decide (start q = pos)
            && (start_time q <=? tick)%Z) eqn:E.
  - inversion H; subst. exists 0.
    apply andb_true_iff in E as [E E3]. apply andb_true_iff in E as [E1 E2].
    apply bool_decide_eq_true in E1, E2. apply Z.leb_le in E3.
    split; [lia|]. by repeat split.
  - destruct (IH _ _ _ H) as (k & -> & Hk & Hrest). exists (S k). split; [lia|done].
Qed.

Lemma package_action_cases i pa r env res env' :
  package_action i pa r env = (res, env') ->
  (env' = env /\ (res = Ok r \/ res = Raise IndexError)) \/
  (exists robot j p,
     pa = "1" /\ robots env !! i = Some robot /\ carrying robot = 0 /\
     packages env !! j = Some p /\ status p = Waiting /\
     start p = position robot /\ (start_time p <= t env)%Z /\
     res = Ok r /\ env' = picked_up env i robot j p) \/
  (exists robot pkg,
     pa = "2" /\ robots env !! i = Some robot /\ carrying robot <> 0 /\
     packages env !! (carrying robot - 1) = Some pkg /\
     position robot = target pkg /\
     res = Ok (if (t env <=? deadline pkg)%Z
               then r_add r (delivery_reward env)
               else r_add r (delay_reward env)) /\
     env' = dropped env i robot pkg).
Proof.
  unfold package_action. unfold_M. intros H.
  destruct (robots env !! i) as [robot|] eqn:Hr; [|inversion H; auto].
  destruct (decide (pa = "1")) as [->|Hn1].
  { destruct (carrying robot =? 0) eqn:Hc; [|inversion H; auto].
    apply Nat.eqb_eq in Hc.
    destruct (pickup_scan (position robot) (t env) 0 (packages env)) as [[j p]|] eqn:Hs;
      [|inversion H; auto].
    apply pickup_scan_spec in Hs as (k & -> & Hk & Hst & Hpos & Htime).
    inversion H; subst. right. left. exists robot, k, p. by repeat split. }
  destruct (decide (pa = "2")) as [->|Hn2]; [|inversion H; auto].
  destruct (carrying robot =? 0) eqn:Hc; simpl in H; [inversion H; auto|].
  apply Nat.eqb_neq in Hc.
  destruct (packages env !! (carrying robot - 1)) as [pkg|] eqn:Hp; [|inversion H; auto].
  destruct (bool_decide (position robot = target pkg)) eqn:Ht; [|inversion H; auto].
  apply bool_decide_eq_true in Ht. inversion H; subst.
  right. right. exists robot, pkg. by repeat split.
Qed.

End PackagePhase.

(** ** Package lists along an episode *)

Lemma advances_lookup ps ps' :
  advances ps ps' <->
  length ps = length ps' /\
  forall j p p', ps !! j = Some p -> ps' !! j = Some p' ->
    p' = set_status p (status p') /\ status_rank (status p) <= status_rank (status p').
Proof. unfold advances. apply Forall2_same_length_lookup. Qed.

Lemma set_status_same p : p = set_status p (status p).
Proof. by destruct p. Qed.

Lemma advances_refl ps : advances ps ps.
Proof.
  apply advances_lookup. split; [done|]. intros j p p' H1 H2.
  assert (p' = p) as -> by congruence. split; [apply set_status_same|done].
Qed.

Lemma advances_trans ps1 ps2 ps3 :
  advances ps1 ps2 -> advances ps2 ps3 -> advances ps1 ps3.
Proof.
  rewrite !advances_lookup. intros [L1 H1] [L2 H2]. split; [congruence|].
  intros j p p3 Hp Hp3.
  destruct (lookup_lt_is_Some_2 ps2 j) as [p2 Hp2].
  { rewrite <- L1. by apply lookup_lt_Some in Hp. }
  destruct (H1 _ _ _ Hp Hp2) as [E1 R1]. destruct (H2 _ _ _ Hp2 Hp3) as [E2 R2].
  split; [|lia]. rewrite E2, E1. by destruct p.
Qed.

Lemma advances_insert ps j p s :
  ps !! j = Some p -> status_rank (status p) <= status_rank s ->
  advances ps (<[j := set_status p s]> ps).
Proof.
  intros Hp Hr. apply advances_lookup. rewrite length_insert. split; [done|].
  intros k q q' Hq Hq'. apply list_lookup_insert_Some in Hq' as [(-> & <- & _)|[Hne Hq']].
  - assert (q = p) as -> by congruence. by split.
  - assert (q' = q) as -> by congruence. split; [apply set_status_same|done].
Qed.

Section Episode.
Context {R : Type} {RO : RewardOps R}.
Implicit Types (env : Environment (R := R)) (actions : list action) (r : R).

Lemma frame_refl env : frame env env.
Proof. by split. Qed.

Lemma frame_trans env1 env2 env3 : frame env1 env2 -> frame env2 env3 -> frame env1 env3.
Proof. intros [] []. split; congruence. Qed.

Lemma Good_transfer env env' :
  Good env -> packages env' = packages env -> t env' = t env ->
  carrying <$> robots env' = carrying <$> robots env ->
  Good env'.
Proof.
  intros [Hid Hca Hun] Hp Ht Hc. split; rewrite ?Hp, ?Ht; auto.
  intros i robot Hr Hne.
  assert (H : (carrying <$> robots env) !! i = Some (carrying robot)).
  { rewrite <- Hc, list_lookup_fmap, Hr. done. }
  rewrite list_lookup_fmap in H. destruct (robots env !! i) as [rb|] eqn:Hrb; [|done].
  assert (E : carrying rb = carrying robot) by (simpl in H; congruence).
  rewrite <- E in Hne |- *. eauto.
Qed.

Lemma update_positions_frame actions fp :
  forall idx r env res env',
  update_positions actions fp idx r env = (res, env') ->
  frame env env' /\ packages env' = packages env /\
  carrying <$> robots env' = carrying <$> robots env.
Proof.
  induction idx as [|i idx IH]; intros r env res env' H.
  - simpl in H. unfold_M. inversion H; subst. split; [apply frame_refl|done].
  - rewrite update_positions_cons in H.
    destruct (robots env !! i) as [robot|] eqn:Hr;
      [|inversion H; subst; split; [apply frame_refl|done]].
    destruct (actions !! i) as [[move pa]|];
      [|inversion H; subst; split; [apply frame_refl|done]].
    destruct (fp !! i) as [[fin|]|];
      [|inversion H; subst; split; [apply frame_refl|done]..].
    apply IH in H as (Hf & Hp & Hc). simpl in *. split; [|split; [done|]].
    + destruct Hf. split; simpl in *; try done. by rewrite length_insert in *.
    + rewrite Hc, list_fmap_insert. simpl. apply list_insert_id.
      by rewrite list_lookup_fmap, Hr.
Qed.

Lemma package_action_good i pa r env res env' :
  Good env -> package_action i pa r env = (res, env') ->
  Good env' /\ advances (packages env) (packages env') /\ frame env env' /\
  position <$> robots env' = position <$> robots env.
Proof.
  intros HG H. pose proof HG as [Hid Hca Hun].
  apply package_action_cases in H
    as [[-> _]|[(robot & j & p & -> & Hr & Hc & Hp & Hst & Hpos & Htime & -> & ->)
               |(robot & pkg & -> & Hr & Hc & Hp & Hpos & -> & ->)]].
  - split; [done|]. split; [apply advances_refl|]. split; [apply frame_refl|done].
  - unfold picked_up. simpl. split; [|split; [|split]].
    + split; simpl.
      * intros k q Hq. apply list_lookup_insert_Some in Hq as [(-> & <- & _)|[_ Hq]]; simpl; eauto.
      * intros k rb Hrb Hne.
        apply list_lookup_insert_Some in Hrb as [(-> & <- & _)|[_ Hrb]]; simpl in *.
        -- rewrite (Hid _ _ Hp). simpl. rewrite Nat.sub_0_r.
           exists (set_status p InTransit). split; [|simpl; lia].
           apply list_lookup_insert_eq. by apply lookup_lt_Some in Hp.
        -- destruct (Hca k rb Hrb Hne) as (q & Hq & Hrank).
           destruct (decide (j = carrying rb - 1)) as [->|Hj].
           ++ exists (set_status p InTransit). split; [|simpl; lia].
              apply list_lookup_insert_eq. by apply lookup_lt_Some in Hp.
           ++ exists q. split; [|done]. by rewrite list_lookup_insert_ne.
      * intros k q Hq Hlt.
        apply list_lookup_insert_Some in Hq as [(-> & <- & _)|[_ Hq]]; simpl in *; [lia|eauto].
    + apply advances_insert; [done|]. rewrite Hst. simpl. lia.
    + split; simpl; try done. by rewrite length_insert.
    + rewrite list_fmap_insert. simpl. apply list_insert_id.
      by rewrite list_lookup_fmap, Hr.
  - unfold dropped. simpl.
    destruct (Hca i robot Hr Hc) as (q & Hq & Hrank).
    assert (q = pkg) as -> by congruence.
    split; [|split; [|split]].
    + split; simpl.
      * intros k q Hq'. apply list_lookup_insert_Some in Hq' as [(<- & <- & _)|[_ Hq']]; simpl; eauto.
      * intros k rb Hrb Hne.
        apply list_lookup_insert_Some in Hrb as [(-> & <- & _)|[_ Hrb]]; simpl in *; [done|].
        destruct (Hca k rb Hrb Hne) as (q & Hq' & Hrank').
        destruct (decide (carrying robot - 1 = carrying rb - 1)) as [E|Hj].
        -- exists (set_status pkg Delivered). split; [|simpl; lia].
           rewrite <- E. apply list_lookup_insert_eq. by apply lookup_lt_Some in Hp.
        -- exists q. split; [|done]. by rewrite list_lookup_insert_ne.
      * intros k q Hq' Hlt.
        apply list_lookup_insert_Some in Hq' as [(E & <- & _)|[_ Hq']]; simpl in *; [|eauto].
        rewrite (Hun _ _ Hp Hlt) in Hrank. simpl in Hrank. lia.
    + apply advances_insert; [done|]. destruct (status pkg); simpl; lia.
    + split; simpl; try done. by rewrite length_insert.
    + rewrite list_fmap_insert. simpl. apply list_insert_id.
      by rewrite list_lookup_fmap, Hr.
Qed.

Lemma package_actions_good actions :
  forall idx r env res env',
  Good env -> package_actions actions idx r env = (res, env') ->
  Good env' /\ advances (packages env) (packages env') /\ frame env env' /\
  position <$> robots env' = position <$> robots env.
Proof.
  induction idx as [|i idx IH]; intros r env res env' HG H; simpl in H.
  - unfold_M. inversion H; subst.
    split; [done|]. split; [apply advances_refl|]. split; [apply frame_refl|done].
  - destruct (actions !! i) as [[move pa]|].
    2:{ unfold_M. inversion H; subst.
        split; [done|]. split; [apply advances_refl|]. split; [apply frame_refl|done]. }
    unfold bind in H.
    destruct (package_action i pa r env) as [[r1|e] env1] eqn:Hpa.
    + apply (package_action_good _ _ _ _ _ _ HG) in Hpa as (HG1 & Ha1 & Hf1 & Hp1).
      apply (IH _ _ _ _ HG1) in H as (HG2 & Ha2 & Hf2 & Hp2).
      split; [done|]. split; [by eapply advances_trans|].
      split; [by eapply frame_trans|congruence].
    + inversion H; subst.
      by apply (package_action_good _ _ _ _ _ _ HG) in Hpa.
Qed.

End Episode.

(** ** get_state and the end of step *)

Section Snapshots.
Context {R : Type} {RO : RewardOps R}.
Implicit Types (env : Environment (R := R)) (actions : list action) (r : R).

Lemma select_packages_snd tick ps :
  (select_packages tick ps).2 = reveal tick <$> ps.
Proof.
  induction ps as [|p ps IH]; [done|]. simpl.
  destruct (select_packages tick ps) as [sel ps'] eqn:E. simpl in IH. subst ps'.
  destruct (start_time p =? tick)%Z eqn:Ht; simpl; f_equal; unfold reveal; by rewrite Ht.
Qed.

Lemma select_packages_fst tick ps :
  package_view <$> (select_packages tick ps).1
  = package_view <$> filter (fun p => start_time p = tick) ps.
Proof.
  induction ps as [|p ps IH]; [done|]. simpl.
  destruct (select_packages tick ps) as [sel ps'] eqn:E. simpl in IH.
  destruct (start_time p =? tick)%Z eqn:Ht.
  - apply Z.eqb_eq in Ht. rewrite filter_cons_True by done.
    rewrite !fmap_cons. simpl. by rewrite <- IH.
  - apply Z.eqb_neq in Ht. rewrite filter_cons_False by done. done.
Qed.

Lemma get_state_spec env :
  get_state env =
  (Ok {| snap_time_step := t env; snap_map := grid env;
         snap_robots := robot_view <$> robots env;
         snap_packages := package_view <$> (select_packages (t env) (packages env)).1 |},
   set_packages env (reveal (t env) <$> packages env)).
Proof.
  unfold get_state. unfold_M. rewrite <- select_packages_snd.
  by destruct (select_packages (t env) (packages env)).
Qed.

Lemma filter_reveal tick (ps : list Package) :
  package_view <$> filter (fun p => start_time p = tick) (reveal tick <$> ps)
  = package_view <$> filter (fun p => start_time p = tick) ps.
Proof.
  induction ps as [|p ps IH]; [done|]. rewrite fmap_cons.
  assert (E : start_time (reveal tick p) = start_time p).
  { unfold reveal. by destruct (start_time p =? tick)%Z. }
  assert (V : package_view (reveal tick p) = package_view p).
  { unfold reveal. by destruct (start_time p =? tick)%Z. }
  destruct (decide (start_time p = tick)) as [Ht|Ht].
  - rewrite !filter_cons_True by congruence. rewrite !fmap_cons. by rewrite IH, V.
  - rewrite !filter_cons_False by congruence. done.
Qed.

Lemma all_delivered_spec ps :
  all_delivered ps = true <-> forall p, elem_of p ps -> status p = Delivered.
Proof.
  induction ps as [|p ps IH]; simpl.
  - split; [|done]. intros _ p Hp. by apply elem_of_nil in Hp.
  - destruct (bool_decide (status p = Delivered)) eqn:E.
    + apply bool_decide_eq_true in E. rewrite IH. split.
      * intros H q Hq. apply elem_of_cons in Hq as [->|Hq]; auto.
      * intros H q Hq. apply H. by right.
    + apply bool_decide_eq_false in E. split; [done|].
      intros H. exfalso. apply E, H. by left.
Qed.

(** [step], phase by phase. *)
Lemma step_unfold actions env :
  step actions env =
  if negb (length actions =? length (robots env)) then (Raise ValueError, env)
  else
    match propose env actions with
    | Raise e => (Raise e, env)
    | Ok pr =>
      match resolve (robots env) pr with
      | Raise e => (Raise e, env)
      | Ok fp =>
        match update_positions actions fp (seq 0 (length (robots env))) r_zero env with
        | (Raise e, env1) => (Raise e, env1)
        | (Ok r1, env1) =>
          match package_actions actions (seq 0 (length (robots env))) r1 env1 with
          | (Raise e, env2) => (Raise e, env2)
          | (Ok r, env2) =>
            (Ok ({| snap_time_step := t (ticked env2 r);
                    snap_map := grid (ticked env2 r);
                    snap_robots := robot_view <$> robots (ticked env2 r);
                    snap_packages :=
                      package_view <$>
                        (select_packages (t (ticked env2 r)) (packages (ticked env2 r))).1 |},
                 r, check_terminate (ticked env2 r),
                 infos_of (ticked env2 r) (check_terminate (ticked env2 r))),
             set_packages (ticked env2 r)
               (reveal (t (ticked env2 r)) <$> packages (ticked env2 r)))
          end
        end
      end
    end.
Proof.
  unfold step. unfold_M.
  destruct (negb (length actions =? length (robots env))); [done|].
  destruct (propose env actions) as [pr|]; [|done].
  destruct (resolve (robots env) pr) as [fp|]; [|done].
  destruct (update_positions actions fp (seq 0 (length (robots env))) r_zero env)
    as [[r1|] env1]; [|done].
  destruct (package_actions actions (seq 0 (length (robots env))) r1 env1)
    as [[r2|] env2]; [|done].
  change (set_total_reward (set_t env2 (t env2 + 1)%Z)
            (r_add (total_reward (set_t env2 (t env2 + 1)%Z)) r2))
    with (ticked env2 r2).
  by rewrite get_state_spec.
Qed.

(** A successful step, phase by phase. *)
Lemma step_ok_inv actions env snap r done infos env' :
  step actions env = (Ok (snap, r, done, infos), env') ->
  exists pr fp r1 env1 env2,
    length actions = length (robots env) /\
    propose env actions = Ok pr /\
    resolve (robots env) pr = Ok fp /\
    update_positions actions fp (seq 0 (length (robots env))) r_zero env = (Ok r1, env1) /\
    package_actions actions (seq 0 (length (robots env))) r1 env1 = (Ok r, env2) /\
    done = check_terminate (ticked env2 r) /\
    infos = infos_of (ticked env2 r) done /\
    get_state (ticked env2 r) = (Ok snap, env').
Proof.
  rewrite step_unfold. intros H.
  destruct (length actions =? length (robots env)) eqn:Hlen; simpl in H; [|done].
  apply Nat.eqb_eq in Hlen.
  destruct (propose env actions) as [pr|] eqn:Hpr; [|done].
  destruct (resolve (robots env) pr) as [fp|] eqn:Hres; [|done].
  destruct (update_positions actions fp (seq 0 (length (robots env))) r_zero env)
    as [[r1|] env1] eqn:Hup; [|done].
  destruct (package_actions actions (seq 0 (length (robots env))) r1 env1)
    as [[r2|] env2] eqn:Hpk; [|done].
  inversion H; subst. exists pr, fp, r1, env1, env2.
  rewrite get_state_spec. by repeat split.
Qed.

End Snapshots.

(** ** Episodes: step keeps the environment good *)

Section Lifecycle.
Context {R : Type} {RO : RewardOps R}.
Implicit Types (env : Environment (R := R)) (actions : list action) (r : R).

Lemma reveal_good env r :
  Good env ->
  Good (set_packages (ticked env r) (reveal (t env + 1) <$> packages env)) /\
  advances (packages env) (reveal (t env + 1) <$> packages env).
Proof.
  intros [Hid Hca Hun]. split.
  - split; simpl.
    + intros j p Hp. rewrite list_lookup_fmap in Hp.
      destruct (packages env !! j) as [q|] eqn:Hq; [|done].
      simpl in Hp. inversion Hp; subst. unfold reveal.
      destruct (start_time q =? t env + 1)%Z; simpl; eauto.
    + intros i robot Hr Hne. destruct (Hca i robot Hr Hne) as (p & Hp & Hrank).
      exists p. split; [|done]. rewrite list_lookup_fmap, Hp. simpl. f_equal.
      unfold reveal. destruct (start_time p =? t env + 1)%Z eqn:E; [|done].
      apply Z.eqb_eq in E. rewrite (Hun _ _ Hp) in Hrank by lia. simpl in Hrank. lia.
    + intros j p Hp Hlt. rewrite list_lookup_fmap in Hp.
      destruct (packages env !! j) as [q|] eqn:Hq; [|done].
      simpl in Hp. inversion Hp; subst. clear Hp. unfold reveal in *.
      destruct (start_time q =? t env + 1)%Z eqn:E.
      * apply Z.eqb_eq in E. simpl in Hlt. lia.
      * apply (Hun _ _ Hq). lia.
  - apply advances_lookup. rewrite length_fmap. split; [done|].
    intros j p p' Hp Hp'. rewrite list_lookup_fmap, Hp in Hp'. simpl in Hp'.
    inversion Hp'; subst. unfold reveal.
    destruct (start_time p =? t env + 1)%Z eqn:E.
    + apply Z.eqb_eq in E. split; [done|]. rewrite (Hun _ _ Hp) by lia. simpl. lia.
    + split; [apply set_status_same|done].
Qed.

(** Every call of [step], whatever it returns, leaves a good environment
    good, and no status behind where it was. *)
Lemma step_good actions env res env' :
  Good env -> step actions env = (res, env') ->
  Good env' /\ advances (packages env) (packages env').
Proof.
  intros HG. rewrite step_unfold. intros H.
  destruct (negb (length actions =? length (robots env))).
  { inversion H; subst. split; [done|apply advances_refl]. }
  destruct (propose env actions) as [pr|].
  2:{ inversion H; subst. split; [done|apply advances_refl]. }
  destruct (resolve (robots env) pr) as [fp|].
  2:{ inversion H; subst. split; [done|apply advances_refl]. }
  destruct (update_positions actions fp (seq 0 (length (robots env))) r_zero env)
    as [res1 env1] eqn:Hup.
  apply update_positions_frame in Hup as (Hf1 & Hp1 & Hc1).
  assert (HG1 : Good env1) by (apply (Good_transfer env); auto; apply Hf1).
  destruct res1 as [r1|e].
  2:{ inversion H; subst. split; [done|]. rewrite Hp1. apply advances_refl. }
  destruct (package_actions actions (seq 0 (length (robots env))) r1 env1)
    as [res2 env2] eqn:Hpk.
  apply (package_actions_good _ _ _ _ _ _ HG1) in Hpk as (HG2 & Ha2 & Hf2 & Hpos2).
  rewrite Hp1 in Ha2.
  destruct res2 as [r2|e]; inversion H; subst; [|done].
  destruct (reveal_good env2 r2 HG2) as [HG3 Ha3]. simpl.
  split; [done|]. by eapply advances_trans.
Qed.

Lemma calls_good env env' :
  Good env -> calls env env' -> Good env' /\ advances (packages env) (packages env').
Proof.
  intros HG Hc. induction Hc as [env|env actions res env1 env2 Hs Hc IH].
  - split; [done|apply advances_refl].
  - destruct (step_good _ _ _ _ HG Hs) as [HG1 Ha1].
    destruct (IH HG1) as [HG2 Ha2]. split; [done|]. by eapply advances_trans.
Qed.

End Lifecycle.

(** ** reset *)

Section ResetFacts.
Context {R : Type} {RO : RewardOps R}.
Implicit Types (env : Environment (R := R)).

Lemma bind_inv {A B} (m : M A) (k : A -> M B) env res env' :
  bind m k env = (res, env') ->
  (exists a env1, m env = (Ok a, env1) /\ k a env1 = (res, env')) \/
  (exists e, m env = (Raise e, env') /\ res = Raise e).
Proof.
  unfold bind. destruct (m env) as [[a|e] env1]; intros H.
  - left. eauto.
  - right. inversion H; subst. eauto.
Qed.

Lemma bind_get {B} (k : Environment -> M B) env : bind get k env = k env env.
Proof. reflexivity. Qed.

Lemma draws_only_refl env : draws_only env env.
Proof. unfold draws_only. by destruct env. Qed.

Lemma draws_only_trans env1 env2 env3 :
  draws_only env1 env2 -> draws_only env2 env3 -> draws_only env1 env3.
Proof. unfold draws_only. intros -> ->. done. Qed.

Lemma randint_spec lo hi env res env' :
  randint lo hi env = (res, env') ->
  draws_only env env' /\ forall x, res = Ok x -> (lo <= x < hi)%Z.
Proof.
  unfold randint. destruct (hi <=? lo)%Z eqn:E.
  - intros H. inversion H; subst. split; [apply draws_only_refl|done].
  - apply Z.leb_gt in E. destruct (rng env) as [|x tape] eqn:Ht; intros H; inversion H; subst.
    + split; [apply draws_only_refl|done].
    + split; [done|]. intros y Hy. inversion Hy; subst.
      pose proof (Z.mod_pos_bound x (hi - lo)). lia.
Qed.

Lemma get_random_free_cell_p_draws env res env' :
  get_random_free_cell_p env = (res, env') -> draws_only env env'.
Proof.
  unfold get_random_free_cell_p. unfold_M.
  destruct (free_cells env (grid env)) as [cells|]; intros H.
  2:{ inversion H; subst. apply draws_only_refl. }
  destruct (randint 0 (Z.of_nat (length cells)) env) as [[i|] env1] eqn:Hr.
  - apply randint_spec in Hr as [Hd _].
    destruct (cells !! Z.to_nat i); inversion H; subst; done.
  - apply randint_spec in Hr as [Hd _]. inversion H; subst. done.
Qed.

Lemma draw_target_draws start fuel :
  forall env res env', draw_target start fuel env = (res, env') -> draws_only env env'.
Proof.
  induction fuel as [|fuel IH]; intros env res env' H; simpl in H.
  - unfold_M. inversion H; subst. apply draws_only_refl.
  - apply bind_inv in H as [(c & env1 & H1 & H2)|(e & H1 & _)];
      apply get_random_free_cell_p_draws in H1; [|done].
    destruct (bool_decide (start <> c)).
    + unfold ret in H2. inversion H2; subst. done.
    + apply IH in H2. by eapply draws_only_trans.
Qed.

Lemma randint_draw lo hi env res env' :
  randint lo hi env = (res, env') ->
  (forall e, res = Raise e -> e <> OutOfFuel) /\
  (forall x, res = Ok x -> length (rng env) = S (length (rng env'))).
Proof.
  unfold randint. destruct (hi <=? lo)%Z.
  - intros H. inversion H; subst. split; [by intros e [= <-]|done].
  - destruct (rng env) as [|x tape] eqn:Ht; intros H; inversion H; subst.
    + split; [by intros e [= <-]|done].
    + split; [done|]. intros y _. reflexivity.
Qed.

Lemma free_in_row_exn g i js e : free_in_row g i js = Raise e -> e = IndexError.
Proof.
  induction js as [|j js IH]; simpl; [done|]. unfold grid_at.
  destruct (g !! Z.to_nat (Z.of_nat i)) as [row|]; [|by intros [= <-]].
  destruct (row !! Z.to_nat (Z.of_nat j)); [|by intros [= <-]].
  destruct (free_in_row g i js); [done|]. intros [= <-]. by apply IH.
Qed.

Lemma free_in_rows_exn g is_ js e : free_in_rows g is_ js = Raise e -> e = IndexError.
Proof.
  induction is_ as [|i is_ IH]; simpl; [done|].
  destruct (free_in_row g i js) eqn:Er; [|intros [= <-]; by apply free_in_row_exn in Er].
  destruct (free_in_rows g is_ js); [done|]. intros [= <-]. by apply IH.
Qed.

Lemma get_random_free_cell_p_draw env res env' :
  get_random_free_cell_p env = (res, env') ->
  (forall e, res = Raise e -> e <> OutOfFuel) /\
  (forall c, res = Ok c -> length (rng env) = S (length (rng env'))).
Proof.
  unfold get_random_free_cell_p. rewrite bind_get. cbv beta. intros H.
  apply bind_inv in H as [(cells & env1 & H1 & H)|(e & H1 & ->)]; unfold lift in H1.
  2:{ split; [|done]. intros e' [= <-].
      destruct (free_cells env (grid env)) as [|e'] eqn:E; [done|].
      apply free_in_rows_exn in E. by inversion H1; subst. }
  inversion H1; subst.
  apply bind_inv in H as [(i & env2 & Hr & H)|(e & Hr & ->)];
    apply randint_draw in Hr as [Hnf Hlen].
  - specialize (Hlen i eq_refl).
    destruct (cells !! Z.to_nat i); unfold ret, raise in H; inversion H; subst.
    + split; [done|]. by intros c _.
    + split; [by intros e [= <-]|done].
  - split; [|done]. intros e' [= <-]. by apply Hnf.
Qed.

(** The bound of [draw_target] is never what stops it when it exceeds the
    number of draws left. *)
Lemma draw_target_fuel start fuel :
  forall env res env',
  length (rng env) < fuel ->
  draw_target start fuel env = (res, env') -> res <> Raise OutOfFuel.
Proof.
  induction fuel as [|fuel IH]; intros env res env' Hlt H; [lia|]. simpl in H.
  apply bind_inv in H as [(c & env1 & H1 & H2)|(e & H1 & ->)];
    apply get_random_free_cell_p_draw in H1 as [Hnf Hlen].
  - specialize (Hlen c eq_refl).
    destruct (bool_decide (start <> c)).
    + unfold ret in H2. by inversion H2; subst.
    + apply (IH env1 res env'); [lia|done].
  - intros [= ->]. by apply (Hnf OutOfFuel).
Qed.

Lemma generate_package_spec i env res env' :
  generate_package i env = (res, env') ->
  draws_only env env' /\
  forall tup, res = Ok tup -> spawn_rule env i tup.1.1.1.
Proof.
  unfold generate_package. rewrite bind_get. cbv beta zeta. intros H.
  apply bind_inv in H as [(st & env2 & H1 & H)|(e & H1 & ->)];
    apply get_random_free_cell_p_draws in H1; [|by split].
  rewrite bind_get in H. cbv beta in H.
  apply bind_inv in H as [(tg & env3 & H2 & H)|(e & H2 & ->)];
    apply draw_target_draws in H2;
    [|split; [by eapply draws_only_trans|done]].
  apply bind_inv in H as [(x & env4 & H3 & H)|(e & H3 & ->)];
    apply randint_spec in H3 as [H3 _];
    [|split; [eauto using draws_only_trans|done]].
  assert (Hd : draws_only env env4) by eauto using draws_only_trans.
  assert (Hn : n_robots env2 = n_robots env) by (by rewrite H1).
  assert (Hm : max_time_steps env2 = max_time_steps env) by (by rewrite H1).
  rewrite Hn, Hm in H.
  destruct (i <=? Nat.min (n_robots env) 20) eqn:Hi.
  - unfold bind, ret in H. inversion H; subst. split; [done|].
    intros tup Ht. inversion Ht; subst.
    simpl. apply Nat.leb_le in Hi. split; [done|lia].
  - apply Nat.leb_gt in Hi.
    apply bind_inv in H as [(st' & env5 & H4 & H)|(e & H4 & ->)].
    + apply randint_spec in H4 as [H4 Hrange].
      unfold ret in H. inversion H; subst. split; [eauto using draws_only_trans|].
      intros tup Ht. inversion Ht; subst. simpl. split; [lia|].
      intros _. specialize (Hrange st' eq_refl). lia.
    + apply randint_spec in H4 as [H4 _]. split; [eauto using draws_only_trans|done].
Qed.

Lemma generate_packages_spec env0 :
  forall idx acc env res env',
  draws_only env0 env ->
  generate_packages idx acc env = (res, env') ->
  draws_only env0 env' /\
  forall l, res = Ok l ->
    length l = length acc + length idx /\
    (forall k, k < length acc -> l !! k = acc !! k) /\
    (forall k i, idx !! k = Some i ->
       exists tup, l !! (length acc + k) = Some tup /\ spawn_rule env0 i tup.1.1.1).
Proof.
  induction idx as [|i idx IH]; intros acc env res env' Hd0 H; simpl in H.
  - unfold_M. inversion H; subst. split; [done|]. intros l Hl. inversion Hl; subst.
    split; [simpl; lia|]. split; [done|]. intros k i Hk. by rewrite lookup_nil in Hk.
  - apply bind_inv in H as [(tup & env1 & H1 & H)|(e & H1 & ->)];
      apply generate_package_spec in H1 as [Hd1 Hrule];
      [|split; [eauto using draws_only_trans|done]].
    specialize (Hrule tup eq_refl).
    assert (Hd01 : draws_only env0 env1) by eauto using draws_only_trans.
    apply (IH _ _ _ _ Hd01) in H as [Hd2 Hl]. split; [done|].
    intros l Hres. destruct (Hl l Hres) as (Hlen & Hkeep & Hnew).
    rewrite length_app in Hlen, Hkeep, Hnew. simpl in *.
    split; [lia|]. split.
    + intros k Hk. rewrite Hkeep by lia. by rewrite lookup_app_l.
    + intros [|k] j Hk; simpl in Hk.
      * inversion Hk; subst. exists tup. rewrite Nat.add_0_r.
        rewrite Hkeep by lia. rewrite lookup_app_r by lia. rewrite Nat.sub_diag.
        split; [done|]. unfold spawn_rule in *.
        replace (n_robots env0) with (n_robots env) by (by rewrite Hd0).
        replace (max_time_steps env0) with (max_time_steps env) by (by rewrite Hd0).
        done.
      * destruct (Hnew k j Hk) as (tup' & Ht & Hr). exists tup'. split; [|done].
        by replace (length acc + S k) with (length acc + 1 + k) by lia.
Qed.

Lemma get_random_free_cell_draws g env res env' :
  get_random_free_cell g env = (res, env') -> draws_only env env'.
Proof.
  unfold get_random_free_cell. rewrite bind_get. cbv beta. intros H.
  apply bind_inv in H as [(cells & env1 & H1 & H)|(e & H1 & _)];
    unfold lift in H1; inversion H1; subst; [|apply draws_only_refl].
  apply bind_inv in H as [(i & env2 & Hri & H)|(e & Hri & _)];
    apply randint_spec in Hri as [Hri _]; [|done].
  destruct (cells !! Z.to_nat i) as [c|]; [|unfold raise in H; by inversion H; subst].
  destruct (g !! Z.to_nat c.1); unfold raise, ret in H; by inversion H; subst.
Qed.

Lemma add_robot_spec pos env res env' :
  add_robot pos env = (res, env') ->
  packages env' = packages env /\ t env' = t env /\ (idle env -> idle env') /\
  n_robots env' = n_robots env /\ max_time_steps env' = max_time_steps env.
Proof.
  unfold add_robot. rewrite bind_get. cbv beta. intros H.
  apply bind_inv in H as [(free & env1 & H1 & H)|(e & H1 & _)];
    unfold lift in H1; inversion H1; subst; [|done].
  destruct free; unfold modify, raise in H; inversion H; subst; [|done].
  simpl. split; [done|]. split; [done|]. split; [|done]. unfold idle. simpl. intros Hi.
  apply Forall_app. split; [done|]. by constructor.
Qed.

Lemma place_robots_spec n :
  forall g env res env',
  place_robots n g env = (res, env') ->
  packages env' = packages env /\ t env' = t env /\ (idle env -> idle env') /\
  n_robots env' = n_robots env /\ max_time_steps env' = max_time_steps env.
Proof.
  induction n as [|n IH]; intros g env res env' H; simpl in H.
  - unfold ret in H. by inversion H; subst.
  - apply bind_inv in H as [([pos g'] & env1 & H1 & H)|(e & H1 & _)];
      apply get_random_free_cell_draws in H1.
    2:{ rewrite H1. done. }
    assert (E1 : packages env1 = packages env /\ t env1 = t env /\ (idle env -> idle env1)
                 /\ n_robots env1 = n_robots env /\ max_time_steps env1 = max_time_steps env).
    { rewrite H1. done. }
    destruct E1 as (Ep1 & Et1 & Ei1 & En1 & Em1).
    apply bind_inv in H as [(u & env2 & H2 & H)|(e & H2 & _)];
      apply add_robot_spec in H2 as (Ep2 & Et2 & Ei2 & En2 & Em2).
    + apply IH in H as (Ep3 & Et3 & Ei3 & En3 & Em3).
      split; [congruence|]. split; [congruence|]. split; [auto|]. split; congruence.
    + split; [congruence|]. split; [congruence|]. split; [auto|]. split; congruence.
Qed.

Lemma make_packages_lookup l :
  forall i j p, make_packages i l !! j = Some p ->
  package_id p = i + j + 1 /\ status p = StNone.
Proof.
  induction l as [|[[[st s] tg] dl] l IH]; intros i j p H; simpl in H; [done|].
  destruct j as [|j]; simpl in H.
  - inversion H; subst. simpl. split; [lia|done].
  - apply IH in H as [H1 H2]. split; [lia|done].
Qed.

(** A successful [reset], phase by phase. *)
Lemma reset_ok_inv env snap env' :
  reset env = (Ok snap, env') ->
  exists env1 env2 l,
    place_robots (n_robots env) (grid env) (cleared env) = (Ok tt, env1) /\
    generate_packages (seq 0 (n_packages env)) [] env1 = (Ok l, env2) /\
    get_state (set_packages env2 (packages env2 ++ make_packages 0 (sort_by_time l)))
      = (Ok snap, env').
Proof.
  unfold reset. intros H.
  change (bind (modify (fun env => set_t env 0%Z)) ?k env) with (k tt (set_t env 0%Z)) in H.
  cbv beta in H.
  change (bind (modify (fun env => set_robots env [])) ?k ?e) with (k tt (set_robots e [])) in H.
  cbv beta in H.
  change (bind (modify (fun env => set_packages env [])) ?k ?e)
    with (k tt (set_packages e [])) in H.
  cbv beta in H.
  change (bind (modify (fun env => set_total_reward env r_zero)) ?k ?e)
    with (k tt (set_total_reward e r_zero)) in H.
  cbv beta in H. rewrite bind_get in H. cbv beta in H.
  change (set_total_reward (set_packages (set_robots (set_t env 0%Z) []) []) r_zero)
    with (cleared env) in H.
  change (n_robots (cleared env)) with (n_robots env) in H.
  change (grid (cleared env)) with (grid env) in H.
  change (n_packages (cleared env)) with (n_packages env) in H.
  apply bind_inv in H as [([] & env1 & H1 & H)|(e & H1 & ?)]; [|done].
  apply bind_inv in H as [(l & env2 & H2 & H)|(e & H2 & ?)]; [|done].
  exists env1, env2, l. split; [done|]. split; [done|]. exact H.
Qed.

Lemma reset_good env snap env' :
  reset env = (Ok snap, env') -> Good env' /\ t env' = 0%Z.
Proof.
  intros H. apply reset_ok_inv in H as (env1 & env2 & l & H1 & H2 & H3).
  apply place_robots_spec in H1 as (Hp1 & Ht1 & Hi1 & _ & _).
  apply (generate_packages_spec env1) in H2 as [Hd _]; [|apply draws_only_refl].
  rewrite get_state_spec in H3. inversion H3; subst. simpl.
  assert (Hp2 : packages env2 = []) by (by rewrite Hd).
  assert (Ht2 : t env2 = 0%Z) by (by rewrite Hd).
  assert (Hi2 : idle env2).
  { unfold idle. rewrite Hd. simpl. apply Hi1. by constructor. }
  rewrite Ht2, Hp2. simpl. split; [|done]. split; simpl.
  - intros j p Hp. rewrite list_lookup_fmap in Hp.
    destruct (make_packages 0 (sort_by_time l) !! j) as [q|] eqn:Hq; [|done].
    apply make_packages_lookup in Hq as [Hq _]. simpl in Hp. inversion Hp; subst.
    unfold reveal. destruct (start_time q =? 0)%Z; simpl; lia.
  - intros i robot Hr Hne. exfalso. apply Hne.
    unfold idle in Hi2. rewrite Forall_lookup in Hi2. by apply (Hi2 i).
  - intros j p Hp Hlt. rewrite list_lookup_fmap in Hp.
    destruct (make_packages 0 (sort_by_time l) !! j) as [q|] eqn:Hq; [|done].
    apply make_packages_lookup in Hq as [_ Hq]. simpl in Hp. inversion Hp; subst.
    unfold reveal in *. destruct (start_time q =? 0)%Z eqn:E; [|done].
    apply Z.eqb_eq in E. simpl in Hlt. lia.
Qed.

End ResetFacts.

(** ** Positions after a step *)

Section Positions.
Context {R : Type} {RO : RewardOps R}.
Implicit Types (env : Environment (R := R)) (actions : list action) (r : R).

Lemma package_action_positions i pa r env res env' :
  package_action i pa r env = (res, env') ->
  position <$> robots env' = position <$> robots env.
Proof.
  intros H.
  apply package_action_cases in H
    as [[-> _]|[(robot & j & p & -> & Hr & Hc & Hp & Hst & Hpos & Htime & -> & ->)
               |(robot & pkg & -> & Hr & Hc & Hp & Hpos & -> & ->)]]; [done| |].
  - simpl. rewrite list_fmap_insert. simpl. apply list_insert_id.
    by rewrite list_lookup_fmap, Hr.
  - simpl. rewrite list_fmap_insert. simpl. apply list_insert_id.
    by rewrite list_lookup_fmap, Hr.
Qed.

Lemma package_actions_positions actions :
  forall idx r env res env',
  package_actions actions idx r env = (res, env') ->
  position <$> robots env' = position <$> robots env.
Proof.
  induction idx as [|i idx IH]; intros r env res env' H; simpl in H.
  - unfold ret in H. by inversion H; subst.
  - destruct (actions !! i) as [[move pa]|]; [|unfold raise in H; by inversion H; subst].
    unfold bind in H. destruct (package_action i pa r env) as [[r1|e] env1] eqn:Hpa;
      apply package_action_positions in Hpa.
    + apply IH in H. congruence.
    + inversion H; subst. done.
Qed.

Lemma package_action_frame i pa r env res env' :
  package_action i pa r env = (res, env') -> frame env env'.
Proof.
  intros H.
  apply package_action_cases in H
    as [[-> _]|[(robot & j & p & -> & Hr & Hc & Hp & Hst & Hpos & Htime & -> & ->)
               |(robot & pkg & -> & Hr & Hc & Hp & Hpos & -> & ->)]].
  - apply frame_refl.
  - split; simpl; try done. by rewrite length_insert.
  - split; simpl; try done. by rewrite length_insert.
Qed.

Lemma package_actions_frame actions :
  forall idx r env res env',
  package_actions actions idx r env = (res, env') -> frame env env'.
Proof.
  induction idx as [|i idx IH]; intros r env res env' H; simpl in H.
  - unfold ret in H. inversion H; subst. apply frame_refl.
  - destruct (actions !! i) as [[move pa]|];
      [|unfold raise in H; inversion H; subst; apply frame_refl].
    unfold bind in H. destruct (package_action i pa r env) as [[r1|e] env1] eqn:Hpa;
      apply package_action_frame in Hpa.
    + apply IH in H. by eapply frame_trans.
    + inversion H; subst. done.
Qed.

(** The robots of a successful step stand on the cells the resolution
    computed. *)
Lemma step_positions actions env out env' :
  NoDup (position <$> robots env) ->
  step actions env = (Ok out, env') ->
  exists pr fp,
    propose env actions = Ok pr /\ resolve (robots env) pr = Ok fp /\
    length (robots env') = length (robots env) /\
    forall i c, fp !! i = Some (Some c) <-> position <$> robots env' !! i = Some c.
Proof.
  intros Hnd H. destruct out as [[[snap r] done] infos].
  apply step_ok_inv in H as (pr & fp & r1 & env1 & env2 & Hlen & Hpr & Hres & Hup & Hpk & _ & _ & Hgs).
  exists pr, fp. split; [done|]. split; [done|].
  destruct (resolve_spec (robots env) pr (propose_old_pos _ _ _ Hnd Hpr) (fun _ => True))
    as (st & fp' & Hres' & _ & Hlfp & Hall & _); auto.
  assert (fp' = fp) as -> by congruence.
  destruct (update_positions_spec actions fp (seq 0 (length (robots env))) r_zero env)
    as (rs' & Hup' & Hlrs & Hin & _).
  { apply NoDup_seq. }
  { intros i Hi. apply elem_of_seq in Hi. split; [lia|]. split.
    - apply lookup_lt_is_Some_2. lia.
    - destruct (Hall i) as [[_ Hc]|[_ [Hc|Hc]]]; [lia|eauto..]. }
  rewrite Hup in Hup'. inversion Hup'; subst env1. clear Hup'.
  apply package_actions_positions in Hpk. simpl in Hpk.
  rewrite get_state_spec in Hgs. inversion Hgs; subst. simpl.
  assert (Hl2 : length (robots env2) = length (robots env)).
  { rewrite <- Hlrs. rewrite <- (length_fmap position), Hpk. by rewrite length_fmap. }
  split; [done|]. intros i c.
  rewrite <- list_lookup_fmap, Hpk, list_lookup_fmap.
  destruct (decide (i < length (robots env))) as [Hi|Hi].
  - destruct (Hin i) as (robot & c' & Hr & Hc' & Hrs'); [apply elem_of_seq; lia|].
    rewrite Hc', Hrs'. simpl. split; congruence.
  - rewrite (lookup_ge_None_2 fp) by lia. rewrite (lookup_ge_None_2 rs') by lia. done.
Qed.

End Positions.

(** ** step returns *)

Section Totality.
Context {R : Type} {RO : RewardOps R}.
Implicit Types (env : Environment (R := R)) (actions : list action) (r : R).

Lemma valid_position_total env pos :
  grid_ok env -> exists v, valid_position env pos = Ok v.
Proof.
  intros Hg. destruct pos as [r c]. unfold valid_position.
  destruct (out_of_bounds env r c) eqn:Hb; [eauto|].
  unfold out_of_bounds in Hb. repeat (apply orb_false_iff in Hb as [Hb ?]).
  apply Z.ltb_ge in Hb. unfold n_rows in *.
  assert (Hr : Z.to_nat r < length (grid env)) by lia.
  destruct (lookup_lt_is_Some_2 _ _ Hr) as [row Hrow].
  unfold grid_at. rewrite Hrow.
  unfold grid_ok in Hg. rewrite Forall_lookup in Hg. specialize (Hg _ _ Hrow).
  assert (Hc : Z.to_nat c < length row) by lia.
  destruct (lookup_lt_is_Some_2 _ _ Hc) as [v Hv]. rewrite Hv.
  destruct (v =? 1)%Z; eauto.
Qed.

Lemma propose_loop_total env actions rs :
  grid_ok env ->
  forall k acc,
  (forall j, j < length rs -> is_Some (actions !! (k + j))) ->
  exists pr, propose_loop env actions k rs acc = Ok pr.
Proof.
  intros Hg. induction rs as [|robot rest IH]; intros k acc Hact; simpl; [eauto|].
  destruct (Hact 0) as [[move pa] Ha]; [simpl; lia|].
  rewrite Nat.add_0_r in Ha. rewrite Ha.
  destruct (valid_position_total env (compute_new_position (position robot) move) Hg)
    as [v Hv].
  rewrite Hv. apply IH. intros j Hj.
  replace (S k + j) with (k + S j) by lia. apply Hact. simpl. lia.
Qed.

Lemma package_action_total i pa r env :
  Good env -> i < length (robots env) ->
  exists r' env', package_action i pa r env = (Ok r', env').
Proof.
  intros HG Hi. destruct (lookup_lt_is_Some_2 _ _ Hi) as [robot Hr].
  unfold package_action. unfold_M. rewrite Hr.
  destruct (decide (pa = "1")).
  { destruct (carrying robot =? 0); [|eauto].
    destruct (pickup_scan (position robot) (t env) 0 (packages env)) as [[j p]|]; eauto. }
  destruct (decide (pa = "2")); [|eauto].
  destruct (carrying robot =? 0) eqn:Hc; simpl; [eauto|].
  apply Nat.eqb_neq in Hc.
  destruct (good_carry env HG i robot Hr Hc) as (p & Hp & _). rewrite Hp.
  destruct (bool_decide (position robot = target p)); eauto.
Qed.

Lemma package_actions_total actions :
  forall idx r env,
  Good env ->
  (forall i, elem_of i idx -> i < length (robots env) /\ is_Some (actions !! i)) ->
  exists r' env', package_actions actions idx r env = (Ok r', env').
Proof.
  induction idx as [|i idx IH]; intros r env HG Hidx; simpl.
  - unfold ret. eauto.
  - destruct (Hidx i) as [Hi [[move pa] Ha]]; [by left|]. rewrite Ha.
    destruct (package_action_total i pa r env HG Hi) as (r1 & env1 & H1).
    unfold bind. rewrite H1.
    destruct (package_action_good _ _ _ _ _ _ HG H1) as (HG1 & _ & Hf & _).
    apply IH; [done|]. intros j Hj. rewrite (frame_len _ _ Hf). apply Hidx. by right.
Qed.

(** In a good environment with a sound grid, a [step] call with one action
    per robot returns. *)
Lemma step_total env actions :
  Good env -> grid_ok env ->
  length actions = length (robots env) ->
  exists out env', step actions env = (Ok out, env').
Proof.
  intros HG Hg Hlen. rewrite step_unfold.
  rewrite Hlen, Nat.eqb_refl. simpl.
  destruct (propose_loop_total env actions (robots env) Hg 0 empty_proposal) as [pr Hpr].
  { intros j Hj. apply lookup_lt_is_Some_2. simpl. lia. }
  fold (propose env actions) in Hpr. rewrite Hpr.
  destruct (resolve_returns (robots env) pr) as (fp & Hres & Hlfp & Hall).
  rewrite Hres.
  destruct (update_positions_spec actions fp (seq 0 (length (robots env))) r_zero env)
    as (rs' & Hup & Hlrs & _ & _).
  { apply NoDup_seq. }
  { intros i Hi. apply elem_of_seq in Hi. split; [lia|]. split.
    - apply lookup_lt_is_Some_2. lia.
    - apply Hall. lia. }
  pose proof Hup as Hup'. rewrite Hup.
  apply update_positions_frame in Hup' as (Hf1 & Hp1 & Hc1).
  assert (HG1 : Good (set_robots env rs')) by (apply (Good_transfer env); auto; apply Hf1).
  destruct (package_actions_total actions (seq 0 (length (robots env)))
              (Nat.iter (count_charged actions fp (robots env) (seq 0 (length (robots env))))
                        (fun x => r_add x (move_cost env)) r_zero)
              (set_robots env rs') HG1) as (r2 & env2 & Hpk).
  { intros i Hi. apply elem_of_seq in Hi. simpl. split; [lia|].
    apply lookup_lt_is_Some_2. lia. }
  rewrite Hpk. eauto.
Qed.

End Totality.

(** ** Action vectors with the same effect *)

Section SameEffect.
Context {R : Type} {RO : RewardOps R}.
Implicit Types (env : Environment (R := R)) (actions : list action) (r : R).

Lemma same_effect_lookup actions actions' i :
  Forall2 same_effect actions actions' ->
  (actions !! i = None /\ actions' !! i = None) \/
  (exists a a', actions !! i = Some a /\ actions' !! i = Some a' /\ same_effect a a').
Proof.
  intros HF. rewrite Forall2_lookup in HF. specialize (HF i).
  inversion HF; [right|left]; eauto.
Qed.

Lemma propose_loop_ext env actions actions' rs :
  Forall2 same_effect actions actions' ->
  forall k acc, propose_loop env actions k rs acc = propose_loop env actions' k rs acc.
Proof.
  intros HF. induction rs as [|robot rest IH]; intros k acc; simpl; [done|].
  destruct (same_effect_lookup _ _ k HF)
    as [[-> ->]|([m1 p1] & [m2 p2] & -> & -> & _ & _ & Hc)]; [done|].
  simpl in Hc. rewrite Hc.
  destruct (valid_position env (compute_new_position (position robot) m2)); [|done].
  apply IH.
Qed.

Lemma update_positions_ext actions actions' fp :
  Forall2 same_effect actions actions' ->
  forall idx r env,
  update_positions actions fp idx r env = update_positions actions' fp idx r env.
Proof.
  intros HF. induction idx as [|i idx IH]; intros r env; [done|].
  rewrite !update_positions_cons.
  destruct (robots env !! i) as [robot|]; [|done].
  destruct (same_effect_lookup _ _ i HF)
    as [[-> ->]|([m1 p1] & [m2 p2] & -> & -> & _ & Hl & _)]; [done|].
  simpl in Hl. rewrite Hl. destruct (fp !! i) as [[fin|]|]; [|done..]. apply IH.
Qed.

Lemma package_actions_ext actions actions' :
  Forall2 same_effect actions actions' ->
  forall idx r env,
  package_actions actions idx r env = package_actions actions' idx r env.
Proof.
  intros HF. induction idx as [|i idx IH]; intros r env; simpl; [done|].
  destruct (same_effect_lookup _ _ i HF)
    as [[-> ->]|([m1 p1] & [m2 p2] & -> & -> & Hp & _ & _)]; [done|].
  simpl in Hp. subst p2. unfold bind.
  destruct (package_action i p1 r env) as [[r1|e] env1]; [|done]. apply IH.
Qed.

Lemma step_ext actions actions' env :
  Forall2 same_effect actions actions' ->
  step actions env = step actions' env.
Proof.
  intros HF. rewrite !step_unfold. rewrite <- (Forall2_length _ _ _ HF).
  destruct (negb (length actions =? length (robots env))); [done|].
  unfold propose. rewrite <- (propose_loop_ext env actions actions' _ HF).
  destruct (propose_loop env actions 0 (robots env) empty_proposal) as [pr|]; [|done].
  destruct (resolve (robots env) pr) as [fp|]; [|done].
  rewrite <- (update_positions_ext actions actions' fp HF).
  destruct (update_positions actions fp (seq 0 (length (robots env))) r_zero env)
    as [[r1|e] env1]; [|done].
  rewrite <- (package_actions_ext actions actions' HF). done.
Qed.

End SameEffect.

(** * The claims *)

Section Claims.
Context {R : Type} {RO : RewardOps R}.
Implicit Types (env : Environment (R := R)) (actions : list action) (r : R).

(** C9. A [step] call whose action vector does not have one entry per robot
    raises [ValueError] at once, and the environment it leaves is the one it
    was given: tick, total reward, robots and packages are untouched. *)
Theorem step_length_mismatch env actions :
  length actions <> length (robots env) ->
  step actions env = (Raise ValueError, env).
Proof.
  intros Hne. rewrite step_unfold.
  apply Nat.eqb_neq in Hne. by rewrite Hne.
Qed.

(** The drop branch of [package_action], for a robot that carries a package
    and stands on the target of it. *)
Lemma package_action_drop env i robot pkg r :
  robots env !! i = Some robot ->
  carrying robot <> 0 ->
  packages env !! (carrying robot - 1) = Some pkg ->
  position robot = target pkg ->
  exists r' env',
    package_action i "2" r env = (Ok r', env') /\
    ((t env <= deadline pkg)%Z -> r' = r_add r (delivery_reward env)) /\
    ((deadline pkg < t env)%Z -> r' = r_add r (delay_reward env)) /\
    packages env' !! (carrying robot - 1) = Some (set_status pkg Delivered) /\
    robots env' !! i = Some (set_carrying robot 0).
Proof.
  intros Hr Hc Hp Hpos.
  exists (if (t env <=? deadline pkg)%Z
          then r_add r (delivery_reward env) else r_add r (delay_reward env)),
         (dropped env i robot pkg).
  split; [|split; [|split; [|split]]].
  - unfold package_action. unfold_M. rewrite Hr.
    destruct (decide ("2" = "1")) as [E|_]; [discriminate E|].
    destruct (decide ("2" = "2")) as [_|E]; [|done].
    apply Nat.eqb_neq in Hc. rewrite Hc. simpl. rewrite Hp.
    rewrite bool_decide_eq_true_2 by done. done.
  - intros Hle. apply Z.leb_le in Hle. by rewrite Hle.
  - intros Hlt. apply Z.leb_gt in Hlt. by rewrite Hlt.
  - simpl. apply list_lookup_insert_eq. by apply lookup_lt_Some in Hp.
  - simpl. apply list_lookup_insert_eq. by apply lookup_lt_Some in Hr.
Qed.

(** C8. The snapshot taken at tick [k] lists the packages whose spawn time is
    [k] and no other: a package of the environment shows in it exactly when
    its [start_time] is the tick.  It lists every robot.  The snapshot a
    successful [step] returns is the one of the tick the step ends at. *)
Theorem progressive_reveal env :
  exists snap env',
    get_state env = (Ok snap, env') /\
    t env' = t env /\ robots env' = robots env /\
    snap_time_step snap = t env /\
    snap_packages snap
      = package_view <$> filter (fun p => start_time p = t env) (packages env) /\
    (forall p, elem_of p (packages env) ->
       (elem_of (package_view p) (snap_packages snap) <-> start_time p = t env)) /\
    snap_robots snap = robot_view <$> robots env /\
    (forall actions s r done infos env1,
       step actions env = (Ok (s, r, done, infos), env1) ->
       snap_time_step s = t env1 /\ t env1 = (t env + 1)%Z /\
       snap_robots s = robot_view <$> robots env1 /\
       snap_packages s
         = package_view <$> filter (fun p => start_time p = t env1) (packages env1)).
Proof.
  eexists _, _. split; [apply get_state_spec|]. simpl.
  split; [done|]. split; [done|]. split; [done|].
  split; [apply select_packages_fst|]. split; [|split; [done|]].
  - intros p Hp. rewrite select_packages_fst. split.
    + intros Hin. apply list_elem_of_fmap in Hin as (q & Hv & Hq).
      apply list_elem_of_filter in Hq as [Hq _].
      unfold package_view in Hv. congruence.
    + intros Ht. apply list_elem_of_fmap. exists p. split; [done|].
      by apply list_elem_of_filter.
  - intros actions s r done infos env1 H.
    apply step_ok_inv in H as (pr & fp & r1 & e1 & e2 & _ & _ & _ & Hup & Hpk & _ & _ & Hgs).
    apply update_positions_frame in Hup as (Hf1 & _).
    assert (Ht2 : t e2 = t env).
    { apply package_actions_frame in Hpk. destruct Hpk, Hf1. congruence. }
    rewrite get_state_spec in Hgs. inversion Hgs; subst. simpl.
    split; [done|]. split; [lia|]. split; [done|].
    rewrite select_packages_fst. symmetry. apply filter_reveal.
Qed.

(** C1. When the robots stand on pairwise distinct cells, the movement
    resolution of [step] returns a cell for every robot and no cell twice,
    the robots the scan loop left undecided included; after a successful
    step no two robots share a cell. *)
Theorem no_double_occupancy env actions :
  NoDup (position <$> robots env) ->
  (forall pr, propose env actions = Ok pr ->
     exists fp,
       resolve (robots env) pr = Ok fp /\
       length fp = length (robots env) /\
       (forall i, i < length (robots env) -> exists c, fp !! i = Some (Some c)) /\
       (forall i j c, fp !! i = Some (Some c) -> fp !! j = Some (Some c) -> i = j)) /\
  (forall out env', step actions env = (Ok out, env') ->
     NoDup (position <$> robots env')).
Proof.
  intros Hnd.
  assert (Hres : forall pr, propose env actions = Ok pr ->
     exists fp,
       resolve (robots env) pr = Ok fp /\
       length fp = length (robots env) /\
       (forall i, i < length (robots env) -> exists c, fp !! i = Some (Some c)) /\
       (forall i j c, fp !! i = Some (Some c) -> fp !! j = Some (Some c) -> i = j)).
  { intros pr Hpr.
    destruct (resolve_spec (robots env) pr (propose_old_pos _ _ _ Hnd Hpr) (fun _ => True))
      as (st & fp & Hres & _ & Hlfp & Hall & Hdist); auto.
    exists fp. split; [done|]. split; [done|]. split; [|done].
    intros i Hi. destruct (Hall i Hi) as [[_ Hc]|[_ [Hc|Hc]]]; eauto. }
  split; [done|]. intros out env' Hstep.
  destruct (step_positions _ _ _ _ Hnd Hstep) as (pr & fp & Hpr & Hfp & _ & Hpos).
  destruct (Hres pr Hpr) as (fp' & Hfp' & _ & _ & Hdist).
  assert (fp' = fp) as -> by congruence.
  apply NoDup_alt. intros i j c Hi Hj.
  rewrite list_lookup_fmap in Hi, Hj. apply Hpos in Hi, Hj. eauto.
Qed.

(** C2. Robots on pairwise distinct cells, robot [a] proposing the cell of
    robot [b] and robot [b] proposing the cell of robot [a]: the resolution
    leaves both where they are, and so does the step. *)
Theorem no_swap env actions pr a b ra rb :
  NoDup (position <$> robots env) ->
  propose env actions = Ok pr ->
  robots env !! a = Some ra ->
  robots env !! b = Some rb ->
  proposed_positions pr !! a = Some (position rb) ->
  proposed_positions pr !! b = Some (position ra) ->
  (exists fp, resolve (robots env) pr = Ok fp /\
              fp !! a = Some (Some (position ra)) /\
              fp !! b = Some (Some (position rb))) /\
  (forall out env', step actions env = (Ok out, env') ->
     position <$> robots env' !! a = Some (position ra) /\
     position <$> robots env' !! b = Some (position rb)).
Proof.
  intros Hnd Hpr Ha Hb Hpa Hpb.
  pose proof (propose_old_pos _ _ _ Hnd Hpr) as Hold.
  assert (Hla : a < length (robots env)) by (by apply lookup_lt_Some in Ha).
  assert (Hlb : b < length (robots env)) by (by apply lookup_lt_Some in Hb).
  assert (Hra : robots env !!! a = ra) by (by apply list_lookup_total_correct).
  assert (Hrb : robots env !!! b = rb) by (by apply list_lookup_total_correct).
  assert (Hta : proposed_positions pr !!! a = position rb)
    by (by apply list_lookup_total_correct).
  assert (Htb : proposed_positions pr !!! b = position ra)
    by (by apply list_lookup_total_correct).
  assert (Hres : exists fp, resolve (robots env) pr = Ok fp /\
              fp !! a = Some (Some (position ra)) /\
              fp !! b = Some (Some (position rb))).
  { destruct (decide (a = b)) as [->|Hab].
    - assert (ra = rb) as -> by congruence.
      destruct (resolve_spec (robots env) pr Hold (fun _ => True))
        as (st & fp & Hres & _ & _ & Hall & _); auto.
      exists fp. split; [done|].
      destruct (Hall b Hlb) as [[_ Hc]|[_ [Hc|Hc]]]; rewrite ?Hrb, ?Hta in Hc; done.
    - assert (Hoa : old_pos pr !! position ra = Some a) by (apply Hold; by rewrite Ha).
      assert (Hob : old_pos pr !! position rb = Some b) by (apply Hold; by rewrite Hb).
      destruct (resolve_spec (robots env) pr Hold
                  (fun st => computed_moved st !!! a = 0 /\ computed_moved st !!! b = 0))
        as (st & fp & Hres & [Hca Hcb] & _ & Hall & _).
      + intros st i _ [Hca Hcb] Hi Hcan. unfold decision.
        rewrite computed_decide_robot.
        assert (Hia : i <> a).
        { intros ->. unfold can_decide in Hcan. rewrite Hta, Hob, Hca, Hcb in Hcan.
          apply Nat.eqb_neq in Hab. rewrite Nat.eqb_sym in Hab. by rewrite Hab in Hcan. }
        assert (Hib : i <> b).
        { intros ->. unfold can_decide in Hcan. rewrite Htb, Hoa, Hca, Hcb in Hcan.
          apply Nat.eqb_neq in Hab. by rewrite Hab in Hcan. }
        by rewrite !list_lookup_total_insert_ne.
      + simpl. by rewrite !lookup_total_replicate_2.
      + exists fp. split; [done|].
        destruct (Hall a Hla) as [[_ Hfa]|[Hna _]]; [|done].
        destruct (Hall b Hlb) as [[_ Hfb]|[Hnb _]]; [|done].
        by rewrite Hra in Hfa; rewrite Hrb in Hfb. }
  split; [done|]. intros out env' Hstep.
  destruct Hres as (fp & Hfp & Hfa & Hfb).
  destruct (step_positions _ _ _ _ Hnd Hstep) as (pr' & fp' & Hpr' & Hfp' & _ & Hpos).
  assert (pr' = pr) as -> by congruence. assert (fp' = fp) as -> by congruence.
  split; by apply Hpos.
Qed.

(** C3, as the code has it.  In [reset] the packages with generation index
    [i <= min(R, 20)] spawn at 0 (that is [min(R, 20) + 1] of them when there
    are that many), and every later one spawns at a tick drawn between 1 and
    [T - 1]; the package list is the generated list sorted by spawn time. *)
Theorem spawn_times env snap env' :
  reset env = (Ok snap, env') ->
  exists env1 env2 l,
    place_robots (n_robots env) (grid env) (cleared env) = (Ok tt, env1) /\
    generate_packages (seq 0 (n_packages env)) [] env1 = (Ok l, env2) /\
    length l = n_packages env /\
    (forall i tup, l !! i = Some tup ->
       (i <= Nat.min (n_robots env) 20 -> tup.1.1.1 = 0%Z) /\
       (Nat.min (n_robots env) 20 < i -> (1 <= tup.1.1.1 <= max_time_steps env - 1)%Z)) /\
    packages env' = reveal 0 <$> make_packages 0 (sort_by_time l).
Proof.
  intros H. apply reset_ok_inv in H as (env1 & env2 & l & H1 & H2 & H3).
  exists env1, env2, l. split; [done|]. split; [done|].
  pose proof H1 as H1'. apply place_robots_spec in H1' as (Hp1 & Ht1 & _ & Hn1 & Hm1).
  pose proof H2 as H2'.
  apply (generate_packages_spec env1) in H2' as [Hd Hl]; [|apply draws_only_refl].
  destruct (Hl l eq_refl) as (Hlen & _ & Hrule). simpl in *.
  rewrite length_seq in Hlen. split; [done|]. split.
  - intros i tup Hi.
    assert (Hseq : seq 0 (n_packages env) !! i = Some i).
    { apply lookup_lt_Some in Hi. rewrite Hlen in Hi. by apply lookup_seq_lt. }
    destruct (Hrule i i Hseq) as (tup' & Ht' & Hr). simpl in Ht'.
    assert (tup' = tup) as -> by congruence.
    unfold spawn_rule in Hr. by rewrite Hn1, Hm1 in Hr.
  - rewrite get_state_spec in H3. inversion H3; subst. simpl.
    assert (Hp2 : packages env2 = []) by (by rewrite Hd).
    assert (Ht2 : t env2 = 0%Z) by (by rewrite Hd).
    by rewrite Hp2, Ht2.
Qed.

(** The loop that moves the robots, on final positions [fp] that give every
    robot a cell. *)
Lemma update_positions_charges env actions fp r :
  length actions = length (robots env) ->
  (forall i, i < length (robots env) -> exists c, fp !! i = Some (Some c)) ->
  exists rs',
    update_positions actions fp (seq 0 (length (robots env))) r env
      = (Ok (Nat.iter (count_charged actions fp (robots env) (seq 0 (length (robots env))))
                      (fun x => r_add x (move_cost env)) r),
         set_robots env rs') /\
    (forall i robot move pa c,
       robots env !! i = Some robot -> actions !! i = Some (move, pa) ->
       fp !! i = Some (Some c) ->
       rs' !! i = Some (set_position robot c) /\
       (charged actions fp (robots env) i = true <->
        elem_of move ["L"; "R"; "U"; "D"] /\ c <> position robot)).
Proof.
  intros Hlen Hall.
  destruct (update_positions_spec actions fp (seq 0 (length (robots env))) r env)
    as (rs' & Hup & _ & Hin & _).
  { apply NoDup_seq. }
  { intros i Hi. apply elem_of_seq in Hi. split; [lia|]. split.
    - apply lookup_lt_is_Some_2. lia.
    - apply Hall. lia. }
  exists rs'. split; [done|]. intros i robot move pa c Hr Ha Hc. split.
  - destruct (Hin i) as (rb & c' & Hr' & Hc' & Hrs).
    { apply elem_of_seq. apply lookup_lt_Some in Hr. lia. }
    congruence.
  - unfold charged. rewrite Hr, Ha, Hc. unfold is_LRUD.
    rewrite andb_true_iff, bool_decide_eq_true, negb_true_iff, bool_decide_eq_false.
    done.
Qed.

(** C6. After a successful step from a good environment, [done] is true
    exactly when the tick, once advanced, equals [max_time_steps] or every
    package is delivered; [infos] holds the total reward and the tick when
    [done] is true and is empty otherwise. *)
Theorem termination_flag env actions snap r done infos env' :
  Good env ->
  step actions env = (Ok (snap, r, done, infos), env') ->
  t env' = (t env + 1)%Z /\
  total_reward env' = r_add (total_reward env) r /\
  (done = true <->
   t env' = max_time_steps env' \/
   forall p, elem_of p (packages env') -> status p = Delivered) /\
  infos = (if done
           then <["total_time_steps" := InfoSteps (t env')]>
                  (<["total_reward" := InfoReward (total_reward env')]> empty)
           else empty).
Proof.
  intros HG H.
  apply step_ok_inv in H
    as (pr & fp & r1 & env1 & env2 & _ & _ & _ & Hup & Hpk & Hdone & Hinfos & Hgs).
  apply update_positions_frame in Hup as (Hf1 & Hp1 & Hc1).
  assert (HG1 : Good env1) by (apply (Good_transfer env); auto; apply Hf1).
  apply (package_actions_good _ _ _ _ _ _ HG1) in Hpk as (HG2 & _ & Hf2 & _).
  pose proof (frame_trans _ _ _ Hf1 Hf2) as Hf.
  rewrite get_state_spec in Hgs. inversion Hgs; subst snap env'. clear Hgs. simpl.
  split; [by rewrite (frame_t _ _ Hf)|].
  split; [by rewrite (frame_total _ _ Hf)|].
  split; [|by rewrite Hinfos].
  rewrite Hdone. unfold check_terminate. simpl.
  destruct (t env2 + 1 =? max_time_steps env2)%Z eqn:Et.
  - apply Z.eqb_eq in Et. split; [by left|done].
  - apply Z.eqb_neq in Et. rewrite all_delivered_spec. split.
    + intros Hall. right. intros p Hp.
      apply list_elem_of_fmap in Hp as (q & -> & Hq).
      pose proof (Hall q Hq) as Hs. unfold reveal.
      destruct (start_time q =? t env2 + 1)%Z eqn:E; [|done].
      apply Z.eqb_eq in E. apply list_elem_of_lookup in Hq as [j Hj].
      rewrite (good_unrevealed env2 HG2 j q Hj) in Hs by lia. done.
    + intros [Hmax|Hall]; [done|]. intros q Hq.
      assert (Hr : status (reveal (t env2 + 1) q) = Delivered).
      { apply Hall. apply list_elem_of_fmap. eauto. }
      unfold reveal in Hr. by destruct (start_time q =? t env2 + 1)%Z.
Qed.

(** C7. From a [reset] on, across any number of [step] calls, whatever they
    return, the packages stay the same packages and no status moves back in
    the order None < waiting < in_transit < delivered; a delivered package
    stays delivered. *)
Theorem package_monotonic_lifecycle env0 snap env1 env2 env3 :
  reset env0 = (Ok snap, env1) ->
  calls env1 env2 ->
  calls env2 env3 ->
  length (packages env3) = length (packages env2) /\
  forall j p, packages env2 !! j = Some p ->
    exists p', packages env3 !! j = Some p' /\
      package_id p' = package_id p /\
      status_rank (status p) <= status_rank (status p') /\
      (status p = Delivered -> status p' = Delivered).
Proof.
  intros Hreset H12 H23.
  apply reset_good in Hreset as [HG1 _].
  destruct (calls_good _ _ HG1 H12) as [HG2 _].
  destruct (calls_good _ _ HG2 H23) as [_ Hadv].
  apply advances_lookup in Hadv as [Hlen Hadv]. split; [done|].
  intros j p Hp.
  destruct (lookup_lt_is_Some_2 (packages env3) j) as [p' Hp'].
  { rewrite <- Hlen. by apply lookup_lt_Some in Hp. }
  destruct (Hadv _ _ _ Hp Hp') as [E Hrank].
  exists p'. split; [done|]. split; [by rewrite E|]. split; [done|].
  intros Hd. rewrite Hd in Hrank. destruct (status p'); simpl in Hrank; by try lia.
Qed.

(** C10. A move symbol that is none of S, L, R, U, D is computed like S: the
    proposed cell is the cell the robot stands on, the robot is not charged
    [move_cost], and the whole [step] call returns what it returns with S in
    its place; in particular it returns, in a good environment with a sound
    grid and one action per robot. *)
Theorem unknown_move_is_stay env actions i m pa :
  ~ elem_of m ["S"; "L"; "R"; "U"; "D"] ->
  actions !! i = Some (m, pa) ->
  (forall pos, compute_new_position pos m = pos /\
               compute_new_position pos m = compute_new_position pos "S") /\
  (forall robot v, proposed_cell env robot m v = position robot) /\
  (forall fp rs, charged actions fp rs i = false) /\
  step actions env = step (<[i := ("S", pa)]> actions) env /\
  (Good env -> grid_ok env -> length actions = length (robots env) ->
   exists out env', step actions env = (Ok out, env')).
Proof.
  intros Hm Ha.
  assert (HS : m <> "S") by (intros ->; apply Hm; rewrite !elem_of_cons; tauto).
  assert (HL : m <> "L") by (intros ->; apply Hm; rewrite !elem_of_cons; tauto).
  assert (HR : m <> "R") by (intros ->; apply Hm; rewrite !elem_of_cons; tauto).
  assert (HU : m <> "U") by (intros ->; apply Hm; rewrite !elem_of_cons; tauto).
  assert (HD : m <> "D") by (intros ->; apply Hm; rewrite !elem_of_cons; tauto).
  assert (Hcnp : forall pos, compute_new_position pos m = pos).
  { intros [r0 c0]. unfold compute_new_position.
    repeat (destruct (decide _); [done|]). done. }
  assert (Hnl : is_LRUD m = false).
  { unfold is_LRUD. apply bool_decide_eq_false. intros Hin. apply Hm. by right. }
  split; [|split; [|split; [|split]]].
  - intros pos. split; [done|]. rewrite Hcnp. by destruct pos.
  - intros robot v. unfold proposed_cell. rewrite Hcnp. by destruct v.
  - intros fp rs. unfold charged. rewrite Ha.
    destruct (rs !! i); [|done]. destruct (fp !! i) as [[?|]|]; [|done..].
    by rewrite Hnl.
  - apply step_ext.
    rewrite <- (list_insert_id actions i (m, pa) Ha) at 1.
    apply Forall2_insert.
    + apply Forall2_same_length_lookup. split; [done|].
      intros j a a' H1 H2. assert (a' = a) as -> by congruence. by split.
    + split; [done|]. split; [simpl; by rewrite Hnl|]. simpl. intros pos.
      rewrite Hcnp. by destruct pos.
  - apply step_total.
Qed.

End Claims.

(** * The claims on the concrete scenarios *)

Lemma corridor_distinct : NoDup (position <$> robots corridor).
Proof. apply (bool_decide_unpack _). vm_compute. exact I. Qed.

Lemma corridor_good : Good corridor.
Proof.
  split; simpl.
  - intros j p H. by rewrite lookup_nil in H.
  - intros [|[|i]] robot H Hne; simpl in H; inversion H; subst; done.
  - intros j p H. by rewrite lookup_nil in H.
Qed.

Lemma corridor_grid_ok : grid_ok corridor.
Proof. unfold grid_ok. repeat constructor. Qed.

Lemma depot_reset_eq : reset depot = (Ok depot_snapshot, depot_reset).
Proof. vm_compute. reflexivity. Qed.

(** The two robots of the corridor ask for each other's cell: after the step
    they are still on distinct cells. *)
Lemma no_double_occupancy_witness :
  NoDup (position <$> robots corridor) /\
  NoDup (position <$> robots corridor_after).
Proof.
  split; [exact corridor_distinct|].
  apply (proj2 (no_double_occupancy corridor swap_actions corridor_distinct)
           corridor_output corridor_after).
  vm_compute. reflexivity.
Defined.

(** The two robots of the corridor ask for each other's cell and stay. *)
Lemma no_swap_witness :
  (exists fp, resolve (robots corridor) corridor_proposal = Ok fp /\
              fp !! 0 = Some (Some (0, 0)%Z) /\ fp !! 1 = Some (Some (0, 1)%Z)) /\
  (forall out env', step swap_actions corridor = (Ok out, env') ->
     position <$> robots env' !! 0 = Some (0, 0)%Z /\
     position <$> robots env' !! 1 = Some (0, 1)%Z).
Proof.
  apply (no_swap corridor swap_actions corridor_proposal 0 1
           {| position := (0, 0)%Z; carrying := 0 |}
           {| position := (0, 1)%Z; carrying := 0 |}).
  - exact corridor_distinct.
  - vm_compute. reflexivity.
  - reflexivity.
  - reflexivity.
  - reflexivity.
  - reflexivity.
Defined.

(** The depot, with one robot and three packages: the generated spawn times
    follow the rule of the code. *)
Lemma spawn_times_witness :
  exists env1 env2 l,
    place_robots (n_robots depot) (grid depot) (cleared depot) = (Ok tt, env1) /\
    generate_packages (seq 0 (n_packages depot)) [] env1 = (Ok l, env2) /\
    length l = n_packages depot /\
    (forall i tup, l !! i = Some tup ->
       (i <= Nat.min (n_robots depot) 20 -> tup.1.1.1 = 0%Z) /\
       (Nat.min (n_robots depot) 20 < i ->
        (1 <= tup.1.1.1 <= max_time_steps depot - 1)%Z)) /\
    packages depot_reset = reveal 0 <$> make_packages 0 (sort_by_time l).
Proof.
  apply (spawn_times depot depot_snapshot depot_reset).
  vm_compute. reflexivity.
Defined.

(** The spawn-time rule in the words of the specification fails on the depot
    (claim C3): with one robot, the package of generation index 1 is not among
    the first [min(1, 20)] and yet spawns at 0. *)
Lemma first_packages_rule_fails :
  place_robots (n_robots depot) (grid depot) (cleared depot) = (Ok tt, depot_placed) /\
  generate_packages (seq 0 (n_packages depot)) [] depot_placed
    = (Ok depot_generated, depot_drawn) /\
  ~ first_packages_rule depot depot_generated.
Proof.
  split; [vm_compute; reflexivity|]. split; [vm_compute; reflexivity|].
  intros H.
  destruct (H 1 (0, (0, 0), (0, 2), 15)%Z eq_refl) as [_ Hlate].
  simpl in Hlate. lia.
Qed.

(** The corridor has no package: its first step ends the episode. *)
Lemma termination_flag_witness :
  t corridor_after = (t corridor + 1)%Z /\
  total_reward corridor_after = r_add (total_reward corridor) corridor_output.1.1.2 /\
  (corridor_output.1.2 = true <->
   t corridor_after = max_time_steps corridor_after \/
   forall p, elem_of p (packages corridor_after) -> status p = Delivered) /\
  corridor_output.2
  = (if corridor_output.1.2
     then <["total_time_steps" := InfoSteps (t corridor_after)]>
            (<["total_reward" := InfoReward (total_reward corridor_after)]> empty)
     else empty).
Proof.
  apply (termination_flag corridor swap_actions corridor_output.1.1.1).
  - exact corridor_good.
  - vm_compute. reflexivity.
Defined.

(** The depot after its reset and two steps: the robot walks to package 1
    and picks it up. *)
Lemma package_monotonic_lifecycle_witness :
  length (packages depot_step2) = length (packages depot_step1) /\
  forall j p, packages depot_step1 !! j = Some p ->
    exists p', packages depot_step2 !! j = Some p' /\
      package_id p' = package_id p /\
      status_rank (status p) <= status_rank (status p') /\
      (status p = Delivered -> status p' = Delivered).
Proof.
  apply (package_monotonic_lifecycle depot depot_snapshot depot_reset).
  - vm_compute. reflexivity.
  - apply (calls_step depot_reset depot_actions
             (step depot_actions depot_reset).1 depot_step1 depot_step1).
    + vm_compute. reflexivity.
    + apply calls_nil.
  - apply (calls_step depot_step1 [("D", "1")]
             (step [("D", "1")] depot_step1).1 depot_step2 depot_step2).
    + vm_compute. reflexivity.
    + apply calls_nil.
Defined.

(** A step of the corridor with one action for two robots. *)
Lemma step_length_mismatch_witness :
  step [("S", "0")] corridor = (Raise ValueError, corridor).
Proof.
  apply (step_length_mismatch corridor [("S", "0")]).
  simpl. lia.
Defined.

(** The first robot of the corridor is sent the move X. *)
Lemma unknown_move_is_stay_witness :
  (forall pos, compute_new_position pos "X" = pos /\
               compute_new_position pos "X" = compute_new_position pos "S") /\
  (forall robot v, proposed_cell corridor robot "X" v = position robot) /\
  (forall fp rs, charged odd_actions fp rs 0 = false) /\
  step odd_actions corridor = step (<[0 := ("S", "0")]> odd_actions) corridor /\
  (Good corridor -> grid_ok corridor ->
   length odd_actions = length (robots corridor) ->
   exists out env', step odd_actions corridor = (Ok out, env')).
Proof.
  apply (unknown_move_is_stay corridor odd_actions 0 "X" "0").
  - intros H. apply (bool_decide_pack _) in H. vm_compute in H. exact H.
  - reflexivity.
Defined.

(** * Further properties of the engine *)

(** ** Cells of the grid *)

Section Cells.
Context {R : Type} {RO : RewardOps R}.
Implicit Types (env : Environment (R := R)).

Lemma grid_at_mark_eq g r c row :
  g !! Z.to_nat r = Some row -> Z.to_nat c < length row ->
  grid_at (<[Z.to_nat r := <[Z.to_nat c := 1%Z]> row]> g) r c = Ok 1%Z.
Proof.
  intros Hrow Hc. unfold grid_at.
  rewrite list_lookup_insert_eq by (by apply lookup_lt_Some in Hrow).
  by rewrite list_lookup_insert_eq.
Qed.

Lemma grid_at_mark_ne g r c row r' c' :
  (0 <= r)%Z -> (0 <= c)%Z -> (0 <= r')%Z -> (0 <= c')%Z ->
  (r', c') <> (r, c) ->
  g !! Z.to_nat r = Some row ->
  grid_at (<[Z.to_nat r := <[Z.to_nat c := 1%Z]> row]> g) r' c' = grid_at g r' c'.
Proof.
  intros Hr Hc Hr' Hc' Hne Hrow. unfold grid_at.
  destruct (decide (Z.to_nat r = Z.to_nat r')) as [E|E].
  - rewrite <- E. rewrite list_lookup_insert_eq by (by apply lookup_lt_Some in Hrow).
    rewrite Hrow. rewrite list_lookup_insert_ne; [done|].
    intros E'. apply Hne. f_equal; lia.
  - by rewrite list_lookup_insert_ne.
Qed.

Lemma free_in_row_elem g i js cs c :
  free_in_row g i js = Ok cs ->
  (elem_of c cs <->
   exists j, elem_of j js /\ c = (Z.of_nat i, Z.of_nat j) /\
             grid_at g (Z.of_nat i) (Z.of_nat j) = Ok 0%Z).
Proof.
  revert cs. induction js as [|j js IH]; intros cs H; simpl in H.
  - inversion H; subst. split.
    + intros Hc. by apply elem_of_nil in Hc.
    + intros (j & Hj & _). by apply elem_of_nil in Hj.
  - destruct (grid_at g (Z.of_nat i) (Z.of_nat j)) as [v|] eqn:Hv; [|done].
    destruct (free_in_row g i js) as [cs'|]; [|done]. inversion H; subst. clear H.
    specialize (IH cs' eq_refl). destruct (v =? 0)%Z eqn:E.
    + apply Z.eqb_eq in E. subst v. rewrite elem_of_cons, IH. split.
      * intros [->|(j' & Hj' & Hc & Hg)].
        -- exists j. split; [by left|done].
        -- exists j'. split; [by right|done].
      * intros (j' & Hj' & Hc & Hg). apply elem_of_cons in Hj' as [->|Hj'].
        -- by left.
        -- right. eauto.
    + apply Z.eqb_neq in E. rewrite IH. split.
      * intros (j' & Hj' & Hc & Hg). exists j'. split; [by right|done].
      * intros (j' & Hj' & Hc & Hg). apply elem_of_cons in Hj' as [->|Hj'].
        -- rewrite Hv in Hg. by inversion Hg.
        -- eauto.
Qed.

Lemma free_in_rows_elem g is_ js cs c :
  free_in_rows g is_ js = Ok cs ->
  (elem_of c cs <->
   exists i j, elem_of i is_ /\ elem_of j js /\ c = (Z.of_nat i, Z.of_nat j) /\
               grid_at g (Z.of_nat i) (Z.of_nat j) = Ok 0%Z).
Proof.
  revert cs. induction is_ as [|i is_ IH]; intros cs H; simpl in H.
  - inversion H; subst. split.
    + intros Hc. by apply elem_of_nil in Hc.
    + intros (i & j & Hi & _). by apply elem_of_nil in Hi.
  - destruct (free_in_row g i js) as [cs1|] eqn:H1; [|done].
    destruct (free_in_rows g is_ js) as [cs2|]; [|done]. inversion H; subst. clear H.
    rewrite elem_of_app, (free_in_row_elem _ _ _ _ c H1), (IH cs2 eq_refl). split.
    + intros [(j & Hj & Hc & Hg)|(i' & j & Hi' & Hj & Hc & Hg)].
      * exists i, j. split; [by left|done].
      * exists i', j. split; [by right|done].
    + intros (i' & j & Hi' & Hj & Hc & Hg). apply elem_of_cons in Hi' as [->|Hi'].
      * left. eauto.
      * right. eauto 10.
Qed.

(** The cells [free_cells] lists are the cells inside the bounds that hold 0. *)
Lemma free_cells_elem env g cs c :
  free_cells env g = Ok cs ->
  (elem_of c cs <->
   (0 <= c.1 < n_rows env)%Z /\ (0 <= c.2 < n_cols env)%Z /\
   grid_at g c.1 c.2 = Ok 0%Z).
Proof.
  intros H. unfold free_cells in H. rewrite (free_in_rows_elem _ _ _ _ c H). split.
  - intros (i & j & Hi & Hj & -> & Hg). apply elem_of_seq in Hi, Hj. simpl.
    split; [lia|]. split; [lia|done].
  - intros (Hr & Hc & Hg). exists (Z.to_nat c.1), (Z.to_nat c.2).
    rewrite !elem_of_seq, !Z2Nat.id by lia. split; [lia|]. split; [lia|].
    split; [by destruct c|done].
Qed.

Lemma is_free_cell_true env c :
  is_free_cell env c = Ok true <->
  (0 <= c.1 < n_rows env)%Z /\ (0 <= c.2 < n_cols env)%Z /\
  grid_at (grid env) c.1 c.2 = Ok 0%Z.
Proof.
  destruct c as [r c]. unfold is_free_cell, out_of_bounds. simpl.
  destruct (r <? 0)%Z eqn:E1; simpl.
  { apply Z.ltb_lt in E1. split; [done|lia]. }
  destruct (n_rows env <=? r)%Z eqn:E2; simpl.
  { apply Z.leb_le in E2. split; [done|lia]. }
  destruct (c <? 0)%Z eqn:E3; simpl.
  { apply Z.ltb_lt in E3. split; [done|lia]. }
  destruct (n_cols env <=? c)%Z eqn:E4; simpl.
  { apply Z.leb_le in E4. split; [done|lia]. }
  apply Z.ltb_ge in E1, E3. apply Z.leb_gt in E2, E4.
  destruct (grid_at (grid env) r c) as [v|e]; split.
  - intros [= E]. apply Z.eqb_eq in E. subst. split; [lia|]. split; [lia|done].
  - intros (_ & _ & [= ->]). done.
  - done.
  - intros (_ & _ & [=]).
Qed.

Lemma valid_position_true env c :
  valid_position env c = Ok true <->
  (0 <= c.1 < n_rows env)%Z /\ (0 <= c.2 < n_cols env)%Z /\
  exists v, grid_at (grid env) c.1 c.2 = Ok v /\ v <> 1%Z.
Proof.
  destruct c as [r c]. unfold valid_position, out_of_bounds. simpl.
  destruct (r <? 0)%Z eqn:E1; simpl.
  { apply Z.ltb_lt in E1. split; [done|lia]. }
  destruct (n_rows env <=? r)%Z eqn:E2; simpl.
  { apply Z.leb_le in E2. split; [done|lia]. }
  destruct (c <? 0)%Z eqn:E3; simpl.
  { apply Z.ltb_lt in E3. split; [done|lia]. }
  destruct (n_cols env <=? c)%Z eqn:E4; simpl.
  { apply Z.leb_le in E4. split; [done|lia]. }
  apply Z.ltb_ge in E1, E3. apply Z.leb_gt in E2, E4.
  destruct (grid_at (grid env) r c) as [v|e]; split.
  - destruct (v =? 1)%Z eqn:E; [done|]. apply Z.eqb_neq in E. intros _.
    split; [lia|]. split; [lia|eauto].
  - intros (_ & _ & w & [= <-] & Hw). apply Z.eqb_neq in Hw. by rewrite Hw.
  - done.
  - intros (_ & _ & w & [=] & _).
Qed.

End Cells.

(** ** reset: where the robots are placed *)

Section Placement.
Context {R : Type} {RO : RewardOps R}.
Implicit Types (env : Environment (R := R)).

Lemma get_random_free_cell_spec g env c g' env' :
  get_random_free_cell g env = (Ok (c, g'), env') ->
  draws_only env env' /\
  (0 <= c.1 < n_rows env)%Z /\ (0 <= c.2 < n_cols env)%Z /\
  grid_at g c.1 c.2 = Ok 0%Z /\
  grid_at g' c.1 c.2 = Ok 1%Z /\
  (forall r' c', (0 <= r')%Z -> (0 <= c')%Z -> (r', c') <> c ->
                 grid_at g' r' c' = grid_at g r' c').
Proof.
  intros H. pose proof (get_random_free_cell_draws _ _ _ _ H) as Hd.
  unfold get_random_free_cell in H. rewrite bind_get in H. cbv beta in H.
  apply bind_inv in H as [(cells & env1 & H1 & H)|(e & _ & [=])].
  unfold lift in H1. injection H1 as Hcells Henv. subst env1.
  apply bind_inv in H as [(i & env2 & Hr & H)|(e & _ & [=])].
  destruct (cells !! Z.to_nat i) as [c0|] eqn:Hc0; [|by inversion H].
  destruct (g !! Z.to_nat c0.1) as [row|] eqn:Hrow; [|by inversion H].
  unfold ret in H. injection H as -> <- <-.
  assert (Hin : elem_of c cells) by (apply list_elem_of_lookup; eauto).
  apply (free_cells_elem _ _ _ c Hcells) in Hin as (Hbr & Hbc & Hg).
  split; [done|]. split; [done|]. split; [done|]. split; [done|].
  assert (Hlen : Z.to_nat c.2 < length row).
  { unfold grid_at in Hg. rewrite Hrow in Hg.
    destruct (row !! Z.to_nat c.2) eqn:E; [|done]. by apply lookup_lt_Some in E. }
  split.
  - by apply grid_at_mark_eq.
  - intros r' c' Hr' Hc' Hne. destruct c as [r0 c0']. simpl in *.
    by apply grid_at_mark_ne; try lia.
Qed.

Lemma add_robot_ok pos env u env' :
  add_robot pos env = (Ok u, env') ->
  is_free_cell env pos = Ok true /\
  env' = set_robots env (robots env ++ [ {| position := pos; carrying := 0 |} ]).
Proof.
  unfold add_robot. rewrite bind_get. cbv beta. intros H.
  apply bind_inv in H as [(free & env1 & H1 & H)|(e & _ & [=])].
  unfold lift in H1. inversion H1; subst.
  destruct free; unfold modify, raise in H; by inversion H.
Qed.

Lemma is_free_cell_grid env env' c :
  grid env' = grid env -> is_free_cell env' c = is_free_cell env c.
Proof.
  intros E. destruct c as [r c]. unfold is_free_cell, out_of_bounds, n_rows, n_cols.
  by rewrite E.
Qed.

Lemma valid_position_grid env env' c :
  grid env' = grid env -> valid_position env' c = valid_position env c.
Proof.
  intros E. destruct c as [r c]. unfold valid_position, out_of_bounds, n_rows, n_cols.
  by rewrite E.
Qed.

(** The placement loop: the cells already taken are marked in the scratch
    grid, so every new robot lands on a cell of its own. *)
Lemma place_robots_distinct n :
  forall g env env',
  place_robots n g env = (Ok tt, env') ->
  (forall rb, elem_of rb (robots env) ->
     (0 <= (position rb).1)%Z /\ (0 <= (position rb).2)%Z /\
     grid_at g (position rb).1 (position rb).2 <> Ok 0%Z) ->
  NoDup (position <$> robots env) ->
  on_free_cells env ->
  grid env' = grid env /\
  NoDup (position <$> robots env') /\
  on_free_cells env' /\
  length (robots env') = length (robots env) + n.
Proof.
  induction n as [|n IH]; intros g env env' H Hmark Hnd Hfree; simpl in H.
  - unfold ret in H. inversion H; subst. split; [done|]. split; [done|].
    split; [done|lia].
  - apply bind_inv in H as [([pos g'] & env1 & H1 & H)|(e & _ & [=])].
    apply get_random_free_cell_spec in H1 as (Hd & Hbr & Hbc & Hg & Hg' & Hother).
    apply bind_inv in H as [(u & env2 & H2 & H)|(e & _ & [=])].
    apply add_robot_ok in H2 as [Hf ->].
    assert (Hr1 : robots env1 = robots env) by (by rewrite Hd).
    assert (Hg1 : grid env1 = grid env) by (by rewrite Hd).
    apply IH in H as (Hgrid & Hnd' & Hfree' & Hlen); simpl in *.
    + rewrite Hr1, length_app in Hlen. simpl in Hlen.
      split; [congruence|]. split; [done|]. split; [done|lia].
    + rewrite Hr1. intros rb Hrb. apply elem_of_app in Hrb as [Hrb|Hrb].
      * destruct (Hmark rb Hrb) as (Hp1 & Hp2 & Hne). split; [done|]. split; [done|].
        rewrite Hother; [done..|]. intros E. apply Hne.
        destruct (position rb) as [r0 c0]. simpl in *. by inversion E; subst.
      * apply list_elem_of_singleton in Hrb. subst rb. simpl.
        split; [lia|]. split; [lia|]. by rewrite Hg'.
    + rewrite Hr1, fmap_app. simpl. apply NoDup_app. split; [done|]. split.
      * intros c Hc Hc'. apply list_elem_of_singleton in Hc'. subst c.
        apply list_elem_of_fmap in Hc as (rb & Hpos & Hrb).
        destruct (Hmark rb Hrb) as (_ & _ & Hne). apply Hne. by rewrite <- Hpos.
      * apply NoDup_singleton.
    + unfold on_free_cells in *. simpl. rewrite Hr1. apply Forall_app. split.
      * eapply Forall_impl; [exact Hfree|]. intros rb Hrb. simpl in Hrb.
        rewrite <- Hrb. by apply is_free_cell_grid.
      * constructor; [|constructor]. simpl. rewrite <- Hf. by apply is_free_cell_grid.
Qed.

(** What a successful [reset] leaves of the robots. *)
Lemma reset_robots_spec env snap env' :
  reset env = (Ok snap, env') ->
  grid env' = grid env /\
  length (robots env') = n_robots env /\
  NoDup (position <$> robots env') /\
  on_free_cells env' /\ idle env'.
Proof.
  intros H. apply reset_ok_inv in H as (env1 & env2 & l & H1 & H2 & H3).
  pose proof H1 as H1'. apply place_robots_spec in H1' as (_ & _ & Hidle & _ & _).
  apply place_robots_distinct in H1 as (Hg1 & Hnd & Hfree & Hlen).
  2:{ intros rb Hrb. simpl in Hrb. by apply elem_of_nil in Hrb. }
  2:{ simpl. constructor. }
  2:{ unfold on_free_cells. simpl. constructor. }
  apply (generate_packages_spec env1) in H2 as [Hd _]; [|apply draws_only_refl].
  rewrite get_state_spec in H3. inversion H3; subst. simpl.
  assert (Hr2 : robots env2 = robots env1) by (by rewrite Hd).
  assert (Hg2 : grid env2 = grid env1) by (by rewrite Hd).
  rewrite Hr2. simpl in *. split; [congruence|]. split; [done|]. split; [done|].
  split.
  - unfold on_free_cells in *. simpl. rewrite Hr2.
    eapply Forall_impl; [exact Hfree|]. intros rb Hrb. simpl in Hrb.
    rewrite <- Hrb. apply is_free_cell_grid. simpl. done.
  - unfold idle in *. simpl. rewrite Hr2. apply Hidle. simpl. constructor.
Qed.

End Placement.

(** ** reset: the generated packages *)

Section Generation.
Context {R : Type} {RO : RewardOps R}.
Implicit Types (env : Environment (R := R)).

Lemma get_random_free_cell_p_free env c env' :
  get_random_free_cell_p env = (Ok c, env') ->
  draws_only env env' /\ is_free_cell env c = Ok true.
Proof.
  intros H. pose proof (get_random_free_cell_p_draws _ _ _ H) as Hd.
  split; [done|].
  unfold get_random_free_cell_p in H. rewrite bind_get in H. cbv beta in H.
  apply bind_inv in H as [(cells & env1 & H1 & H)|(e & _ & [=])].
  unfold lift in H1. injection H1 as Hcells Henv. subst env1.
  apply bind_inv in H as [(i & env2 & Hr & H)|(e & _ & [=])].
  destruct (cells !! Z.to_nat i) as [c0|] eqn:Hc0; [|by inversion H].
  unfold ret in H. injection H as -> <-.
  apply is_free_cell_true. apply (free_cells_elem _ _ _ c Hcells).
  apply list_elem_of_lookup. eauto.
Qed.

Lemma draw_target_spec start fuel :
  forall env tg env',
  draw_target start fuel env = (Ok tg, env') ->
  start <> tg /\ is_free_cell env tg = Ok true.
Proof.
  induction fuel as [|fuel IH]; intros env tg env' H; simpl in H; [by inversion H|].
  apply bind_inv in H as [(c & env1 & H1 & H)|(e & _ & [=])].
  apply get_random_free_cell_p_free in H1 as [Hd Hf].
  destruct (bool_decide (start <> c)) eqn:E.
  - apply bool_decide_eq_true in E. unfold ret in H. by injection H as -> <-.
  - apply IH in H as [Hne Hf']. split; [done|]. rewrite <- Hf'.
    symmetry. apply is_free_cell_grid. by rewrite Hd.
Qed.

Lemma n_rows_nonneg env : (0 <= n_rows env)%Z.
Proof. unfold n_rows. lia. Qed.

Lemma generate_package_ok i env tup env' :
  generate_package i env = (Ok tup, env') -> tuple_ok env tup.
Proof.
  unfold generate_package. rewrite bind_get. cbv beta zeta. intros H.
  apply bind_inv in H as [(st & env2 & H1 & H)|(e & _ & [=])].
  apply get_random_free_cell_p_free in H1 as [Hd1 Hf1].
  rewrite bind_get in H. cbv beta in H.
  apply bind_inv in H as [(tg & env3 & H2 & H)|(e & _ & [=])].
  apply draw_target_spec in H2 as [Hne Hf2].
  assert (Hf2' : is_free_cell env tg = Ok true).
  { rewrite <- Hf2. symmetry. apply is_free_cell_grid. by rewrite Hd1. }
  apply bind_inv in H as [(x & env4 & H3 & H)|(e & _ & [=])].
  apply randint_spec in H3 as [_ Hx]. specialize (Hx x eq_refl).
  pose proof (n_rows_nonneg env) as HN.
  assert (H0x : (0 <= x)%Z).
  { pose proof (Z.div_pos (n_rows env) 2 HN). lia. }
  destruct (i <=? Nat.min (n_robots env2) 20).
  - unfold bind, ret in H. injection H as <- _. unfold tuple_ok. simpl.
    split; [done|]. split; [done|]. split; [done|]. lia.
  - apply bind_inv in H as [(st' & env5 & H4 & H)|(e & _ & [=])].
    apply randint_spec in H4 as [_ Hst]. specialize (Hst st' eq_refl).
    unfold ret in H. injection H as <- _. unfold tuple_ok. simpl.
    split; [done|]. split; [done|]. split; [done|]. lia.
Qed.

Lemma tuple_ok_grid env env' tup :
  grid env' = grid env -> tuple_ok env tup -> tuple_ok env' tup.
Proof.
  intros E (H1 & H2 & H3 & H4). unfold tuple_ok.
  by rewrite !(is_free_cell_grid env env' _ E).
Qed.

Lemma generate_packages_ok env0 :
  forall idx acc env l env',
  grid env = grid env0 ->
  Forall (tuple_ok env0) acc ->
  generate_packages idx acc env = (Ok l, env') ->
  Forall (tuple_ok env0) l.
Proof.
  induction idx as [|i idx IH]; intros acc env l env' Hg Hacc H; simpl in H.
  - unfold ret in H. by injection H as <- _.
  - apply bind_inv in H as [(tup & env1 & H1 & H)|(e & _ & [=])].
    pose proof (generate_package_ok _ _ _ _ H1) as Hok.
    apply generate_package_spec in H1 as [Hd _].
    eapply IH; [| |exact H].
    + rewrite Hd. simpl. done.
    + apply Forall_app. split; [done|]. constructor; [|constructor].
      by apply (tuple_ok_grid env).
Qed.

End Generation.

(** ** The sort of the generated tuples *)

#[local] Instance time_le_trans : Transitive time_le.
Proof. unfold time_le. intros x y z. lia. Qed.

#[local] Instance time_le_refl : Reflexive time_le.
Proof. unfold time_le. intros x. lia. Qed.

Lemma insert_by_time_perm x l : Permutation (insert_by_time x l) (x :: l).
Proof.
  induction l as [|y l IH]; simpl; [done|].
  destruct (x.1.1.1 <=? y.1.1.1)%Z; [done|].
  rewrite IH. apply perm_swap.
Qed.

Lemma sort_by_time_perm l : Permutation (sort_by_time l) l.
Proof.
  unfold sort_by_time. induction l as [|x l IH]; simpl; [done|].
  rewrite insert_by_time_perm. by constructor.
Qed.

Lemma insert_by_time_sorted x l :
  Sorted time_le l -> Sorted time_le (insert_by_time x l).
Proof.
  induction 1 as [|y l Hl IH Hhd]; simpl.
  - repeat constructor.
  - destruct (x.1.1.1 <=? y.1.1.1)%Z eqn:E.
    + apply Z.leb_le in E. constructor; [by constructor|]. by constructor.
    + apply Z.leb_gt in E. constructor; [done|].
      destruct l as [|z l]; simpl in *.
      * constructor. unfold time_le. lia.
      * destruct (x.1.1.1 <=? z.1.1.1)%Z.
        -- constructor. unfold time_le. lia.
        -- constructor. by inversion Hhd.
Qed.

Lemma sort_by_time_sorted l : Sorted time_le (sort_by_time l).
Proof.
  unfold sort_by_time. induction l as [|x l IH]; simpl; [constructor|].
  by apply insert_by_time_sorted.
Qed.

Lemma StronglySorted_lookup_le {A} (Rel : relation A) `{!Reflexive Rel} (l : list A) :
  StronglySorted Rel l ->
  forall i j x y, i <= j -> l !! i = Some x -> l !! j = Some y -> Rel x y.
Proof.
  induction 1 as [|a l Hl IH Hall]; intros i j x y Hij Hi Hj.
  - by rewrite lookup_nil in Hi.
  - destruct i as [|i], j as [|j]; simpl in *; try lia.
    + assert (x = y) as -> by congruence. reflexivity.
    + inversion Hi; subst. rewrite Forall_lookup in Hall. eauto.
    + eapply IH; [|done..]. lia.
Qed.

Lemma sort_by_time_lookup l i j x y :
  i <= j -> sort_by_time l !! i = Some x -> sort_by_time l !! j = Some y ->
  (x.1.1.1 <= y.1.1.1)%Z.
Proof.
  apply (StronglySorted_lookup_le time_le).
  apply Sorted_StronglySorted; [apply _|]. apply sort_by_time_sorted.
Qed.

Lemma make_packages_fields l :
  forall i j p, make_packages i l !! j = Some p ->
  exists tup, l !! j = Some tup /\
    (start_time p, start p, target p, deadline p) = tup /\
    package_id p = i + j + 1 /\ status p = StNone.
Proof.
  induction l as [|[[[st s] tg] dl] l IH]; intros i j p H; simpl in H; [done|].
  destruct j as [|j]; simpl in H.
  - inversion H; subst. simpl. eexists. split; [done|]. split; [done|]. split; [lia|done].
  - apply IH in H as (tup & H1 & H2 & H3 & H4).
    exists tup. split; [done|]. split; [done|]. split; [lia|done].
Qed.

Lemma make_packages_length l : forall i, length (make_packages i l) = length l.
Proof.
  induction l as [|[[[st s] tg] dl] l IH]; intros i; simpl; [done|]. by rewrite IH.
Qed.

Section ResetShape.
Context {R : Type} {RO : RewardOps R}.
Implicit Types (env : Environment (R := R)).

(** The package list a successful [reset] builds, from the generated
    tuples. *)
Lemma reset_packages_shape env snap env' :
  reset env = (Ok snap, env') ->
  exists l,
    length l = n_packages env /\ Forall (tuple_ok env) l /\
    packages env' = reveal 0 <$> make_packages 0 (sort_by_time l) /\
    t env' = 0%Z /\ grid env' = grid env.
Proof.
  intros H. pose proof (reset_robots_spec _ _ _ H) as (Hgrid & _).
  apply reset_ok_inv in H as (env1 & env2 & l & H1 & H2 & H3).
  pose proof H1 as H1'. apply place_robots_spec in H1' as (Hp1 & Ht1 & _ & _ & _).
  apply place_robots_distinct in H1 as (Hg1 & _).
  2:{ intros rb Hrb. simpl in Hrb. by apply elem_of_nil in Hrb. }
  2:{ simpl. constructor. }
  2:{ unfold on_free_cells. simpl. constructor. }
  pose proof H2 as H2'.
  apply (generate_packages_spec env1) in H2' as [Hd Hl]; [|apply draws_only_refl].
  destruct (Hl l eq_refl) as (Hlen & _ & _). simpl in Hlen. rewrite length_seq in Hlen.
  apply (generate_packages_ok env) in H2; [|done|constructor].
  exists l. split; [done|]. split; [done|].
  rewrite get_state_spec in H3. inversion H3; subst. simpl.
  assert (Hp2 : packages env2 = []) by (by rewrite Hd).
  assert (Ht2 : t env2 = 0%Z) by (by rewrite Hd).
  rewrite Hp2, Ht2. simpl. split; [done|]. split; [done|]. exact Hgrid.
Qed.

End ResetShape.

(** * Further properties: the statements *)

Section Extras.
Context {R : Type} {RO : RewardOps R}.
Implicit Types (env : Environment (R := R)) (actions : list action) (r : R).

(** X1. A successful [reset] places exactly [n_robots] robots, on pairwise
    distinct cells that [is_free_cell] accepts, and none of them carries a
    package. *)
Theorem reset_places_robots env snap env' :
  reset env = (Ok snap, env') ->
  length (robots env') = n_robots env /\
  NoDup (position <$> robots env') /\
  (forall rb, elem_of rb (robots env') ->
     is_free_cell env' (position rb) = Ok true /\ carrying rb = 0).
Proof.
  intros H. apply reset_robots_spec in H as (_ & Hlen & Hnd & Hfree & Hidle).
  split; [done|]. split; [done|]. intros rb Hrb.
  unfold on_free_cells, idle in *. rewrite Forall_forall in Hfree, Hidle. auto.
Qed.

(** X2. After a successful [reset] there are [n_packages] packages, numbered
    1, 2, ... in list order, in ascending order of spawn time; the ones that
    spawn at tick 0 are waiting and every other one still has its initial
    status. *)
Theorem reset_orders_packages env snap env' :
  reset env = (Ok snap, env') ->
  length (packages env') = n_packages env /\
  forall j p, packages env' !! j = Some p ->
    package_id p = j + 1 /\
    status p = (if (start_time p =? 0)%Z then Waiting else StNone) /\
    forall k q, j <= k -> packages env' !! k = Some q ->
                (start_time p <= start_time q)%Z.
Proof.
  intros H. apply reset_packages_shape in H as (l & Hlen & _ & Hp & _ & _).
  rewrite Hp. split.
  - rewrite length_fmap, make_packages_length.
    by rewrite (Permutation_length (sort_by_time_perm l)).
  - assert (Hget : forall j p,
      (reveal 0 <$> make_packages 0 (sort_by_time l)) !! j = Some p ->
      exists tup, sort_by_time l !! j = Some tup /\ start_time p = tup.1.1.1 /\
                  package_id p = j + 1 /\
                  status p = (if (start_time p =? 0)%Z then Waiting else StNone)).
    { intros j p Hj. rewrite list_lookup_fmap in Hj.
      destruct (make_packages 0 (sort_by_time l) !! j) as [q|] eqn:Hq; [|done].
      simpl in Hj. inversion Hj; subst. clear Hj.
      apply make_packages_fields in Hq as (tup & Htup & Hf & Hid & Hst).
      exists tup. split; [done|]. unfold reveal.
      destruct (start_time q =? 0)%Z eqn:E; simpl; rewrite ?E.
      - split; [by rewrite <- Hf|]. split; [lia|done].
      - split; [by rewrite <- Hf|]. split; [lia|done]. }
    intros j p Hj. destruct (Hget j p Hj) as (tup & Htup & Htime & Hid & Hst).
    split; [done|]. split; [done|]. intros k q Hjk Hk.
    destruct (Hget k q Hk) as (tup' & Htup' & Htime' & _ & _).
    rewrite Htime, Htime'. by apply (sort_by_time_lookup l j k).
Qed.

(** X3. Every package a successful [reset] builds starts and ends on free
    cells of the map, two different ones, spawns at a tick that is not
    negative and has its deadline at least ten ticks after its spawn time. *)
Theorem reset_packages_sound env snap env' :
  reset env = (Ok snap, env') ->
  forall p, elem_of p (packages env') ->
    start p <> target p /\
    is_free_cell env' (start p) = Ok true /\
    is_free_cell env' (target p) = Ok true /\
    (0 <= start_time p)%Z /\
    (start_time p + 10 <= deadline p)%Z.
Proof.
  intros H p Hin. apply reset_packages_shape in H as (l & _ & Hok & Hp & _ & Hgrid).
  rewrite Hp in Hin. apply list_elem_of_fmap in Hin as (q & -> & Hq).
  apply list_elem_of_lookup in Hq as [j Hj].
  apply make_packages_fields in Hj as (tup & Htup & Hf & _ & _).
  assert (Hin : elem_of tup l).
  { rewrite <- (sort_by_time_perm l). apply list_elem_of_lookup. eauto. }
  rewrite Forall_forall in Hok. specialize (Hok tup Hin).
  apply (tuple_ok_grid env env') in Hok; [|done].
  assert (E : (start_time (reveal 0 q), start (reveal 0 q), target (reveal 0 q),
               deadline (reveal 0 q)) = tup).
  { rewrite <- Hf. unfold reveal. by destruct (start_time q =? 0)%Z. }
  unfold tuple_ok in Hok. rewrite <- E in Hok. exact Hok.
Qed.

End Extras.

(** ** The scan loop, pass by pass *)

(** A pass decides the first robot, in index order, that can be decided. *)
Lemma scan_first rs pr m :
  forall a st st',
  scan rs pr (seq a m) st = (st', true) ->
  exists i, a <= i < a + m /\ can_decide pr st i = true /\
            st' = decision rs pr st i /\
            forall k, a <= k < i -> can_decide pr st k = false.
Proof.
  induction m as [|m IH]; intros a st st' H; simpl in H; [by inversion H|].
  destruct (can_decide pr st a) eqn:Hcan.
  - exists a. split; [lia|]. split; [done|]. split; [|intros k Hk; lia].
    unfold can_decide, decision in *.
    destruct (computed_moved st !!! a =? 0); simpl in *; [|done].
    destruct (old_pos pr !! (proposed_positions pr !!! a)) as [j|].
    + destruct (negb (j =? a) && (computed_moved st !!! j =? 0)); simpl in *; [done|].
      by inversion H.
    + by inversion H.
  - assert (Hskip : scan rs pr (seq (S a) m) st = (st', true)).
    { unfold can_decide in Hcan.
      destruct (computed_moved st !!! a =? 0); simpl in *; [|done].
      destruct (old_pos pr !! (proposed_positions pr !!! a)) as [j|]; [|done].
      by destruct (negb (j =? a) && (computed_moved st !!! j =? 0)). }
    apply IH in Hskip as (i & Hi & Hc & Hst & Hfirst).
    exists i. split; [lia|]. split; [done|]. split; [done|].
    intros k Hk. destruct (decide (k = a)) as [->|Hne]; [done|]. apply Hfirst. lia.
Qed.

(** The scan loop keeps any property that every decision keeps, whatever
    the robots and the proposal. *)
Lemma resolve_loop_keeps rs pr (P : Resolution -> Prop) :
  (forall st i, LInv rs st -> P st -> i < length rs -> can_decide pr st i = true ->
                P (decision rs pr st i)) ->
  forall fuel st,
  LInv rs st -> P st -> undecided st < fuel ->
  exists st', resolve_loop rs pr fuel st = Ok st' /\ LInv rs st' /\ P st'.
Proof.
  intros HP fuel. induction fuel as [|fuel IH]; intros st Hinv HPst Hlt; [lia|].
  simpl. destruct (scan rs pr (seq 0 (length rs)) st) as [st1 b] eqn:Hs.
  destruct (scan_spec _ _ _ _ _ _ Hs) as [(-> & -> & HF)|(-> & i & Hi & Hcan & ->)].
  - eauto.
  - apply elem_of_seq in Hi. apply IH.
    + apply LInv_decision; [done|lia].
    + apply HP; auto. lia.
    + rewrite (undecided_decision rs pr st i) in Hlt; [lia| |done].
      rewrite (linv_len_c _ _ Hinv). lia.
Qed.

Lemma LInv_init rs : LInv rs (init_resolution (length rs)).
Proof.
  split; simpl; rewrite ?length_replicate; auto.
  intros i Hi Hc. by rewrite lookup_total_replicate_2 in Hc.
Qed.

(** Whatever the robots and the proposal, the cell the resolution gives a
    robot is the cell it proposed or the cell it stands on. *)
Lemma resolve_choice rs pr :
  exists fp, resolve rs pr = Ok fp /\ length fp = length rs /\
    forall i, i < length rs ->
      fp !! i = Some (Some (proposed_positions pr !!! i)) \/
      fp !! i = Some (Some (position (rs !!! i))).
Proof.
  destruct (resolve_loop_keeps rs pr
    (fun st => forall i, i < length rs -> computed_moved st !!! i <> 0 ->
       final_positions st !! i = Some (Some (proposed_positions pr !!! i)) \/
       final_positions st !! i = Some (Some (position (rs !!! i))))
    ) with (fuel := S (length rs)) (st := init_resolution (length rs))
    as (st & Hres & [Hlc Hlf _] & Hch).
  - intros st i [Hlc Hlf _] Hch Hi Hcan k Hk Hck. unfold decision in *.
    destruct (decide_robot_fields i (position (rs !!! i)) (proposed_positions pr !!! i) st)
      as (c & Ec & Ef & _ & Hc).
    rewrite Ec in Hck. rewrite Ef. destruct (decide (k = i)) as [->|Hne].
    + rewrite list_lookup_insert_eq by lia. destruct Hc as [[-> _]|[-> _]]; auto.
    + rewrite list_lookup_total_insert_ne in Hck by done.
      rewrite list_lookup_insert_ne by done. auto.
  - apply LInv_init.
  - intros i Hi Hc. simpl in Hc. by rewrite lookup_total_replicate_2 in Hc.
  - rewrite undecided_init. lia.
  - unfold resolve. rewrite Hres. eexists. split; [reflexivity|].
    split; [by rewrite default_loop_len|].
    intros i Hi. destruct (decide (computed_moved st !!! i = 0)) as [Hz|Hnz].
    + right. apply default_loop_undecided; [apply elem_of_seq; lia|lia|done].
    + rewrite default_loop_decided by done. auto.
Qed.

Section ResolveOrder.
Variables (rs : list Robot) (pr : Proposal).
Hypothesis old_pos_spec :
  forall c j, old_pos pr !! c = Some j <-> position <$> rs !! j = Some c.

(** The scan loop keeps any property kept by the decision of the first
    robot that can be decided. *)
Lemma resolve_loop_first (P : Resolution -> Prop) :
  (forall st i, RInv rs pr st -> P st -> i < length rs -> can_decide pr st i = true ->
                (forall k, k < i -> can_decide pr st k = false) ->
                P (decision rs pr st i)) ->
  forall fuel st,
  RInv rs pr st -> P st -> undecided st < fuel ->
  exists st', resolve_loop rs pr fuel st = Ok st' /\ RInv rs pr st' /\ P st' /\
              forall i, i < length rs -> can_decide pr st' i = false.
Proof.
  intros HP fuel. induction fuel as [|fuel IH]; intros st Hinv HPst Hlt; [lia|].
  simpl. destruct (scan rs pr (seq 0 (length rs)) st) as [st1 [|]] eqn:Hs.
  - apply scan_first in Hs as (i & Hi & Hcan & -> & Hfirst). apply IH.
    + apply RInv_decision; auto. lia.
    + apply HP; auto; [lia|]. intros k Hk. apply Hfirst. lia.
    + rewrite (undecided_decision rs pr st i) in Hlt; [lia| |done].
      rewrite (inv_len_c _ _ _ Hinv). lia.
  - destruct (scan_spec _ _ _ _ _ _ Hs) as [(_ & -> & HF)|([=] & _)].
    exists st. split; [done|]. split; [done|]. split; [done|].
    intros i Hi. rewrite Forall_forall in HF. apply HF. apply elem_of_seq. lia.
Qed.

Lemma resolve_outcome_first (P : Resolution -> Prop) :
  (forall st i, RInv rs pr st -> P st -> i < length rs -> can_decide pr st i = true ->
                (forall k, k < i -> can_decide pr st k = false) ->
                P (decision rs pr st i)) ->
  P (init_resolution (length rs)) ->
  exists st fp,
    resolve rs pr = Ok fp /\ RInv rs pr st /\ P st /\
    (forall i, i < length rs -> can_decide pr st i = false) /\
    (forall i, i < length rs ->
       (computed_moved st !!! i = 0 /\ fp !! i = Some (Some (position (rs !!! i)))) \/
       (computed_moved st !!! i <> 0 /\ fp !! i = final_positions st !! i)).
Proof.
  intros HP HP0.
  destruct (resolve_loop_first P HP (S (length rs)) (init_resolution (length rs)))
    as (st & Hres & Hinv & HPst & Hstop); auto using RInv_init.
  { rewrite undecided_init. lia. }
  unfold resolve. rewrite Hres. eexists st, _. split; [reflexivity|].
  split; [done|]. split; [done|]. split; [done|].
  intros i Hi. destruct (decide (computed_moved st !!! i = 0)) as [Hz|Hnz].
  - left. split; [done|]. apply default_loop_undecided; [apply elem_of_seq; lia| |done].
    rewrite (inv_len_f _ _ _ Hinv). lia.
  - right. split; [done|]. by apply default_loop_decided.
Qed.

End ResolveOrder.

(** ** The robots after any step call *)

Section Moves.
Context {R : Type} {RO : RewardOps R}.
Implicit Types (env : Environment (R := R)) (actions : list action) (r : R).

(** Whatever [step] returns, the grid and the number of robots are as
    before, and the robots stand where they stood or where the resolution
    put them; the latter when the call returns. *)
Lemma step_robots actions env res env' :
  step actions env = (res, env') ->
  grid env' = grid env /\
  length (robots env') = length (robots env) /\
  let moved :=
    exists pr fp,
      length actions = length (robots env) /\
      propose env actions = Ok pr /\ resolve (robots env) pr = Ok fp /\
      forall i c, fp !! i = Some (Some c) <-> position <$> robots env' !! i = Some c in
  (position <$> robots env' = position <$> robots env \/ moved) /\
  (forall out, res = Ok out -> moved).
Proof.
  rewrite step_unfold. intros H.
  destruct (length actions =? length (robots env)) eqn:Hlen; simpl in H.
  2:{ inversion H; subst. split; [done|]. split; [done|]. split; [by left|done]. }
  apply Nat.eqb_eq in Hlen.
  destruct (propose env actions) as [pr|] eqn:Hpr.
  2:{ inversion H; subst. split; [done|]. split; [done|]. split; [by left|done]. }
  destruct (resolve_returns (robots env) pr) as (fp & Hres & Hlfp & Hall).
  rewrite Hres in H.
  destruct (update_positions_spec actions fp (seq 0 (length (robots env))) r_zero env)
    as (rs' & Hup & Hlrs & Hin & _).
  { apply NoDup_seq. }
  { intros i Hi. apply elem_of_seq in Hi. split; [lia|]. split.
    - apply lookup_lt_is_Some_2. lia.
    - apply Hall. lia. }
  rewrite Hup in H.
  destruct (package_actions actions (seq 0 (length (robots env)))
              (Nat.iter (count_charged actions fp (robots env) (seq 0 (length (robots env))))
                        (fun x => r_add x (move_cost env)) r_zero)
              (set_robots env rs')) as [res2 env2] eqn:Hpk.
  pose proof (package_actions_positions _ _ _ _ _ _ Hpk) as Hpos.
  apply package_actions_frame in Hpk as [Hg2 _ _ _ _ _ _ Hl2]. simpl in *.
  assert (Hmoved : forall i c,
            fp !! i = Some (Some c) <-> position <$> robots env2 !! i = Some c).
  { intros i c. rewrite <- list_lookup_fmap, Hpos, list_lookup_fmap.
    destruct (decide (i < length (robots env))) as [Hi|Hi].
    - destruct (Hin i) as (robot & c' & Hr & Hc' & Hrs'); [apply elem_of_seq; lia|].
      rewrite Hc', Hrs'. simpl. split; congruence.
    - rewrite (lookup_ge_None_2 fp) by lia. rewrite (lookup_ge_None_2 rs') by lia. done. }
  destruct res2 as [r2|e]; inversion H; subst; simpl.
  - split; [done|]. split; [lia|]. split.
    + right. exists pr, fp. split; [done|]. split; [done|]. split; [done|]. exact Hmoved.
    + intros out _. exists pr, fp.
      split; [done|]. split; [done|]. split; [done|]. exact Hmoved.
  - split; [done|]. split; [lia|]. split; [|done].
    right. exists pr, fp. split; [done|]. split; [done|]. split; [done|]. exact Hmoved.
Qed.

(** The cell a robot is given by [step]: the one it stood on, or the one its
    move leads to, and then [valid_position] accepts it. *)
Lemma moved_cell env actions pr fp i rb c :
  propose env actions = Ok pr ->
  resolve (robots env) pr = Ok fp ->
  robots env !! i = Some rb ->
  fp !! i = Some (Some c) ->
  exists move pa,
    actions !! i = Some (move, pa) /\
    (c = position rb \/
     (c = compute_new_position (position rb) move /\ valid_position env c = Ok true)).
Proof.
  intros Hpr Hres Hrb Hc.
  destruct (propose_proposed _ _ _ Hpr) as [Hlen Hprop].
  destruct (Hprop i rb Hrb) as (move & pa & v & Ha & Hv & Hp).
  exists move, pa. split; [done|].
  destruct (resolve_choice (robots env) pr) as (fp' & Hres' & _ & Hch).
  assert (fp' = fp) as -> by congruence.
  assert (Hi : i < length (robots env)) by (by apply lookup_lt_Some in Hrb).
  specialize (Hch i Hi).
  rewrite (list_lookup_total_correct _ _ _ Hp) in Hch.
  rewrite (list_lookup_total_correct _ _ _ Hrb) in Hch.
  destruct Hch as [E|E]; rewrite E in Hc; inversion Hc; subst; [|by left].
  unfold proposed_cell. destruct v; [|by left]. right. done.
Qed.

Lemma step_keeps_valid actions env res env' :
  on_valid_cells env -> step actions env = (res, env') -> on_valid_cells env'.
Proof.
  intros Hv H. apply step_robots in H as (Hg & Hlen & [Hsame|Hmoved] & _).
  - unfold on_valid_cells in *. rewrite Forall_lookup in Hv. apply Forall_lookup.
    intros i rb' Hrb'.
    assert (Hp : (position <$> robots env) !! i = Some (position rb')).
    { rewrite <- Hsame, list_lookup_fmap, Hrb'. done. }
    rewrite list_lookup_fmap in Hp.
    destruct (robots env !! i) as [rb|] eqn:Hrb; [|done].
    assert (E : position rb = position rb') by (simpl in Hp; congruence).
    rewrite (valid_position_grid env env' _ Hg), <- E. eauto.
  - destruct Hmoved as (pr & fp & _ & Hpr & Hres & Hpos).
    unfold on_valid_cells in *. rewrite Forall_lookup in Hv. apply Forall_lookup.
    intros i rb' Hrb'. rewrite (valid_position_grid env env' _ Hg).
    assert (Hfp : fp !! i = Some (Some (position rb'))) by (apply Hpos; by rewrite Hrb').
    destruct (lookup_lt_is_Some_2 (robots env) i) as [rb Hrb].
    { rewrite <- Hlen. by apply lookup_lt_Some in Hrb'. }
    destruct (moved_cell _ _ _ _ _ _ _ Hpr Hres Hrb Hfp) as (move & pa & _ & [E|[_ E]]).
    + rewrite E. eauto.
    + done.
Qed.

Lemma step_keeps_distinct actions env res env' :
  NoDup (position <$> robots env) -> step actions env = (res, env') ->
  NoDup (position <$> robots env').
Proof.
  intros Hnd H. apply step_robots in H as (_ & _ & [Hsame|Hmoved] & _).
  - by rewrite Hsame.
  - destruct Hmoved as (pr & fp & _ & Hpr & Hres & Hpos).
    destruct (resolve_spec (robots env) pr (propose_old_pos _ _ _ Hnd Hpr) (fun _ => True))
      as (st & fp' & Hres' & _ & _ & _ & Hdist); auto.
    assert (fp' = fp) as -> by congruence.
    apply NoDup_alt. intros i j c Hi Hj.
    rewrite list_lookup_fmap in Hi, Hj. apply Hpos in Hi, Hj. eauto.
Qed.

Lemma free_is_valid env c :
  is_free_cell env c = Ok true -> valid_position env c = Ok true.
Proof.
  intros H. apply is_free_cell_true in H as (Hr & Hc & Hg).
  apply valid_position_true. split; [done|]. split; [done|]. exists 0%Z. by split.
Qed.

End Moves.

Lemma calls_keeps {R : Type} {RO : RewardOps R} (I : Environment (R := R) -> Prop) :
  (forall actions env res env', I env -> step actions env = (res, env') -> I env') ->
  forall env env', I env -> calls env env' -> I env'.
Proof.
  intros Hstep env env' HI Hc. induction Hc as [env|env actions res env1 env2 Hs Hc IH].
  - done.
  - apply IH. by eapply Hstep.
Qed.

Section ExtrasMoves.
Context {R : Type} {RO : RewardOps R}.
Implicit Types (env : Environment (R := R)) (actions : list action) (r : R).

(** X4. In a successful step every robot stays on its cell or moves to the
    cell its own move leads to, and only if [valid_position] accepts that
    cell: no robot enters an obstacle, leaves the grid or moves more than
    one cell. *)
Theorem step_moves_legally env actions out env' :
  step actions env = (Ok out, env') ->
  forall i rb, robots env !! i = Some rb ->
    exists rb' move pa,
      robots env' !! i = Some rb' /\ actions !! i = Some (move, pa) /\
      (position rb' = position rb \/
       (position rb' = compute_new_position (position rb) move /\
        valid_position env (position rb') = Ok true)).
Proof.
  intros H i rb Hrb.
  apply step_robots in H as (_ & Hlen & _ & Hmoved).
  destruct (Hmoved out eq_refl) as (pr & fp & _ & Hpr & Hres & Hpos).
  destruct (lookup_lt_is_Some_2 (robots env') i) as [rb' Hrb'].
  { rewrite Hlen. by apply lookup_lt_Some in Hrb. }
  assert (Hfp : fp !! i = Some (Some (position rb'))) by (apply Hpos; by rewrite Hrb').
  destruct (moved_cell _ _ _ _ _ _ _ Hpr Hres Hrb Hfp) as (move & pa & Ha & Hc).
  exists rb', move, pa. split; [done|]. split; [done|]. exact Hc.
Qed.

(** X5. From a successful [reset] on, across any number of [step] calls,
    whatever they return, there are [n_robots] robots, they stand on
    pairwise distinct cells, and every one of them on a cell inside the grid
    that is not an obstacle. *)
Theorem episode_robots env0 snap env1 env2 :
  reset env0 = (Ok snap, env1) ->
  calls env1 env2 ->
  length (robots env2) = n_robots env0 /\
  NoDup (position <$> robots env2) /\
  forall rb, elem_of rb (robots env2) -> valid_position env2 (position rb) = Ok true.
Proof.
  intros Hreset Hcalls.
  apply reset_robots_spec in Hreset as (_ & Hlen & Hnd & Hfree & _).
  assert (Hvalid : on_valid_cells env1).
  { unfold on_valid_cells, on_free_cells in *. eapply Forall_impl; [exact Hfree|].
    intros rb. apply free_is_valid. }
  split; [|split].
  - apply (calls_keeps (fun env => length (robots env) = n_robots env0)) with (env := env1);
      [|done..].
    intros actions env res env' HI Hs. apply step_robots in Hs as (_ & Hl & _). congruence.
  - apply (calls_keeps (fun env => NoDup (position <$> robots env))) with (env := env1);
      [|done..].
    intros actions env res env' HI Hs. by eapply step_keeps_distinct.
  - assert (Hv2 : on_valid_cells env2).
    { apply (calls_keeps on_valid_cells) with (env := env1); [|done..].
      intros actions env res env' HI Hs. by eapply step_keeps_valid. }
    unfold on_valid_cells in Hv2. rewrite Forall_forall in Hv2. exact Hv2.
Qed.

(** X6. Robots on pairwise distinct cells, several of them proposing the
    same cell [c] on which no robot stands: the one with the lowest index
    gets [c] and every other one stays where it is. *)
Theorem first_proposer_wins env actions pr a c :
  NoDup (position <$> robots env) ->
  propose env actions = Ok pr ->
  (forall rb, elem_of rb (robots env) -> position rb <> c) ->
  proposed_positions pr !! a = Some c ->
  (forall b, b < a -> proposed_positions pr !! b <> Some c) ->
  exists fp,
    resolve (robots env) pr = Ok fp /\
    fp !! a = Some (Some c) /\
    forall b rb, b <> a -> robots env !! b = Some rb ->
      proposed_positions pr !! b = Some c -> fp !! b = Some (Some (position rb)).
Proof.
  intros Hnd Hpr Hfree Hpa Hmin.
  pose proof (propose_old_pos _ _ _ Hnd Hpr) as Hold.
  destruct (propose_proposed _ _ _ Hpr) as [Hlen _].
  assert (Ha : a < length (robots env)).
  { rewrite <- Hlen. by apply lookup_lt_Some in Hpa. }
  assert (Hta : proposed_positions pr !!! a = c) by (by apply list_lookup_total_correct).
  assert (Hoc : old_pos pr !! c = None).
  { destruct (old_pos pr !! c) as [j|] eqn:E; [|done]. exfalso.
    apply Hold in E. destruct (robots env !! j) as [rb|] eqn:Hrb; [|done].
    simpl in E. inversion E as [E']. apply (Hfree rb); [|done].
    apply list_elem_of_lookup. eauto. }
  assert (Hmin' : forall b, b < a -> proposed_positions pr !!! b <> c).
  { intros b Hb E. apply (Hmin b Hb). rewrite <- E.
    apply list_lookup_lookup_total_lt. lia. }
  assert (Hready : forall st, computed_moved st !!! a = 0 -> can_decide pr st a = true).
  { intros st Hz. unfold can_decide. by rewrite Hz, Hta, Hoc. }
  set (n := length (robots env)) in *.
  destruct (resolve_outcome_first (robots env) pr Hold
    (fun st =>
       (computed_moved st !!! a = 0 ->
        occupied st !! c = None /\
        forall b, b < n -> b <> a -> proposed_positions pr !!! b = c ->
                  computed_moved st !!! b = 0) /\
       (computed_moved st !!! a <> 0 ->
        final_positions st !! a = Some (Some c) /\
        forall b, b < n -> b <> a -> proposed_positions pr !!! b = c ->
                  computed_moved st !!! b <> 0 ->
                  final_positions st !! b = Some (Some (position (robots env !!! b))))))
    as (st & fp & Hres & Hinv & [Hq1 Hq2] & Hstop & Hout).
  - intros st i Hinv [Hq1 Hq2] Hi Hcan Hfirst. unfold decision.
    pose proof (can_decide_zero _ _ _ Hcan) as Hzi.
    destruct (decide_robot_fields i (position (robots env !!! i))
                (proposed_positions pr !!! i) st) as (x & Ec & Ef & Eo & Hx).
    rewrite Ec, Ef, Eo.
    assert (Hlc : length (computed_moved st) = n) by apply Hinv.
    assert (Hlf : length (final_positions st) = n) by apply Hinv.
    destruct (decide (computed_moved st !!! a = 0)) as [Hza|Hnza].
    + destruct (Hq1 Hza) as [Hocc Hothers].
      assert (Hia : i <= a).
      { destruct (decide (i <= a)); [done|]. exfalso.
        pose proof (Hready st Hza) as Hr. rewrite (Hfirst a) in Hr by lia. done. }
      destruct (decide (i = a)) as [->|Hne].
      * assert (x = c) as ->.
        { destruct Hx as [[-> _]|[_ Hs]]; [done|].
          rewrite Hta, Hocc in Hs. by destruct Hs. }
        split; [intros Hz; rewrite list_lookup_total_insert_eq in Hz by lia; done|].
        intros _. split; [by rewrite list_lookup_insert_eq by lia|].
        intros b Hb Hba Hpb Hcb.
        rewrite list_lookup_total_insert_ne in Hcb by done.
        by rewrite (Hothers b Hb Hba Hpb) in Hcb.
      * assert (Hpi : proposed_positions pr !!! i <> c) by (apply Hmin'; lia).
        assert (Hxc : x <> c).
        { destruct Hx as [[-> _]|[-> _]]; [done|]. intros E.
          pose proof (position_lookup (robots env) i Hi) as Hp.
          apply Hold in Hp. rewrite E, Hoc in Hp. done. }
        split.
        -- intros _. split; [by rewrite lookup_insert_ne|].
           intros b Hb Hba Hpb. rewrite list_lookup_total_insert_ne by congruence. auto.
        -- intros Hz. rewrite list_lookup_total_insert_ne in Hz by done. done.
    + assert (Hia : i <> a) by congruence.
      destruct (Hq2 Hnza) as [Hfa Hothers].
      split; [intros Hz; rewrite list_lookup_total_insert_ne in Hz by done; done|].
      intros _. split; [by rewrite list_lookup_insert_ne|].
      intros b Hb Hba Hpb Hcb. destruct (decide (b = i)) as [->|Hbi].
      * rewrite list_lookup_insert_eq by lia. f_equal. f_equal.
        destruct Hx as [[-> Hnone]|[-> _]]; [|done]. exfalso.
        destruct (inv_claimed _ _ _ Hinv a Ha Hnza) as (c' & Hc' & Hsome).
        assert (c' = c) as -> by congruence.
        rewrite Hpb, Hnone in *. by destruct Hsome.
      * rewrite list_lookup_total_insert_ne in Hcb by done.
        rewrite list_lookup_insert_ne by done. auto.
  - split.
    + intros _. split; [done|]. intros b Hb _ _. simpl.
      by rewrite lookup_total_replicate_2.
    + intros Hz. simpl in Hz. by rewrite lookup_total_replicate_2 in Hz.
  - assert (Hnza : computed_moved st !!! a <> 0).
    { intros Hz. specialize (Hready st Hz). rewrite (Hstop a Ha) in Hready. done. }
    destruct (Hq2 Hnza) as [Hfa Hothers].
    exists fp. split; [done|]. split.
    + destruct (Hout a Ha) as [[Hz _]|[_ E]]; [done|]. by rewrite E.
    + intros b rb Hba Hrb Hpb.
      assert (Hb : b < n) by (by apply lookup_lt_Some in Hrb).
      rewrite <- (list_lookup_total_correct _ _ _ Hrb).
      destruct (Hout b Hb) as [[_ E]|[Hnz E]]; [done|]. rewrite E.
      apply Hothers; auto. by apply list_lookup_total_correct.
Qed.

(** X7. Robots on pairwise distinct cells, robot [b] proposing the cell it
    stands on and another robot [a] proposing that same cell: both end on
    the cells they stand on. *)
Theorem staying_robot_blocks env actions pr a b ra rb :
  NoDup (position <$> robots env) ->
  propose env actions = Ok pr ->
  a <> b ->
  robots env !! a = Some ra ->
  robots env !! b = Some rb ->
  proposed_positions pr !! b = Some (position rb) ->
  proposed_positions pr !! a = Some (position rb) ->
  exists fp,
    resolve (robots env) pr = Ok fp /\
    fp !! a = Some (Some (position ra)) /\
    fp !! b = Some (Some (position rb)).
Proof.
  intros Hnd Hpr Hab Ha Hb Hpb Hpa.
  destruct (resolve_spec (robots env) pr (propose_old_pos _ _ _ Hnd Hpr) (fun _ => True))
    as (st & fp & Hres & _ & _ & Hall & Hdist); auto.
  exists fp. split; [done|].
  assert (Hla : a < length (robots env)) by (by apply lookup_lt_Some in Ha).
  assert (Hlb : b < length (robots env)) by (by apply lookup_lt_Some in Hb).
  pose proof (Hall a Hla) as Hfa. pose proof (Hall b Hlb) as Hfb.
  rewrite (list_lookup_total_correct _ _ _ Ha), (list_lookup_total_correct _ _ _ Hpa) in Hfa.
  rewrite (list_lookup_total_correct _ _ _ Hb), (list_lookup_total_correct _ _ _ Hpb) in Hfb.
  assert (Efb : fp !! b = Some (Some (position rb))).
  { destruct Hfb as [[_ E]|[_ [E|E]]]; done. }
  split; [|done].
  destruct Hfa as [[_ E]|[_ [E|E]]]; [done| |done].
  exfalso. apply Hab. by apply (Hdist a b (position rb)).
Qed.

End ExtrasMoves.

(** ** Who carries what *)

Section Carrying.
Context {R : Type} {RO : RewardOps R}.
Implicit Types (env : Environment (R := R)) (actions : list action) (r : R).

Lemma carrying_lookup env env' i rb' :
  carrying <$> robots env' = carrying <$> robots env ->
  robots env' !! i = Some rb' ->
  exists rb, robots env !! i = Some rb /\ carrying rb = carrying rb'.
Proof.
  intros Hc Hr.
  assert (H : (carrying <$> robots env) !! i = Some (carrying rb')).
  { rewrite <- Hc, list_lookup_fmap, Hr. done. }
  rewrite list_lookup_fmap in H. destruct (robots env !! i) as [rb|]; [|done].
  exists rb. split; [done|]. simpl in H. congruence.
Qed.

Lemma Tight_transfer env env' :
  Tight env -> packages env' = packages env ->
  carrying <$> robots env' = carrying <$> robots env ->
  Tight env'.
Proof.
  intros [H1 H2 H3] Hp Hc. split; rewrite ?Hp.
  - intros i rb' Hr Hne.
    destruct (carrying_lookup _ _ _ _ Hc Hr) as (rb & Hrb & E).
    rewrite <- E in *. eauto.
  - intros i k a b Ha Hb Hne E.
    destruct (carrying_lookup _ _ _ _ Hc Ha) as (a0 & Ha0 & Ea).
    destruct (carrying_lookup _ _ _ _ Hc Hb) as (b0 & Hb0 & Eb).
    apply (H2 i k a0 b0); congruence.
  - intros j p Hj Hs. destruct (H3 j p Hj Hs) as (i & rb & Hr & E).
    assert (H : (carrying <$> robots env') !! i = Some (S j)).
    { rewrite Hc, list_lookup_fmap, Hr. simpl. by rewrite E. }
    rewrite list_lookup_fmap in H.
    destruct (robots env' !! i) as [rb'|] eqn:Hr'; [|done].
    exists i, rb'. split; [done|]. simpl in H. congruence.
Qed.

Lemma package_action_tight i pa r env res env' :
  Good env -> Tight env -> package_action i pa r env = (res, env') -> Tight env'.
Proof.
  intros [Hid _ _] HT H. pose proof HT as [H1 H2 H3].
  apply package_action_cases in H
    as [[-> _]|[(robot & j & p & -> & Hr & Hc & Hp & Hst & Hpos & Htime & -> & ->)
               |(robot & pkg & -> & Hr & Hc & Hp & Hpos & -> & ->)]]; [done| |].
  - assert (Hpid : package_id p = S j) by eauto.
    assert (Hi : i < length (robots env)) by (by apply lookup_lt_Some in Hr).
    assert (Hj : j < length (packages env)) by (by apply lookup_lt_Some in Hp).
    unfold picked_up. split; simpl.
    + intros k rb' Hk Hne.
      apply list_lookup_insert_Some in Hk as [(-> & <- & _)|[Hki Hk]]; simpl in *.
      * rewrite Hpid. simpl. rewrite Nat.sub_0_r. exists (set_status p InTransit).
        split; [by apply list_lookup_insert_eq|done].
      * destruct (H1 k rb' Hk Hne) as (q & Hq & Hs). exists q. split; [|done].
        rewrite list_lookup_insert_ne; [done|]. intros E. rewrite <- E in Hq. congruence.
    + intros k1 k2 a b Ha Hb Hne E.
      apply list_lookup_insert_Some in Ha as [(-> & <- & _)|[Hk1 Ha]];
        apply list_lookup_insert_Some in Hb as [(-> & <- & _)|[Hk2 Hb]];
        simpl in *; [done| | |by eapply H2].
      * exfalso. rewrite Hpid in E.
        destruct (H1 k2 b Hb) as (q & Hq & Hs); [lia|].
        rewrite <- E in Hq. simpl in Hq. rewrite Nat.sub_0_r in Hq. congruence.
      * exfalso. rewrite Hpid in E.
        destruct (H1 k1 a Ha Hne) as (q & Hq & Hs).
        rewrite E in Hq. simpl in Hq. rewrite Nat.sub_0_r in Hq. congruence.
    + intros j' q Hq Hs.
      apply list_lookup_insert_Some in Hq as [(-> & <- & _)|[Hjj Hq]].
      * exists i, (set_carrying robot (package_id p)).
        split; [by apply list_lookup_insert_eq|done].
      * destruct (H3 j' q Hq Hs) as (k & rb & Hk & E). exists k, rb. split; [|done].
        rewrite list_lookup_insert_ne; [done|]. intros <-. congruence.
  - assert (Hi : i < length (robots env)) by (by apply lookup_lt_Some in Hr).
    unfold dropped. split; simpl.
    + intros k rb' Hk Hne.
      apply list_lookup_insert_Some in Hk as [(-> & <- & _)|[Hki Hk]]; simpl in *; [done|].
      destruct (H1 k rb' Hk Hne) as (q & Hq & Hs). exists q. split; [|done].
      rewrite list_lookup_insert_ne; [done|]. intros E.
      apply Hki. apply (H2 i k robot rb'); auto. lia.
    + intros k1 k2 a b Ha Hb Hne E.
      apply list_lookup_insert_Some in Ha as [(-> & <- & _)|[Hk1 Ha]]; simpl in *; [done|].
      apply list_lookup_insert_Some in Hb as [(-> & <- & _)|[Hk2 Hb]]; simpl in *; [lia|].
      by eapply H2.
    + intros j' q Hq Hs.
      apply list_lookup_insert_Some in Hq as [(_ & <- & _)|[Hjj Hq]]; [done|].
      destruct (H3 j' q Hq Hs) as (k & rb & Hk & E). exists k, rb. split; [|done].
      rewrite list_lookup_insert_ne; [done|]. intros <-.
      assert (rb = robot) as -> by congruence. apply Hjj. rewrite E. simpl. lia.
Qed.

Lemma package_actions_tight actions :
  forall idx r env res env',
  Good env -> Tight env -> package_actions actions idx r env = (res, env') -> Tight env'.
Proof.
  induction idx as [|i idx IH]; intros r env res env' HG HT H; simpl in H.
  - unfold ret in H. by inversion H; subst.
  - destruct (actions !! i) as [[move pa]|]; [|unfold raise in H; by inversion H; subst].
    unfold bind in H. destruct (package_action i pa r env) as [[r1|e] env1] eqn:Hpa.
    + pose proof (package_action_tight _ _ _ _ _ _ HG HT Hpa) as HT1.
      apply (package_action_good _ _ _ _ _ _ HG) in Hpa as (HG1 & _).
      by eapply IH.
    + inversion H; subst. by eapply package_action_tight.
Qed.

Lemma reveal_in_transit tick p :
  status (reveal tick p) = InTransit -> reveal tick p = p.
Proof. unfold reveal. by destruct (start_time p =? tick)%Z. Qed.

Lemma reveal_tight env r :
  Good env -> Tight env ->
  Tight (set_packages (ticked env r) (reveal (t env + 1) <$> packages env)).
Proof.
  intros [_ _ Hun] [H1 H2 H3]. split; simpl.
  - intros i rb Hr Hne. destruct (H1 i rb Hr Hne) as (p & Hp & Hs).
    exists p. split; [|done]. rewrite list_lookup_fmap, Hp. simpl. f_equal.
    unfold reveal. destruct (start_time p =? t env + 1)%Z eqn:E; [|done].
    apply Z.eqb_eq in E. rewrite (Hun _ _ Hp) in Hs by lia. done.
  - done.
  - intros j p Hj Hs. rewrite list_lookup_fmap in Hj.
    destruct (packages env !! j) as [q|] eqn:Hq; [|done]. simpl in Hj.
    inversion Hj; subst. rewrite (reveal_in_transit _ _ Hs) in Hs. eauto.
Qed.

Lemma step_tight actions env res env' :
  Good env -> Tight env -> step actions env = (res, env') -> Tight env'.
Proof.
  intros HG HT. rewrite step_unfold. intros H.
  destruct (negb (length actions =? length (robots env))); [by inversion H; subst|].
  destruct (propose env actions) as [pr|]; [|by inversion H; subst].
  destruct (resolve (robots env) pr) as [fp|]; [|by inversion H; subst].
  destruct (update_positions actions fp (seq 0 (length (robots env))) r_zero env)
    as [res1 env1] eqn:Hup.
  apply update_positions_frame in Hup as (Hf1 & Hp1 & Hc1).
  assert (HG1 : Good env1) by (apply (Good_transfer env); auto; apply Hf1).
  assert (HT1 : Tight env1) by (by apply (Tight_transfer env)).
  destruct res1 as [r1|e]; [|by inversion H; subst].
  destruct (package_actions actions (seq 0 (length (robots env))) r1 env1)
    as [res2 env2] eqn:Hpk.
  pose proof (package_actions_tight _ _ _ _ _ _ HG1 HT1 Hpk) as HT2.
  apply (package_actions_good _ _ _ _ _ _ HG1) in Hpk as (HG2 & _).
  destruct res2 as [r2|e]; inversion H; subst; [|done].
  by apply reveal_tight.
Qed.

Lemma reset_tight env snap env' : reset env = (Ok snap, env') -> Tight env'.
Proof.
  intros H. pose proof (reset_robots_spec _ _ _ H) as (_ & _ & _ & _ & Hidle).
  apply reset_packages_shape in H as (l & _ & _ & Hp & _ & _).
  unfold idle in Hidle. rewrite Forall_lookup in Hidle. split.
  - intros i rb Hr Hne. by rewrite (Hidle i rb Hr) in Hne.
  - intros i k a b Ha _ Hne. by rewrite (Hidle i a Ha) in Hne.
  - intros j p Hj Hs. exfalso. rewrite Hp, list_lookup_fmap in Hj.
    destruct (make_packages 0 (sort_by_time l) !! j) as [q|] eqn:Hq; [|done].
    apply make_packages_fields in Hq as (_ & _ & _ & _ & Hst).
    simpl in Hj. inversion Hj; subst. unfold reveal in Hs.
    destruct (start_time q =? 0)%Z; simpl in Hs; congruence.
Qed.

End Carrying.

(** ** Whole episodes *)

Section Episodes.
Context {R : Type} {RO : RewardOps R}.
Implicit Types (env : Environment (R := R)) (actions : list action) (r : R).

(** What a call of [step] does to the clock, the account and the
    parameters, returning or raising. *)
Lemma step_frame actions env res env' :
  step actions env = (res, env') ->
  grid env' = grid env /\ max_time_steps env' = max_time_steps env /\
  move_cost env' = move_cost env /\ delivery_reward env' = delivery_reward env /\
  delay_reward env' = delay_reward env /\
  match res with
  | Ok (_, r, _, _) =>
      t env' = (t env + 1)%Z /\ total_reward env' = r_add (total_reward env) r
  | Raise _ => t env' = t env /\ total_reward env' = total_reward env
  end.
Proof.
  rewrite step_unfold. intros H.
  destruct (negb (length actions =? length (robots env)));
    [inversion H; subst; by repeat split|].
  destruct (propose env actions) as [pr|]; [|inversion H; subst; by repeat split].
  destruct (resolve (robots env) pr) as [fp|]; [|inversion H; subst; by repeat split].
  destruct (update_positions actions fp (seq 0 (length (robots env))) r_zero env)
    as [res1 env1] eqn:Hup.
  apply update_positions_frame in Hup as ([] & _ & _).
  destruct res1 as [r1|e]; [|inversion H; subst; by repeat split].
  destruct (package_actions actions (seq 0 (length (robots env))) r1 env1)
    as [res2 env2] eqn:Hpk.
  apply package_actions_frame in Hpk as [].
  destruct res2 as [r2|e]; inversion H; subst; simpl; repeat split; congruence.
Qed.

Lemma add_robot_only pos env res env' :
  add_robot pos env = (res, env') -> env' = set_robots env (robots env').
Proof.
  unfold add_robot. rewrite bind_get. cbv beta. intros H.
  apply bind_inv in H as [(free & env1 & H1 & H)|(e & H1 & _)];
    unfold lift in H1; inversion H1; subst; [|by destruct env'].
  destruct free; unfold modify, raise in H; inversion H; subst; [done|by destruct env'].
Qed.

Lemma place_robots_only n :
  forall g env res env',
  place_robots n g env = (res, env') ->
  env' = set_rng (set_robots env (robots env')) (rng env').
Proof.
  induction n as [|n IH]; intros g env res env' H; simpl in H.
  - unfold ret in H. inversion H; subst. by destruct env'.
  - apply bind_inv in H as [([pos g'] & env1 & H1 & H)|(e & H1 & _)];
      apply get_random_free_cell_draws in H1; unfold draws_only in H1.
    2:{ rewrite H1. done. }
    apply bind_inv in H as [(u & env2 & H2 & H)|(e & H2 & _)];
      apply add_robot_only in H2.
    + apply IH in H. rewrite H, H2, H1. done.
    + rewrite H2, H1. done.
Qed.

Lemma reset_params env snap env' :
  reset env = (Ok snap, env') ->
  grid env' = grid env /\ max_time_steps env' = max_time_steps env /\
  move_cost env' = move_cost env /\ delivery_reward env' = delivery_reward env /\
  delay_reward env' = delay_reward env /\
  t env' = 0%Z /\ total_reward env' = r_zero.
Proof.
  intros H. apply reset_ok_inv in H as (env1 & env2 & l & H1 & H2 & H3).
  apply place_robots_only in H1.
  apply (generate_packages_spec env1) in H2 as [Hd _]; [|apply draws_only_refl].
  rewrite get_state_spec in H3. inversion H3; subst. simpl.
  unfold draws_only in Hd. rewrite Hd. simpl. rewrite H1. done.
Qed.

Lemma run_clock rs env env' :
  run rs env env' ->
  t env' = (t env + Z.of_nat (length rs))%Z /\
  total_reward env' = foldl r_add (total_reward env) rs.
Proof.
  intros H.
  induction H as [env|rs env actions snap r done infos env1 env2 Hs Hr IH
                 |rs env actions e env1 env2 Hs Hr IH].
  - simpl. split; [lia|done].
  - apply step_frame in Hs as (_ & _ & _ & _ & _ & Ht & Hr1). destruct IH as [IHt IHr].
    rewrite IHt, IHr, Ht, Hr1. simpl. split; [lia|done].
  - apply step_frame in Hs as (_ & _ & _ & _ & _ & Ht & Hr1). destruct IH as [IHt IHr].
    rewrite IHt, IHr, Ht, Hr1. done.
Qed.
Lemma episode_invariant env0 snap env1 env2 :
  reset env0 = (Ok snap, env1) -> calls env1 env2 ->
  Good env2 /\ Tight env2 /\ grid env2 = grid env0 /\
  length (robots env2) = n_robots env0.
Proof.
  intros Hreset Hcalls.
  apply (calls_keeps (fun env => Good env /\ Tight env /\ grid env = grid env0 /\
                                 length (robots env) = n_robots env0))
    with (env := env1); [| |done].
  - intros actions env res env' (HG & HT & Hg & Hl) Hs.
    split; [by eapply step_good|]. split; [by eapply step_tight|].
    apply step_robots in Hs as (Hg' & Hl' & _). split; congruence.
  - split; [by eapply reset_good|]. split; [by eapply reset_tight|].
    apply reset_robots_spec in Hreset as (Hg & Hl & _). done.
Qed.

(** X8. From a successful [reset] on, across any number of [step] calls,
    whatever they return, carrying and package status agree: the id a robot
    carries is the id of a package in transit, no two robots carry the same
    package, and every package in transit is carried by a robot. *)
Theorem episode_carrying env0 snap env1 env2 :
  reset env0 = (Ok snap, env1) ->
  calls env1 env2 ->
  (forall i rb, robots env2 !! i = Some rb -> carrying rb <> 0 ->
     exists p, packages env2 !! (carrying rb - 1) = Some p /\
               package_id p = carrying rb /\ status p = InTransit) /\
  (forall i k a b, robots env2 !! i = Some a -> robots env2 !! k = Some b ->
     carrying a <> 0 -> carrying a = carrying b -> i = k) /\
  (forall p, elem_of p (packages env2) -> status p = InTransit ->
     exists rb, elem_of rb (robots env2) /\ carrying rb = package_id p).
Proof.
  intros Hreset Hcalls.
  destruct (episode_invariant _ _ _ _ Hreset Hcalls) as ([Hid _ _] & [H1 H2 H3] & _).
  split; [|split; [exact H2|]].
  - intros i rb Hr Hne. destruct (H1 i rb Hr Hne) as (p & Hp & Hs).
    exists p. split; [done|]. split; [|done]. rewrite (Hid _ _ Hp). lia.
  - intros p Hp Hs. apply list_elem_of_lookup in Hp as [j Hj].
    destruct (H3 j p Hj Hs) as (i & rb & Hr & E). exists rb.
    split; [by eapply list_elem_of_lookup_2|]. rewrite (Hid _ _ Hj). done.
Qed.

(** X9. The tick counts the calls of [step] that returned since [reset], a
    call that raised counts for nothing, and [total_reward] is the sum of
    the rewards those calls returned, added in order starting from zero. *)
Theorem episode_clock env0 snap env1 rs env2 :
  reset env0 = (Ok snap, env1) ->
  run rs env1 env2 ->
  t env2 = Z.of_nat (length rs) /\
  total_reward env2 = foldl r_add r_zero rs.
Proof.
  intros Hreset Hrun.
  apply reset_params in Hreset as (_ & _ & _ & _ & _ & Ht & Hr).
  apply run_clock in Hrun as [Ht2 Hr2]. rewrite Ht2, Hr2, Ht, Hr. split; [lia|done].
Qed.

(** X10. [reset] and [step] never write the map or the parameters of the
    scenario: after a [reset] and any number of [step] calls, the grid, the
    horizon and the three reward parameters are those of the start.  In
    particular the cells [reset] marks while it places the robots are marked
    on a copy. *)
Theorem episode_settings env0 snap env1 env2 :
  reset env0 = (Ok snap, env1) ->
  calls env1 env2 ->
  grid env2 = grid env0 /\ max_time_steps env2 = max_time_steps env0 /\
  move_cost env2 = move_cost env0 /\ delivery_reward env2 = delivery_reward env0 /\
  delay_reward env2 = delay_reward env0.
Proof.
  intros Hreset Hcalls.
  apply (calls_keeps (fun env =>
           grid env = grid env0 /\ max_time_steps env = max_time_steps env0 /\
           move_cost env = move_cost env0 /\ delivery_reward env = delivery_reward env0 /\
           delay_reward env = delay_reward env0)) with (env := env1); [| |done].
  - intros actions env res env' (H1 & H2 & H3 & H4 & H5) Hs.
    apply step_frame in Hs as (E1 & E2 & E3 & E4 & E5 & _). repeat split; congruence.
  - apply reset_params in Hreset as (E1 & E2 & E3 & E4 & E5 & _). done.
Qed.

(** X11. On a map no row of which is shorter than the first one, after a
    successful [reset] and any number of [step] calls, a [step] call returns
    exactly when it is given one action per robot: inside an episode no
    other input makes it raise. *)
Theorem episode_step_returns env0 snap env1 env2 actions :
  grid_ok env0 ->
  reset env0 = (Ok snap, env1) ->
  calls env1 env2 ->
  (exists out env3, step actions env2 = (Ok out, env3)) <->
  length actions = n_robots env0.
Proof.
  intros Hgrid Hreset Hcalls.
  destruct (episode_invariant _ _ _ _ Hreset Hcalls) as (HG & _ & Hg & Hlen).
  split.
  - intros (out & env3 & Hs). rewrite step_unfold in Hs.
    destruct (length actions =? length (robots env2)) eqn:E; simpl in Hs; [|done].
    apply Nat.eqb_eq in E. congruence.
  - intros Hl. apply step_total; [done| |congruence].
    unfold grid_ok, n_cols in *. by rewrite Hg.
Qed.

End Episodes.

(** ** Packages: snapshots, pick-up order, spawning *)

Lemma select_packages_reveal tick ps :
  (select_packages tick (reveal tick <$> ps)).1 = (select_packages tick ps).1.
Proof.
  induction ps as [|p ps IH]; [done|]. rewrite fmap_cons. simpl.
  destruct (select_packages tick (reveal tick <$> ps)) as [s1 l1].
  destruct (select_packages tick ps) as [s2 l2]. simpl in IH. subst.
  unfold reveal. destruct (start_time p =? tick)%Z eqn:E; simpl; rewrite E; [|done].
  simpl. f_equal.
Qed.

Lemma reveal_twice tick (ps : list Package) :
  reveal tick <$> (reveal tick <$> ps) = reveal tick <$> ps.
Proof.
  rewrite <- list_fmap_compose. apply list_fmap_ext. intros _ p _. simpl.
  unfold reveal. destruct (start_time p =? tick)%Z eqn:E; simpl; by rewrite E.
Qed.

Lemma pickup_scan_first pos tick ps :
  forall j0 k p,
  ps !! k = Some p -> available pos tick p ->
  (forall k' q, k' < k -> ps !! k' = Some q -> ~ available pos tick q) ->
  pickup_scan pos tick j0 ps = Some (j0 + k, p).
Proof.
  induction ps as [|q ps IH]; intros j0 k p Hk Hav Hmin; [done|]. simpl.
  destruct k as [|k]; simpl in Hk.
  - inversion Hk; subst. destruct Hav as (H1 & H2 & H3).
    rewrite !bool_decide_eq_true_2 by done. apply Z.leb_le in H3. rewrite H3. simpl.
    by rewrite Nat.add_0_r.
  - destruct (bool_decide (status q = Waiting) && bool_decide (start q = pos)
              && (start_time q <=? tick)%Z) eqn:E.
    + exfalso. apply (Hmin 0 q); [lia|done|].
      apply andb_true_iff in E as [E E3]. apply andb_true_iff in E as [E1 E2].
      apply bool_decide_eq_true in E1, E2. apply Z.leb_le in E3. done.
    + rewrite (IH (S j0) k p); [f_equal; f_equal; lia|done|done|].
      intros k' q' Hk' Hq'. apply (Hmin (S k')); [lia|done].
Qed.

Section Packages.
Context {R : Type} {RO : RewardOps R}.
Implicit Types (env : Environment (R := R)) (actions : list action) (r : R).

(** What [reset] makes of a generated tuple. *)
Lemma reset_package_lookup env snap env' :
  reset env = (Ok snap, env') ->
  forall j p, packages env' !! j = Some p ->
    tuple_ok env (start_time p, start p, target p, deadline p) /\
    status p = (if (start_time p =? 0)%Z then Waiting else StNone).
Proof.
  intros H j p Hj. apply reset_packages_shape in H as (l & _ & Hok & Hp & _ & _).
  rewrite Hp, list_lookup_fmap in Hj.
  destruct (make_packages 0 (sort_by_time l) !! j) as [q|] eqn:Hq; [|done].
  simpl in Hj. inversion Hj; subst. clear Hj.
  apply make_packages_fields in Hq as (tup & Htup & Hf & _ & Hst).
  assert (Hin : elem_of tup l).
  { rewrite <- (sort_by_time_perm l). apply list_elem_of_lookup. eauto. }
  rewrite Forall_forall in Hok. specialize (Hok tup Hin).
  unfold reveal. destruct (start_time q =? 0)%Z eqn:E; simpl; rewrite ?E.
  - split; [by rewrite Hf|done].
  - split; [by rewrite Hf|done].
Qed.

Lemma Shown_later env env' :
  Shown env -> advances (packages env) (packages env') -> t env' = t env -> Shown env'.
Proof.
  intros Hs Ha Ht j p' Hj Hle. apply advances_lookup in Ha as [Hlen Ha].
  destruct (lookup_lt_is_Some_2 (packages env) j) as [p Hp].
  { rewrite Hlen. by apply lookup_lt_Some in Hj. }
  destruct (Ha j p p' Hp Hj) as [E Hr].
  assert (Hst : start_time p' = start_time p) by (rewrite E; by destruct p).
  rewrite Ht, Hst in Hle. specialize (Hs j p Hp Hle).
  intros Hn. rewrite Hn in Hr. simpl in Hr. destruct (status p); simpl in Hr; [done|lia..].
Qed.

Lemma Shown_reveal env r :
  Shown env ->
  Shown (set_packages (ticked env r) (reveal (t env + 1) <$> packages env)).
Proof.
  intros Hs j p' Hj Hle. simpl in *. rewrite list_lookup_fmap in Hj.
  destruct (packages env !! j) as [q|] eqn:Hq; [|done]. simpl in Hj.
  inversion Hj; subst. clear Hj. unfold reveal in *.
  destruct (start_time q =? t env + 1)%Z eqn:E; simpl in *; [done|].
  apply Z.eqb_neq in E. apply (Hs j q Hq). lia.
Qed.

Lemma step_shown actions env res env' :
  Good env -> Shown env -> step actions env = (res, env') -> Shown env'.
Proof.
  intros HG HS. rewrite step_unfold. intros H.
  destruct (negb (length actions =? length (robots env))); [by inversion H; subst|].
  destruct (propose env actions) as [pr|]; [|by inversion H; subst].
  destruct (resolve (robots env) pr) as [fp|]; [|by inversion H; subst].
  destruct (update_positions actions fp (seq 0 (length (robots env))) r_zero env)
    as [res1 env1] eqn:Hup.
  apply update_positions_frame in Hup as (Hf1 & Hp1 & Hc1).
  assert (HG1 : Good env1) by (apply (Good_transfer env); auto; apply Hf1).
  assert (HS1 : Shown env1).
  { apply (Shown_later env); [done| |apply Hf1]. rewrite Hp1. apply advances_refl. }
  destruct res1 as [r1|e]; [|by inversion H; subst].
  destruct (package_actions actions (seq 0 (length (robots env))) r1 env1)
    as [res2 env2] eqn:Hpk.
  apply (package_actions_good _ _ _ _ _ _ HG1) in Hpk as (HG2 & Ha2 & Hf2 & _).
  assert (HS2 : Shown env2) by (apply (Shown_later env1); [done..|apply Hf2]).
  destruct res2 as [r2|e]; inversion H; subst; [|done].
  by apply Shown_reveal.
Qed.

(** X12. [get_state] can be called again at the same tick: the second call
    returns the snapshot of the first and leaves the environment as the
    first left it. *)
Theorem get_state_idempotent env :
  get_state (get_state env).2 = get_state env.
Proof.
  rewrite (get_state_spec env). simpl. rewrite get_state_spec. simpl.
  by rewrite select_packages_reveal, reveal_twice.
Qed.

(** The pick-up branch of [package_action], for a robot that carries
    nothing. *)
Lemma package_action_pickup env i robot j p r :
  robots env !! i = Some robot ->
  carrying robot = 0 ->
  packages env !! j = Some p ->
  available (position robot) (t env) p ->
  (forall k q, k < j -> packages env !! k = Some q ->
               ~ available (position robot) (t env) q) ->
  package_action i "1" r env = (Ok r, picked_up env i robot j p).
Proof.
  intros Hr Hc Hp Hav Hmin. unfold package_action. unfold_M. rewrite Hr.
  destruct (decide ("1" = "1")) as [_|]; [|done]. rewrite Hc. simpl.
  by rewrite (pickup_scan_first _ _ _ 0 j p Hp Hav Hmin).
Qed.

(** X15. [reset] returns only if the map has room: at least as many free
    cells as robots, and at least two free cells when there is a package to
    generate. *)
Theorem reset_needs_room env snap env' cs :
  reset env = (Ok snap, env') ->
  free_cells env (grid env) = Ok cs ->
  n_robots env <= length cs /\ (0 < n_packages env -> 2 <= length cs).
Proof.
  intros H Hcs.
  assert (Hin : forall c, is_free_cell env c = Ok true -> elem_of c cs).
  { intros c Hc. apply is_free_cell_true in Hc.
    by apply (free_cells_elem env (grid env) cs c Hcs). }
  split.
  - apply reset_robots_spec in H as (Hg & Hlen & Hnd & Hfree & _).
    rewrite <- Hlen, <- (length_fmap position). apply submseteq_length.
    apply NoDup_submseteq; [done|]. intros c Hc.
    apply list_elem_of_fmap in Hc as (rb & -> & Hrb). apply Hin.
    unfold on_free_cells in Hfree. rewrite Forall_forall in Hfree.
    rewrite <- (is_free_cell_grid env env'); [by apply Hfree|done].
  - intros Hn. apply reset_packages_shape in H as (l & Hlen & Hok & _).
    destruct l as [|tup l]; simpl in Hlen; [lia|].
    apply Forall_cons in Hok as [(Hne & Hs & Ht & _) _].
    change 2 with (length [tup.1.1.2; tup.1.2]). apply submseteq_length.
    apply NoDup_submseteq.
    + apply NoDup_cons. split; [by rewrite list_elem_of_singleton|].
      apply NoDup_singleton.
    + intros c Hc. apply elem_of_cons in Hc as [->|Hc]; [by apply Hin|].
      apply list_elem_of_singleton in Hc as ->. by apply Hin.
Qed.

(** X16. On a map that holds nothing but 0 and 1, the test [reset] uses to
    place robots and packages ([is_free_cell]) and the test [step] uses to
    accept a move ([valid_position]) give the same answer on every cell,
    inside the map or not. *)
Theorem free_iff_valid env c :
  binary_grid env -> is_free_cell env c = valid_position env c.
Proof.
  intros Hb. destruct c as [r c]. unfold is_free_cell, valid_position.
  destruct (out_of_bounds env r c); [done|].
  unfold grid_at. destruct (grid env !! Z.to_nat r) as [row|] eqn:Hrow; [|done].
  destruct (row !! Z.to_nat c) as [v|] eqn:Hv; [|done].
  destruct (Hb row v) as [->| ->]; [by eapply list_elem_of_lookup_2..|done|done].
Qed.

(** X17. From a successful [reset] on, across any number of [step] calls,
    whatever they return, a package has its initial status exactly as long
    as the tick has not reached its spawn time. *)
Theorem episode_visibility env0 snap env1 env2 :
  reset env0 = (Ok snap, env1) ->
  calls env1 env2 ->
  forall p, elem_of p (packages env2) ->
    (status p = StNone <-> (t env2 < start_time p)%Z).
Proof.
  intros Hreset Hcalls.
  assert (HI : Good env2 /\ Shown env2).
  { apply (calls_keeps (fun env => Good env /\ Shown env)) with (env := env1); [| |done].
    - intros actions env res env' [HG HS] Hs.
      split; [by eapply step_good|by eapply step_shown].
    - destruct (reset_good _ _ _ Hreset) as [HG Ht]. split; [done|].
      intros j p Hj Hle. destruct (reset_package_lookup _ _ _ Hreset j p Hj)
        as [(_ & _ & _ & H0 & _) Hst]. simpl in H0. rewrite Ht in Hle.
      assert (E : (start_time p =? 0)%Z = true) by (apply Z.eqb_eq; lia).
      rewrite E in Hst. by rewrite Hst. }
  destruct HI as [[_ _ Hun] HS]. intros p Hp.
  apply list_elem_of_lookup in Hp as [j Hj]. split.
  - intros Hn. destruct (decide (t env2 < start_time p)%Z) as [|Hge]; [done|].
    exfalso. apply (HS j p Hj); [lia|done].
  - by apply (Hun j).
Qed.

End Packages.

(** ** One stage per step *)

Section Stages.
Context {R : Type} {RO : RewardOps R}.
Implicit Types (env : Environment (R := R)) (actions : list action) (r : R).

Lemma Staged_start rest env : Staged rest env env.
Proof. intros j p0 p H0 H. left. congruence. Qed.

Lemma Staged_weaken rest rest' env0 env :
  (forall i, elem_of i rest' -> elem_of i rest) ->
  Staged rest env0 env -> Staged rest' env0 env.
Proof.
  intros Hsub HS j p0 p Hp0 Hp.
  destruct (HS j p0 p Hp0 Hp) as [E|[(E1 & E2 & Hcar)|E]];
    [by left| |by right; right].
  right; left. split; [done|]. split; [done|].
  intros k rb Hk Hck Hin. apply (Hcar k rb Hk Hck). by apply Hsub.
Qed.

Lemma package_action_staged i rest pa r env0 env res env' :
  Good env -> Tight env -> ~ elem_of i rest ->
  Staged (i :: rest) env0 env ->
  package_action i pa r env = (res, env') ->
  Staged rest env0 env'.
Proof.
  intros [Hid _ _] [H1 H2 H3] Hni HS H.
  assert (Hsub : forall k, elem_of k rest -> elem_of k (i :: rest)).
  { intros k Hk. apply elem_of_cons. by right. }
  apply package_action_cases in H
    as [[-> _]|[(robot & j & p & -> & Hr & Hc & Hp & Hst & Hpos & Htime & -> & ->)
               |(robot & pkg & -> & Hr & Hc & Hp & Hpos & -> & ->)]].
  - by apply (Staged_weaken (i :: rest)).
  - unfold picked_up. intros j' p0 p' Hp0 Hp'. simpl in Hp'.
    apply list_lookup_insert_Some in Hp' as [(<- & <- & _)|[Hne Hp']].
    + right; left.
      destruct (HS j p0 p Hp0 Hp) as [E|[(E1 & E2 & _)|[_ E]]]; [|congruence..].
      split; [congruence|]. split; [done|].
      intros k rb Hk Hck. simpl in Hk.
      apply list_lookup_insert_Some in Hk as [(<- & <- & _)|[Hki Hk]]; [done|].
      exfalso. destruct (H1 k rb Hk) as (q & Hq & Hs); [lia|].
      rewrite Hck in Hq. simpl in Hq. rewrite Nat.sub_0_r in Hq. congruence.
    + destruct (HS j' p0 p' Hp0 Hp') as [E|[(E1 & E2 & Hcar)|E]];
        [by left| |by right; right].
      right; left. split; [done|]. split; [done|].
      intros k rb Hk Hck Hin. simpl in Hk.
      apply list_lookup_insert_Some in Hk as [(<- & <- & _)|[Hki Hk]].
      * simpl in Hck. rewrite (Hid _ _ Hp) in Hck. apply Hne. lia.
      * apply (Hcar k rb Hk Hck). by apply Hsub.
  - unfold dropped. intros j' p0 p' Hp0 Hp'. simpl in Hp'.
    apply list_lookup_insert_Some in Hp' as [(<- & <- & _)|[Hne Hp']].
    + right; right.
      destruct (H1 i robot Hr Hc) as (q & Hq & Hs).
      assert (q = pkg) as -> by congruence.
      destruct (HS _ p0 pkg Hp0 Hp) as [E|[(E1 & E2 & Hcar)|[_ E]]].
      * split; [congruence|done].
      * exfalso. apply (Hcar i robot Hr); [lia|]. apply elem_of_cons. by left.
      * congruence.
    + destruct (HS j' p0 p' Hp0 Hp') as [E|[(E1 & E2 & Hcar)|E]];
        [by left| |by right; right].
      right; left. split; [done|]. split; [done|].
      intros k rb Hk Hck Hin. simpl in Hk.
      apply list_lookup_insert_Some in Hk as [(<- & <- & _)|[Hki Hk]]; [done|].
      apply (Hcar k rb Hk Hck). by apply Hsub.
Qed.

Lemma package_actions_staged actions env0 :
  forall idx r env res env',
  NoDup idx -> Good env -> Tight env -> Staged idx env0 env ->
  package_actions actions idx r env = (res, env') ->
  Staged [] env0 env'.
Proof.
  assert (Hnil : forall rest env, Staged rest env0 env -> Staged [] env0 env).
  { intros rest env. apply Staged_weaken. intros i Hi. by apply elem_of_nil in Hi. }
  induction idx as [|i idx IH]; intros r env res env' Hnd HG HT HS H; simpl in H.
  - unfold ret in H. by inversion H; subst.
  - apply NoDup_cons in Hnd as [Hni Hnd].
    destruct (actions !! i) as [[move pa]|];
      [|unfold raise in H; inversion H; subst; by eapply Hnil].
    unfold bind in H. destruct (package_action i pa r env) as [[r1|e] env1] eqn:Hpa.
    + pose proof (package_action_staged _ _ _ _ _ _ _ _ HG HT Hni HS Hpa) as HS1.
      pose proof (package_action_tight _ _ _ _ _ _ HG HT Hpa) as HT1.
      apply (package_action_good _ _ _ _ _ _ HG) in Hpa as (HG1 & _).
      by eapply IH.
    + inversion H; subst. eapply Hnil. by eapply package_action_staged.
Qed.

Lemma Staged_stage rest env0 env tick j p0 p :
  Staged rest env0 env ->
  packages env0 !! j = Some p0 -> packages env !! j = Some p -> stage tick p0 p.
Proof.
  intros HS Hp0 Hp. unfold stage.
  destruct (HS j p0 p Hp0 Hp) as [E|[(E1 & E2 & _)|E]]; auto.
Qed.

Lemma step_stage actions env res env' :
  Good env -> Tight env -> step actions env = (res, env') ->
  forall j p p', packages env !! j = Some p -> packages env' !! j = Some p' ->
    stage (t env + 1) p p'.
Proof.
  intros HG HT. rewrite step_unfold. intros H j p p' Hp Hp'.
  assert (Hsame : packages env !! j = Some p' -> stage (t env + 1) p p').
  { intros E. left. congruence. }
  destruct (negb (length actions =? length (robots env)));
    [inversion H; subst; auto|].
  destruct (propose env actions) as [pr|]; [|inversion H; subst; auto].
  destruct (resolve (robots env) pr) as [fp|]; [|inversion H; subst; auto].
  destruct (update_positions actions fp (seq 0 (length (robots env))) r_zero env)
    as [res1 env1] eqn:Hup.
  apply update_positions_frame in Hup as (Hf1 & Hp1 & Hc1).
  assert (HG1 : Good env1) by (apply (Good_transfer env); auto; apply Hf1).
  assert (HT1 : Tight env1) by (by apply (Tight_transfer env)).
  destruct res1 as [r1|e]; [|inversion H; subst; apply Hsame; congruence].
  destruct (package_actions actions (seq 0 (length (robots env))) r1 env1)
    as [res2 env2] eqn:Hpk.
  pose proof (package_actions_staged _ env1 _ _ _ _ _ (NoDup_seq _ _) HG1 HT1
                (Staged_start _ _) Hpk) as HS2.
  apply (package_actions_good _ _ _ _ _ _ HG1) in Hpk as (HG2 & Ha2 & Hf2 & _).
  rewrite <- Hp1 in Hp.
  destruct res2 as [r2|e]; inversion H; subst; [|by eapply Staged_stage].
  simpl in Hp'. rewrite list_lookup_fmap in Hp'.
  destruct (packages env2 !! j) as [q|] eqn:Hq; [|done]. simpl in Hp'.
  inversion Hp'; subst. clear Hp'.
  assert (Ht2 : t env2 = t env).
  { rewrite (frame_t _ _ Hf2). apply Hf1. }
  unfold reveal. destruct (start_time q =? t env2 + 1)%Z eqn:E.
  - apply Z.eqb_eq in E.
    assert (Hn : status q = StNone) by (apply (good_unrevealed _ HG2 j); [done|lia]).
    apply advances_lookup in Ha2 as [_ Ha2]. destruct (Ha2 j p q Hp Hq) as [Eq _].
    assert (Hst : start_time q = start_time p) by (rewrite Eq; by destruct p).
    right; left. simpl.
    destruct (HS2 j p q Hp Hq) as [E1|[(_ & E1 & _)|[_ E1]]]; [|congruence..].
    split; [congruence|]. split; [done|]. lia.
  - by eapply Staged_stage.
Qed.

(** X14. In an episode a package goes through at most one stage in a
    [step] call, whatever the call returns: it keeps its status, or it
    spawns, or it is picked up, or it is delivered.  No package is picked up
    in the step it appears in, or delivered in the step it is picked up
    in. *)
Theorem one_stage_per_step env0 snap env1 env2 actions res env3 :
  reset env0 = (Ok snap, env1) ->
  calls env1 env2 ->
  step actions env2 = (res, env3) ->
  forall j p p', packages env2 !! j = Some p -> packages env3 !! j = Some p' ->
    stage (t env2 + 1) p p'.
Proof.
  intros Hreset Hcalls Hstep.
  destruct (episode_invariant _ _ _ _ Hreset Hcalls) as (HG & HT & _).
  by eapply step_stage.
Qed.

End Stages.

(** ** Convoys *)

Section Convoy.
Context {R : Type} {RO : RewardOps R}.
Implicit Types (env : Environment (R := R)) (actions : list action) (r : R).

(** X18. Robots on pairwise distinct cells; robot [b] is the only one to
    propose cell [c], on which no robot stands, and robot [a] is the only
    one to propose the cell [b] stands on: [b] moves to [c] and [a] takes
    the cell [b] leaves, whichever of the two has the lower index. *)
Theorem follower_moves env actions pr a b rb c :
  NoDup (position <$> robots env) ->
  propose env actions = Ok pr ->
  a <> b ->
  robots env !! b = Some rb ->
  (forall rk, elem_of rk (robots env) -> position rk <> c) ->
  proposed_positions pr !! b = Some c ->
  (forall k, k <> b -> proposed_positions pr !! k <> Some c) ->
  proposed_positions pr !! a = Some (position rb) ->
  (forall k, k <> a -> proposed_positions pr !! k <> Some (position rb)) ->
  exists fp,
    resolve (robots env) pr = Ok fp /\
    fp !! b = Some (Some c) /\
    fp !! a = Some (Some (position rb)).
Proof.
  intros Hnd Hpr Hab Hb Hfree Hpb Hsole_b Hpa Hsole_a.
  pose proof (propose_old_pos _ _ _ Hnd Hpr) as Hold.
  destruct (propose_proposed _ _ _ Hpr) as [Hlen _].
  assert (Hla : a < length (robots env)).
  { rewrite <- Hlen. by apply lookup_lt_Some in Hpa. }
  assert (Hlb : b < length (robots env)) by (by apply lookup_lt_Some in Hb).
  assert (Hta : proposed_positions pr !!! a = position rb)
    by (by apply list_lookup_total_correct).
  assert (Htb : proposed_positions pr !!! b = c) by (by apply list_lookup_total_correct).
  assert (Hcb : c <> position rb).
  { intros E. apply (Hfree rb); [by eapply list_elem_of_lookup_2|done]. }
  assert (Hoc : old_pos pr !! c = None).
  { destruct (old_pos pr !! c) as [j|] eqn:E; [|done]. exfalso.
    apply Hold in E. destruct (robots env !! j) as [rj|] eqn:Hrj; [|done].
    simpl in E. inversion E as [E']. apply (Hfree rj); [|done].
    apply list_elem_of_lookup. eauto. }
  assert (Hob : old_pos pr !! position rb = Some b).
  { apply Hold. by rewrite Hb. }
  set (n := length (robots env)) in *.
  assert (Hsb : forall k, k < n -> proposed_positions pr !!! k = c -> k = b).
  { intros k Hk E. destruct (decide (k = b)) as [|Hne]; [done|]. exfalso.
    apply (Hsole_b k Hne). rewrite <- E. apply list_lookup_lookup_total_lt. lia. }
  assert (Hsa : forall k, k < n -> proposed_positions pr !!! k = position rb -> k = a).
  { intros k Hk E. destruct (decide (k = a)) as [|Hne]; [done|]. exfalso.
    apply (Hsole_a k Hne). rewrite <- E. apply list_lookup_lookup_total_lt. lia. }
  assert (Hpos_b : forall k, k < n -> position (robots env !!! k) = position rb -> k = b).
  { intros k Hk E. pose proof (position_lookup (robots env) k Hk) as Hp.
    apply Hold in Hp. rewrite E, Hob in Hp. congruence. }
  assert (Hpos_c : forall k, k < n -> position (robots env !!! k) <> c).
  { intros k Hk E. pose proof (position_lookup (robots env) k Hk) as Hp.
    apply Hold in Hp. rewrite E, Hoc in Hp. done. }
  destruct (resolve_outcome_first (robots env) pr Hold
    (fun st =>
       (forall x, is_Some (occupied st !! x) ->
          exists k, k < n /\ computed_moved st !!! k <> 0 /\
                    final_positions st !! k = Some (Some x)) /\
       (computed_moved st !!! b <> 0 -> final_positions st !! b = Some (Some c)) /\
       (computed_moved st !!! a <> 0 ->
        final_positions st !! a = Some (Some (position rb)))))
    as (st & fp & Hres & Hinv & (Hocc & HB & HA) & Hstop & Hout).
  - intros st i Hinv (Hocc & HB & HA) Hi Hcan Hfirst. unfold decision.
    pose proof (can_decide_zero _ _ _ Hcan) as Hzi.
    destruct (decide_robot_fields i (position (robots env !!! i))
                (proposed_positions pr !!! i) st) as (x & Ec & Ef & Eo & Hx).
    rewrite Ec, Ef, Eo.
    assert (Hlc : length (computed_moved st) = n) by apply Hinv.
    assert (Hlf : length (final_positions st) = n) by apply Hinv.
    assert (Hclaim : forall y, is_Some (occupied st !! y) ->
      exists k, k < n /\ k <> i /\ computed_moved st !!! k <> 0 /\
                final_positions st !! k = Some (Some y) /\
                (proposed_positions pr !!! k = y \/ position (robots env !!! k) = y)).
    { intros y Hy. destruct (Hocc y Hy) as (k & Hk & Hck & Hfk). exists k.
      split; [done|]. split; [congruence|]. split; [done|]. split; [done|].
      destruct (inv_choice _ _ _ Hinv k Hk Hck) as [E|E];
        rewrite E in Hfk; inversion Hfk; auto. }
    split; [|split].
    + intros y Hy. destruct (decide (y = x)) as [->|Hne].
      * exists i. split; [done|].
        split; [by rewrite list_lookup_total_insert_eq by lia|].
        by rewrite list_lookup_insert_eq by lia.
      * rewrite lookup_insert_ne in Hy by done.
        destruct (Hocc y Hy) as (k & Hk & Hck & Hfk).
        assert (Hki : k <> i) by congruence. exists k. split; [done|].
        by rewrite list_lookup_total_insert_ne, list_lookup_insert_ne.
    + intros Hc. destruct (decide (i = b)) as [->|Hne].
      * rewrite list_lookup_insert_eq by lia. f_equal. f_equal.
        destruct Hx as [[-> _]|[_ Hs]]; [done|]. exfalso. rewrite Htb in Hs.
        destruct (Hclaim c Hs) as (k & Hk & Hki & Hck & _ & [E|E]).
        -- apply Hki. by apply Hsb.
        -- by apply (Hpos_c k).
      * rewrite list_lookup_total_insert_ne in Hc by done.
        rewrite list_lookup_insert_ne by done. auto.
    + intros Hc. destruct (decide (i = a)) as [->|Hne].
      * rewrite list_lookup_insert_eq by lia. f_equal. f_equal.
        destruct Hx as [[-> _]|[_ Hs]]; [done|]. exfalso. rewrite Hta in Hs.
        assert (Hbd : computed_moved st !!! b <> 0).
        { unfold can_decide in Hcan. rewrite Hta, Hob in Hcan.
          apply andb_true_iff in Hcan as [_ Hcan]. apply negb_true_iff in Hcan.
          apply andb_false_iff in Hcan as [Hcan|Hcan].
          - apply negb_false_iff, Nat.eqb_eq in Hcan. congruence.
          - by apply Nat.eqb_neq in Hcan. }
        destruct (Hclaim (position rb) Hs) as (k & Hk & Hki & Hck & Hfk & [E|E]).
        -- apply Hki. by apply Hsa.
        -- assert (k = b) as -> by (by apply Hpos_b).
           rewrite (HB Hbd) in Hfk. congruence.
      * rewrite list_lookup_total_insert_ne in Hc by done.
        rewrite list_lookup_insert_ne by done. auto.
  - split; [|split].
    + intros x Hx. simpl in Hx. rewrite lookup_empty in Hx. by destruct Hx.
    + intros Hz. simpl in Hz. by rewrite lookup_total_replicate_2 in Hz.
    + intros Hz. simpl in Hz. by rewrite lookup_total_replicate_2 in Hz.
  - assert (Hbd : computed_moved st !!! b <> 0).
    { intros Hz. pose proof (Hstop b Hlb) as Hs. unfold can_decide in Hs.
      by rewrite Hz, Htb, Hoc in Hs. }
    assert (Had : computed_moved st !!! a <> 0).
    { intros Hz. pose proof (Hstop a Hla) as Hs. unfold can_decide in Hs.
      rewrite Hz, Hta, Hob in Hs. simpl in Hs.
      apply negb_false_iff, andb_true_iff in Hs as [_ Hs].
      by apply Nat.eqb_eq in Hs. }
    exists fp. split; [done|]. split.
    + destruct (Hout b Hlb) as [[Hz _]|[_ E]]; [done|]. rewrite E. auto.
    + destruct (Hout a Hla) as [[Hz _]|[_ E]]; [done|]. rewrite E. auto.
Qed.

End Convoy.

(** ** The simulation loop *)

Section Driver.
Context {R : Type} {RO : RewardOps R} {A : Type}.
Variable get_actions : A -> Snapshot -> list action * A.
Implicit Types (env : Environment (R := R)) (actions : list action) (agents : A).

Lemma step_done_at_horizon actions env snap r done infos env' :
  step actions env = (Ok (snap, r, done, infos), env') ->
  (t env + 1)%Z = max_time_steps env -> done = true.
Proof.
  intros H Hmax. apply step_ok_inv in H
    as (pr & fp & r1 & env1 & env2 & _ & _ & _ & Hup & Hpk & Hdone & _ & _).
  apply update_positions_frame in Hup as (Hf1 & _ & _).
  apply package_actions_frame in Hpk.
  pose proof (frame_trans _ _ _ Hf1 Hpk) as Hf.
  rewrite Hdone. unfold check_terminate. simpl.
  rewrite (frame_t _ _ Hf), (frame_max _ _ Hf), Hmax. by rewrite Z.eqb_refl.
Qed.

Lemma main_loop_from n T :
  (forall agents s, length (get_actions agents s).1 = n) ->
  forall fuel env agents state,
  Good env -> grid_ok env -> length (robots env) = n -> max_time_steps env = T ->
  (t env + Z.of_nat (S fuel))%Z = T ->
  exists out env',
    main_loop get_actions (S fuel) agents state env = (Ok out, env') /\
    (t env < t env' <= T)%Z.
Proof.
  intros Hact. induction fuel as [|fuel IH]; intros env agents state HG Hgrid Hlen Hmax Ht.
  all: cbn [main_loop]; pose proof (Hact agents state) as Hl;
    destruct (get_actions agents state) as [actions ag'] eqn:Hga; simpl in Hl;
    destruct (step_total env actions HG Hgrid) as ([[[snap r] done] infos] & env1 & Hs);
    [congruence|]; unfold bind at 1; rewrite Hs;
    pose proof (step_frame _ _ _ _ Hs) as (Hg1 & Hm1 & _ & _ & _ & Ht1 & _);
    destruct done.
  - unfold ret. eexists _, _. split; [done|]. lia.
  - apply step_done_at_horizon in Hs; [done|lia].
  - unfold ret. eexists _, _. split; [done|]. lia.
  - destruct (IH env1 ag' snap) as (out & env' & Hrun & Hb).
    + by eapply step_good.
    + unfold grid_ok, n_cols in *. by rewrite Hg1.
    + apply step_robots in Hs as (_ & Hl1 & _). congruence.
    + congruence.
    + lia.
    + exists out, env'. split; [done|]. lia.
Qed.

(** X19. The loop of [main], started on the snapshot of a successful
    [reset] on a map no row of which is shorter than the first one, with a
    horizon of at least one tick and agents that give one action per robot:
    it ends, after at most [max_time_steps] calls of [step], none of which
    raises. *)
Theorem main_loop_ends env0 snap env1 agents :
  grid_ok env0 ->
  (0 < max_time_steps env0)%Z ->
  reset env0 = (Ok snap, env1) ->
  (forall ag s, length (get_actions ag s).1 = n_robots env0) ->
  exists out env2,
    main_loop get_actions (Z.to_nat (max_time_steps env0)) agents snap env1
      = (Ok out, env2) /\
    (0 < t env2 <= max_time_steps env0)%Z.
Proof.
  intros Hgrid Hpos Hreset Hact.
  destruct (episode_invariant _ _ _ _ Hreset (calls_nil env1)) as (HG & _ & Hg & Hlen).
  apply reset_params in Hreset as (_ & Hm & _ & _ & _ & Ht & _).
  destruct (Z.to_nat (max_time_steps env0)) as [|fuel] eqn:E; [lia|].
  destruct (main_loop_from (n_robots env0) (max_time_steps env0) Hact fuel env1 agents snap)
    as (out & env2 & Hrun & Hb); auto.
  - unfold grid_ok, n_cols in *. by rewrite Hg.
  - lia.
  - exists out, env2. split; [done|]. lia.
Qed.

End Driver.

(** ** What earns nothing *)

Section Rewards.
Context {R : Type} {RO : RewardOps R}.
Implicit Types (env : Environment (R := R)) (actions : list action) (r : R).

Lemma update_positions_free actions fp :
  (forall i move pa, actions !! i = Some (move, pa) -> is_LRUD move = false) ->
  forall idx r env r' env',
  update_positions actions fp idx r env = (Ok r', env') -> r' = r.
Proof.
  intros Hfree. induction idx as [|i idx IH]; intros r env r' env' H.
  - simpl in H. unfold ret in H. by inversion H.
  - rewrite update_positions_cons in H.
    destruct (robots env !! i) as [robot|]; [|done].
    destruct (actions !! i) as [[move pa]|] eqn:Ha; [|done].
    destruct (fp !! i) as [[fin|]|]; [|done..].
    rewrite (Hfree i move pa Ha) in H. simpl in H. by apply IH in H.
Qed.

Lemma package_actions_free actions :
  (forall i move pa, actions !! i = Some (move, pa) -> pa <> "2") ->
  forall idx r env r' env',
  package_actions actions idx r env = (Ok r', env') -> r' = r.
Proof.
  intros Hfree. induction idx as [|i idx IH]; intros r env r' env' H; simpl in H.
  - unfold ret in H. by inversion H.
  - destruct (actions !! i) as [[move pa]|] eqn:Ha; [|done].
    unfold bind in H. destruct (package_action i pa r env) as [[r1|e] env1] eqn:Hpa; [|done].
    apply IH in H. subst r'.
    apply package_action_cases in Hpa
      as [[_ [E|E]]|[(robot & j & p & _ & _ & _ & _ & _ & _ & _ & E & _)
                     |(robot & pkg & E & _)]]; [congruence..|].
    by apply Hfree in Ha.
Qed.

(** X20. Only a move among L, R, U, D and a drop can change the reward of
    a step: when no robot is sent one of these four moves and none is told
    to drop, the step returns the reward zero, whatever the robots pick
    up. *)
Theorem free_actions_earn_nothing env actions snap r done infos env' :
  (forall i move pa, actions !! i = Some (move, pa) ->
     ~ elem_of move ["L"; "R"; "U"; "D"] /\ pa <> "2") ->
  step actions env = (Ok (snap, r, done, infos), env') ->
  r = r_zero.
Proof.
  intros Hfree H. apply step_ok_inv in H
    as (pr & fp & r1 & env1 & env2 & _ & _ & _ & Hup & Hpk & _).
  apply update_positions_free in Hup.
  2:{ intros i move pa Ha. apply bool_decide_eq_false. by apply (Hfree i move pa). }
  apply package_actions_free in Hpk.
  2:{ intros i move pa Ha. by apply (Hfree i move pa). }
  congruence.
Qed.

End Rewards.

(** ** The reward of a step, robot by robot *)

Lemma foldl_elem_ext {A B} (f g : A -> B -> A) (l : list B) :
  forall a b,
  (forall c x, elem_of x l -> f c x = g c x) -> a = b ->
  foldl f a l = foldl g b l.
Proof.
  induction l as [|x l IH]; intros a b H ->; simpl; [done|].
  apply IH.
  - intros c y Hy. apply H. by right.
  - apply H. by left.
Qed.

Lemma seq_split i n : i < n -> seq 0 n = seq 0 i ++ i :: seq (S i) (n - S i).
Proof.
  intros Hi. replace n with (i + S (n - S i)) at 1 by lia.
  by rewrite seq_app.
Qed.

Lemma restaged_lookup ps ps' :
  restaged ps ps' <->
  length ps = length ps' /\
  forall j p p', ps !! j = Some p -> ps' !! j = Some p' -> p' = set_status p (status p').
Proof. unfold restaged. apply Forall2_same_length_lookup. Qed.

Lemma restaged_refl ps : restaged ps ps.
Proof.
  apply restaged_lookup. split; [done|]. intros j p p' H1 H2.
  assert (p' = p) as -> by congruence. apply set_status_same.
Qed.

Lemma restaged_trans ps1 ps2 ps3 :
  restaged ps1 ps2 -> restaged ps2 ps3 -> restaged ps1 ps3.
Proof.
  rewrite !restaged_lookup. intros [L1 H1] [L2 H2]. split; [congruence|].
  intros j p p3 Hp Hp3. destruct (lookup_lt_is_Some_2 ps2 j) as [p2 Hp2].
  { rewrite <- L1. by apply lookup_lt_Some in Hp. }
  pose proof (H1 j p p2 Hp Hp2) as E1. pose proof (H2 j p2 p3 Hp2 Hp3) as E2.
  rewrite E2, E1. by destruct p.
Qed.

Lemma restaged_insert ps j p s :
  ps !! j = Some p -> restaged ps (<[j := set_status p s]> ps).
Proof.
  intros Hp. apply restaged_lookup. rewrite length_insert. split; [done|].
  intros k q q' Hq Hq'. apply list_lookup_insert_Some in Hq' as [(<- & <- & _)|[Hne Hq']].
  - assert (q = p) as -> by congruence. by destruct p.
  - assert (q' = q) as -> by congruence. apply set_status_same.
Qed.

Section StepReward.
Context {R : Type} {RO : RewardOps R}.
Implicit Types (env : Environment (R := R)) (actions : list action) (r : R).

Lemma package_action_restaged i pa r env res env' :
  package_action i pa r env = (res, env') -> restaged (packages env) (packages env').
Proof.
  intros H. apply package_action_cases in H
    as [[-> _]|[(robot & j & p & -> & Hr & Hc & Hp & _ & _ & _ & -> & ->)
               |(robot & pkg & -> & Hr & Hc & Hp & Hpos & -> & ->)]].
  - apply restaged_refl.
  - unfold picked_up. simpl. by apply restaged_insert.
  - unfold dropped. simpl. by apply restaged_insert.
Qed.

Lemma package_actions_restaged actions :
  forall idx r env res env',
  package_actions actions idx r env = (res, env') ->
  restaged (packages env) (packages env').
Proof.
  induction idx as [|i idx IH]; intros r env res env' H; simpl in H.
  - unfold ret in H. inversion H; subst. apply restaged_refl.
  - destruct (actions !! i) as [[move pa]|];
      [|unfold raise in H; inversion H; subst; apply restaged_refl].
    unfold bind in H. destruct (package_action i pa r env) as [[r1|e] env1] eqn:Hpa;
      apply package_action_restaged in Hpa.
    + apply IH in H. by eapply restaged_trans.
    + inversion H; subst. done.
Qed.

Lemma package_action_other i pa r env res env' k :
  package_action i pa r env = (res, env') -> k <> i ->
  robots env' !! k = robots env !! k.
Proof.
  intros H Hne. apply package_action_cases in H
    as [[-> _]|[(robot & j & p & -> & Hr & Hc & Hp & _ & _ & _ & -> & ->)
               |(robot & pkg & -> & Hr & Hc & Hp & Hpos & -> & ->)]]; [done| |].
  - unfold picked_up. simpl. apply list_lookup_insert_ne. congruence.
  - unfold dropped. simpl. apply list_lookup_insert_ne. congruence.
Qed.

Lemma package_actions_other actions k :
  forall idx r env res env',
  ~ elem_of k idx ->
  package_actions actions idx r env = (res, env') ->
  robots env' !! k = robots env !! k.
Proof.
  induction idx as [|i idx IH]; intros r env res env' Hni H; simpl in H.
  - unfold ret in H. by inversion H; subst.
  - apply not_elem_of_cons in Hni as [Hki Hni].
    destruct (actions !! i) as [[move pa]|]; [|unfold raise in H; by inversion H; subst].
    unfold bind in H. destruct (package_action i pa r env) as [[r1|e] env1] eqn:Hpa;
      apply (package_action_other _ _ _ _ _ _ k) in Hpa; try done.
    + apply IH in H; [|done]. congruence.
    + inversion H; subst. done.
Qed.

Lemma package_actions_split actions l1 i l2 :
  forall r env r' env',
  package_actions actions (l1 ++ i :: l2) r env = (Ok r', env') ->
  exists rA envA rB envB move pa,
    package_actions actions l1 r env = (Ok rA, envA) /\
    actions !! i = Some (move, pa) /\
    package_action i pa rA envA = (Ok rB, envB) /\
    package_actions actions l2 rB envB = (Ok r', env').
Proof.
  induction l1 as [|k l1 IH]; intros r env r' env' H; simpl in H.
  - destruct (actions !! i) as [[move pa]|] eqn:Ha; [|done].
    unfold bind in H. destruct (package_action i pa r env) as [[rB|e] envB] eqn:Hpa; [|done].
    exists r, env, rB, envB, move, pa. by repeat split.
  - destruct (actions !! k) as [[mk pk]|] eqn:Hk; [|done].
    unfold bind in H. destruct (package_action k pk r env) as [[r1|e] env1] eqn:Hpk; [|done].
    apply IH in H as (rA & envA & rB & envB & move & pa & HA & Ha & HB & HC).
    exists rA, envA, rB, envB, move, pa. split; [|done].
    simpl. rewrite Hk. unfold bind. by rewrite Hpk.
Qed.

(** What one package action adds to the reward. *)
Lemma package_action_reward i pa r env r' env' :
  package_action i pa r env = (Ok r', env') ->
  exists robot, robots env !! i = Some robot /\
    r' = match delivery (packages env) (carrying robot) (position robot) pa with
         | Some pkg => r_add r (credit env pkg)
         | None => r
         end.
Proof.
  unfold package_action. unfold_M. intros H.
  destruct (robots env !! i) as [robot|] eqn:Hr; [|done].
  exists robot. split; [done|]. unfold delivery.
  destruct (decide (pa = "1")) as [->|Hn1].
  { destruct (decide ("1" = "2")) as [E|_]; [discriminate E|].
    destruct (carrying robot =? 0); [|by inversion H].
    destruct (pickup_scan (position robot) (t env) 0 (packages env)) as [[j p]|];
      by inversion H. }
  destruct (decide (pa = "2")) as [->|Hn2]; [|by inversion H].
  destruct (carrying robot =? 0) eqn:Hc; simpl in H; [by inversion H|].
  destruct (packages env !! (carrying robot - 1)) as [pkg|] eqn:Hp; [|done].
  destruct (bool_decide (position robot = target pkg)) eqn:Ht; [|by inversion H].
  inversion H; subst. unfold credit. by destruct (t env <=? deadline pkg)%Z.
Qed.

Lemma credit_restaged env1 env carried pos pa r :
  restaged (packages env1) (packages env) ->
  t env = t env1 -> delivery_reward env = delivery_reward env1 ->
  delay_reward env = delay_reward env1 ->
  match delivery (packages env) carried pos pa with
  | Some pkg => r_add r (credit env pkg)
  | None => r
  end
  = match delivery (packages env1) carried pos pa with
    | Some pkg => r_add r (credit env1 pkg)
    | None => r
    end.
Proof.
  intros Hre Ht Hd Hl. apply restaged_lookup in Hre as [Hlen Hre]. unfold delivery.
  destruct (decide (pa = "2")); [|done]. destruct (carried =? 0); [done|].
  destruct (packages env1 !! (carried - 1)) as [p1|] eqn:H1.
  - destruct (lookup_lt_is_Some_2 (packages env) (carried - 1)) as [p Hp].
    { rewrite <- Hlen. by apply lookup_lt_Some in H1. }
    rewrite Hp. pose proof (Hre _ _ _ H1 Hp) as E.
    assert (Et : target p = target p1) by (rewrite E; by destruct p1).
    assert (Ed : deadline p = deadline p1) by (rewrite E; by destruct p1).
    rewrite Et. destruct (bool_decide (pos = target p1)); [|done].
    unfold credit. by rewrite Ht, Hd, Hl, Ed.
  - rewrite (lookup_ge_None_2 (packages env)); [done|].
    rewrite <- Hlen. by apply lookup_ge_None_1.
Qed.

(** The reward of the package actions, read on the environment [env1] the
    loop starts in. *)
Lemma package_actions_reward actions env1 :
  forall idx r env r' env',
  NoDup idx ->
  (forall i, elem_of i idx -> robots env !! i = robots env1 !! i) ->
  restaged (packages env1) (packages env) ->
  t env = t env1 -> delivery_reward env = delivery_reward env1 ->
  delay_reward env = delay_reward env1 ->
  package_actions actions idx r env = (Ok r', env') ->
  r' = foldl (fun acc i =>
                match actions !! i, robots env1 !! i with
                | Some (_, pa), Some rb =>
                    match delivery (packages env1) (carrying rb) (position rb) pa with
                    | Some pkg => r_add acc (credit env1 pkg)
                    | None => acc
                    end
                | _, _ => acc
                end) r idx.
Proof.
  induction idx as [|i idx IH]; intros r env r' env' Hnd Hrob Hre Ht Hd Hl H; simpl in H.
  - unfold ret in H. by inversion H.
  - apply NoDup_cons in Hnd as [Hni Hnd].
    destruct (actions !! i) as [[move pa]|] eqn:Ha; [|done].
    unfold bind in H. destruct (package_action i pa r env) as [[r1|e] envK] eqn:Hpa; [|done].
    pose proof (package_action_reward _ _ _ _ _ _ Hpa) as (robot & Hr & Er).
    pose proof (package_action_restaged _ _ _ _ _ _ Hpa) as HreK.
    pose proof (package_action_frame _ _ _ _ _ _ Hpa) as HfK.
    cbn [foldl]. rewrite Ha. rewrite <- (Hrob i) by (by left). rewrite Hr.
    rewrite <- (credit_restaged env1 env _ _ _ r Hre Ht Hd Hl). rewrite <- Er.
    apply (IH r1 envK r' env'); auto.
    + intros k Hk. rewrite (package_action_other _ _ _ _ _ _ k Hpa); [|congruence].
      apply Hrob. by right.
    + by eapply restaged_trans.
    + by rewrite (frame_t _ _ HfK).
    + by rewrite (frame_delivery _ _ HfK).
    + by rewrite (frame_delay _ _ HfK).
Qed.

(** The reward of the loop that moves the robots, and where it leaves
    them. *)
Lemma update_positions_reward actions fp :
  forall idx r env r' env',
  NoDup idx ->
  update_positions actions fp idx r env = (Ok r', env') ->
  r' = foldl (fun acc i => if charged actions fp (robots env) i
                           then r_add acc (move_cost env) else acc) r idx /\
  (forall i, elem_of i idx ->
     exists robot c, robots env !! i = Some robot /\ fp !! i = Some (Some c) /\
                     robots env' !! i = Some (set_position robot c)) /\
  (forall i, ~ elem_of i idx -> robots env' !! i = robots env !! i).
Proof.
  induction idx as [|i idx IH]; intros r env r' env' Hnd H.
  - simpl in H. unfold ret in H. inversion H; subst. split; [done|]. split; [|done].
    intros i Hi. by apply elem_of_nil in Hi.
  - apply NoDup_cons in Hnd as [Hni Hnd]. rewrite update_positions_cons in H.
    destruct (robots env !! i) as [robot|] eqn:Hr; [|done].
    destruct (actions !! i) as [[move pa]|] eqn:Ha; [|done].
    destruct (fp !! i) as [[c|]|] eqn:Hc; [|done..].
    apply IH in H as (Er & Hin & Hout); [|done]. simpl in Er, Hin, Hout.
    assert (Hi : i < length (robots env)) by (by apply lookup_lt_Some in Hr).
    split; [|split].
    + rewrite Er. cbn [foldl]. apply foldl_elem_ext.
      * intros acc k Hk. unfold charged.
        rewrite list_lookup_insert_ne; [done|]. intros ->. done.
      * unfold charged. by rewrite Hr, Ha, Hc.
    + intros k Hk. apply elem_of_cons in Hk as [->|Hk].
      * exists robot, c. split; [done|]. split; [done|].
        rewrite Hout by done. by apply list_lookup_insert_eq.
      * destruct (Hin k Hk) as (rb & c' & H1 & H2 & H3).
        exists rb, c'. split; [|done].
        rewrite list_lookup_insert_ne in H1; [done|]. intros ->. done.
    + intros k Hk. apply not_elem_of_cons in Hk as [Hki Hk].
      rewrite Hout by done. apply list_lookup_insert_ne. congruence.
Qed.

(** The robots of a successful step: where each one stood, the cell the
    resolution gave it, and where it stands after the step. *)
Lemma step_robot_lookup env actions snap r done infos env' :
  step actions env = (Ok (snap, r, done, infos), env') ->
  exists fp env1 env2 r1,
    update_positions actions fp (seq 0 (length (robots env))) r_zero env = (Ok r1, env1) /\
    package_actions actions (seq 0 (length (robots env))) r1 env1 = (Ok r, env2) /\
    env' = set_packages (ticked env2 r) (reveal (t env2 + 1) <$> packages env2) /\
    forall i, i < length (robots env) ->
      exists robot c rb',
        robots env !! i = Some robot /\ fp !! i = Some (Some c) /\
        robots env1 !! i = Some (set_position robot c) /\
        robots env' !! i = Some rb' /\ position rb' = c.
Proof.
  intros H. apply step_ok_inv in H
    as (pr & fp & r1 & env1 & env2 & _ & _ & _ & Hup & Hpk & _ & _ & Hgs).
  rewrite get_state_spec in Hgs. inversion Hgs as [[Hsnap Henv]]. clear Hgs Hsnap.
  exists fp, env1, env2, r1. split; [done|]. split; [done|]. split; [done|].
  intros i Hi.
  pose proof (update_positions_reward _ _ _ _ _ _ _ (NoDup_seq _ _) Hup) as (_ & Hin & _).
  destruct (Hin i) as (robot & c & Hr & Hc & Hr1); [apply elem_of_seq; lia|].
  pose proof (package_actions_positions _ _ _ _ _ _ Hpk) as Hpos.
  assert (E : (position <$> robots env2) !! i = Some c).
  { rewrite Hpos, list_lookup_fmap, Hr1. done. }
  rewrite list_lookup_fmap in E. simpl.
  destruct (robots env2 !! i) as [rb'|] eqn:Hrb'; [|done].
  exists robot, c, rb'. simpl in E. injection E as E. by split_and!.
Qed.

(** The reward a successful step returns: the costs of the moves, robot
    after robot, then the credits of the deliveries, robot after robot. *)
Lemma step_reward_spec env actions snap r done infos env' :
  step actions env = (Ok (snap, r, done, infos), env') ->
  r = foldl (add_credit env env' actions)
        (foldl (add_cost env env' actions) r_zero (seq 0 (length (robots env))))
        (seq 0 (length (robots env))).
Proof.
  intros H.
  destruct (step_robot_lookup _ _ _ _ _ _ _ H) as (fp & env1 & env2 & r1 & Hup & Hpk & _ & Hrob).
  pose proof (update_positions_frame _ _ _ _ _ _ _ Hup) as (Hf1 & Hp1 & _).
  pose proof (update_positions_reward _ _ _ _ _ _ _ (NoDup_seq _ _) Hup) as (Er1 & _ & _).
  pose proof (package_actions_reward actions env1 _ _ _ _ _ (NoDup_seq _ _)
                (fun _ _ => eq_refl) (restaged_refl _) eq_refl eq_refl eq_refl Hpk) as Er.
  rewrite Er, Er1. apply foldl_elem_ext; [|apply foldl_elem_ext; [|done]].
  - intros acc i Hi. apply elem_of_seq in Hi.
    destruct (Hrob i) as (robot & c & rb' & Hr & Hc & Hr1 & Hrb' & Hpos); [lia|].
    unfold add_credit, delivers. rewrite Hr1, Hr, Hrb', Hp1, Hpos.
    destruct (actions !! i) as [[move pa]|]; [|done]. simpl.
    unfold credit. by rewrite (frame_t _ _ Hf1), (frame_delivery _ _ Hf1), (frame_delay _ _ Hf1).
  - intros acc i Hi. apply elem_of_seq in Hi.
    destruct (Hrob i) as (robot & c & rb' & Hr & Hc & Hr1 & Hrb' & Hpos); [lia|].
    unfold add_cost, pays, charged. rewrite Hr, Hc, Hrb', Hpos.
    by destruct (actions !! i) as [[move pa]|].
Qed.

(** A delivered package stays as it is through the package actions. *)
Lemma package_action_delivered i pa r env res env' j p :
  package_action i pa r env = (res, env') ->
  packages env !! j = Some p -> status p = Delivered -> packages env' !! j = Some p.
Proof.
  intros H Hj Hs. apply package_action_cases in H
    as [[-> _]|[(robot & j' & p' & -> & Hr & Hc & Hp & Hst & _ & _ & -> & ->)
               |(robot & pkg & -> & Hr & Hc & Hp & Hpos & -> & ->)]]; [done| |].
  - unfold picked_up. simpl. rewrite list_lookup_insert_ne; [done|].
    intros E. rewrite E in Hp. congruence.
  - unfold dropped. simpl. destruct (decide (carrying robot - 1 = j)) as [E|Hne].
    + rewrite E in *. assert (pkg = p) as -> by congruence.
      rewrite list_lookup_insert_eq by (by apply lookup_lt_Some in Hj).
      f_equal. destruct p. simpl in *. by rewrite Hs.
    + by rewrite list_lookup_insert_ne.
Qed.

Lemma package_actions_delivered actions j p :
  forall idx r env res env',
  package_actions actions idx r env = (res, env') ->
  packages env !! j = Some p -> status p = Delivered -> packages env' !! j = Some p.
Proof.
  induction idx as [|i idx IH]; intros r env res env' H Hj Hs; simpl in H.
  - unfold ret in H. by inversion H; subst.
  - destruct (actions !! i) as [[move pa]|]; [|unfold raise in H; by inversion H; subst].
    unfold bind in H. destruct (package_action i pa r env) as [[r1|e] env1] eqn:Hpa;
      apply (package_action_delivered _ _ _ _ _ _ j p) in Hpa; try done.
    + by eapply IH.
    + by inversion H; subst.
Qed.

(** A package that waits on a cell where no robot of the loop stands is left
    as it is. *)
Lemma package_action_keeps_waiting i pa r env res env' j p :
  Good env -> package_action i pa r env = (res, env') ->
  packages env !! j = Some p -> status p = Waiting ->
  (forall rb, robots env !! i = Some rb -> position rb <> start p) ->
  packages env' !! j = Some p.
Proof.
  intros HG H Hj Hs Hpos. apply package_action_cases in H
    as [[-> _]|[(robot & j' & p' & -> & Hr & Hc & Hp & Hst & Hst' & _ & -> & ->)
               |(robot & pkg & -> & Hr & Hc & Hp & _ & -> & ->)]]; [done| |].
  - unfold picked_up. simpl. rewrite list_lookup_insert_ne; [done|].
    intros E. rewrite E in Hp. assert (p' = p) as -> by congruence.
    by apply (Hpos robot).
  - unfold dropped. simpl. rewrite list_lookup_insert_ne; [done|].
    intros E. destruct (good_carry _ HG i robot Hr Hc) as (p0 & Hp0 & Hrank).
    rewrite E in Hp0. assert (p0 = p) as -> by congruence.
    rewrite Hs in Hrank. simpl in Hrank. lia.
Qed.

Lemma package_actions_keeps_waiting actions j p :
  forall idx r env res env',
  Good env -> package_actions actions idx r env = (res, env') ->
  packages env !! j = Some p -> status p = Waiting ->
  (forall k rb, elem_of k idx -> robots env !! k = Some rb -> position rb <> start p) ->
  packages env' !! j = Some p.
Proof.
  induction idx as [|i idx IH]; intros r env res env' HG H Hj Hs Hpos; simpl in H.
  - unfold ret in H. by inversion H; subst.
  - destruct (actions !! i) as [[move pa]|]; [|unfold raise in H; by inversion H; subst].
    unfold bind in H. destruct (package_action i pa r env) as [[r1|e] env1] eqn:Hpa.
    + pose proof (package_action_keeps_waiting _ _ _ _ _ _ j p HG Hpa Hj Hs) as Hj1.
      apply (package_action_good _ _ _ _ _ _ HG) in Hpa as (HG1 & _ & _ & Hp1).
      apply (IH r1 env1 res env'); auto.
      * apply Hj1. intros rb Hrb. apply (Hpos i); [by left|done].
      * intros k rb Hk Hrb.
        assert (E : (position <$> robots env) !! k = Some (position rb)).
        { rewrite <- Hp1, list_lookup_fmap, Hrb. done. }
        rewrite list_lookup_fmap in E.
        destruct (robots env !! k) as [rb0|] eqn:Hrb0; [|done].
        simpl in E. injection E as E'. rewrite <- E'. apply (Hpos k); [by right|done].
    + inversion H; subst. apply (package_action_keeps_waiting _ _ _ _ _ _ j p HG Hpa Hj Hs).
      intros rb Hrb. apply (Hpos i); [by left|done].
Qed.

(** No package action makes a package wait: a package that waits after the
    loop is as it was before. *)
Lemma package_action_no_new_waiting i pa r env res env' k q :
  package_action i pa r env = (res, env') ->
  packages env' !! k = Some q -> status q = Waiting -> packages env !! k = Some q.
Proof.
  intros H Hk Hs. apply package_action_cases in H
    as [[-> _]|[(robot & j' & p' & -> & Hr & Hc & Hp & _ & _ & _ & -> & ->)
               |(robot & pkg & -> & Hr & Hc & Hp & _ & -> & ->)]]; [done| |].
  - unfold picked_up in Hk. simpl in Hk.
    apply list_lookup_insert_Some in Hk as [(_ & <- & _)|[_ Hk]]; [done|done].
  - unfold dropped in Hk. simpl in Hk.
    apply list_lookup_insert_Some in Hk as [(_ & <- & _)|[_ Hk]]; [done|done].
Qed.

Lemma package_actions_no_new_waiting actions k q :
  forall idx r env res env',
  package_actions actions idx r env = (res, env') ->
  packages env' !! k = Some q -> status q = Waiting -> packages env !! k = Some q.
Proof.
  induction idx as [|i idx IH]; intros r env res env' H Hk Hs; simpl in H.
  - unfold ret in H. by inversion H; subst.
  - destruct (actions !! i) as [[move pa]|]; [|unfold raise in H; by inversion H; subst].
    unfold bind in H. destruct (package_action i pa r env) as [[r1|e] env1] eqn:Hpa.
    + eapply package_action_no_new_waiting; [exact Hpa| |done]. by eapply IH.
    + inversion H; subst. by eapply package_action_no_new_waiting.
Qed.

(** C5. In every successful [step] call the robots end on the cells the
    movement resolution gave them, and the reward returned is [move_cost]
    added once for each robot that pays, robot after robot, followed by the
    credits of the deliveries; a robot pays exactly when its move is one of
    L, R, U, D and the cell it ends on is not the cell it stood on when
    [step] was called.  A robot whose move leads to a cell [valid_position]
    refuses does not pay. *)
Theorem move_cost_rule env actions snap r done infos env' :
  step actions env = (Ok (snap, r, done, infos), env') ->
  (exists pr fp,
     propose env actions = Ok pr /\ resolve (robots env) pr = Ok fp /\
     forall i c, fp !! i = Some (Some c) <-> position <$> robots env' !! i = Some c) /\
  r = foldl (add_credit env env' actions)
        (foldl (fun acc i => if pays env env' actions i
                             then r_add acc (move_cost env) else acc)
               r_zero (seq 0 (length (robots env))))
        (seq 0 (length (robots env))) /\
  forall i rb rb' move pa,
    robots env !! i = Some rb -> robots env' !! i = Some rb' ->
    actions !! i = Some (move, pa) ->
    (pays env env' actions i = true <->
     elem_of move ["L"; "R"; "U"; "D"] /\ position rb' <> position rb) /\
    (valid_position env (compute_new_position (position rb) move) = Ok false ->
     pays env env' actions i = false).
Proof.
  intros H.
  pose proof (step_robots _ _ _ _ H) as (_ & _ & _ & Hmoved).
  destruct (Hmoved _ eq_refl) as (pr & fp & _ & Hpr & Hres & Hpos).
  split; [by exists pr, fp|]. split; [exact (step_reward_spec _ _ _ _ _ _ _ H)|].
  intros i rb rb' move pa Hrb Hrb' Ha.
  assert (Hpays : pays env env' actions i = true <->
                  elem_of move ["L"; "R"; "U"; "D"] /\ position rb' <> position rb).
  { unfold pays. rewrite Ha, Hrb, Hrb'.
    by rewrite andb_true_iff, bool_decide_eq_true, negb_true_iff, bool_decide_eq_false. }
  split; [done|]. intros Hinv.
  assert (Hfp : fp !! i = Some (Some (position rb'))) by (apply Hpos; by rewrite Hrb').
  destruct (moved_cell _ _ _ _ _ _ _ Hpr Hres Hrb Hfp) as (move' & pa' & Ha' & [E|[E Hv]]).
  - apply not_true_is_false. rewrite Hpays. intros [_ Hne]. done.
  - assert (move' = move) as -> by congruence. rewrite E, Hinv in Hv. done.
Qed.

(** C4. A robot that carries a package, is told to drop and, once moved,
    stands on the target of the package, in a [step] call made at tick [t]
    in a good environment: what the call credits for the delivery, added to
    the reward at the turn of the robot, is exactly [delivery_reward] when
    [t <= deadline] and exactly [delay_reward] when [t > deadline]; after
    the call the package is delivered and the robot carries nothing. *)
Theorem drop_at_target env actions snap r done infos env' i robot move pkg :
  Good env ->
  step actions env = (Ok (snap, r, done, infos), env') ->
  robots env !! i = Some robot ->
  carrying robot <> 0 ->
  packages env !! (carrying robot - 1) = Some pkg ->
  actions !! i = Some (move, "2") ->
  position <$> robots env' !! i = Some (target pkg) ->
  r = foldl (add_credit env env' actions)
        (r_add (foldl (add_credit env env' actions)
                  (foldl (add_cost env env' actions) r_zero
                     (seq 0 (length (robots env))))
                  (seq 0 i))
               (if (t env <=? deadline pkg)%Z
                then delivery_reward env else delay_reward env))
        (seq (S i) (length (robots env) - S i)) /\
  packages env' !! (carrying robot - 1) = Some (set_status pkg Delivered) /\
  robots env' !! i = Some {| position := target pkg; carrying := 0 |}.
Proof.
  intros HG H Hr Hc Hp Ha Htarget.
  assert (Hi : i < length (robots env)) by (by apply lookup_lt_Some in Hr).
  pose proof (step_reward_spec _ _ _ _ _ _ _ H) as Er.
  destruct (step_robot_lookup _ _ _ _ _ _ _ H)
    as (fp & env1 & env2 & r1 & Hup & Hpk & Henv & Hrob).
  destruct (Hrob i Hi) as (robot0 & c & rb' & Hr0 & Hc0 & Hr1 & Hrb' & Hpos).
  assert (robot0 = robot) as -> by congruence.
  assert (Ec : c = target pkg).
  { rewrite Hrb' in Htarget. simpl in Htarget. congruence. }
  rewrite Ec in Hpos, Hr1, Hc0. clear Ec c. split; [|].
  - set (rm := foldl (add_cost env env' actions) r_zero (seq 0 (length (robots env)))) in *.
    rewrite Er, (seq_split i _ Hi), foldl_app. cbn [foldl]. f_equal.
    unfold add_credit at 1. unfold delivers. rewrite Ha, Hr, Hrb', Hpos. unfold delivery.
    destruct (decide ("2" = "2")) as [_|E]; [|done].
    apply Nat.eqb_neq in Hc. rewrite Hc, Hp.
    by rewrite bool_decide_eq_true_2 by done.
  - pose proof (update_positions_frame _ _ _ _ _ _ _ Hup) as (Hf1 & Hp1 & Hc1).
    assert (HG1 : Good env1) by (apply (Good_transfer env); auto; apply Hf1).
    rewrite (seq_split i _ Hi) in Hpk.
    apply package_actions_split in Hpk
      as (rA & envA & rB & envB & move' & pa' & HA & Ha' & HB & HC).
    assert (pa' = "2") as -> by congruence.
    assert (HrA : robots envA !! i = Some (set_position robot (target pkg))).
    { assert (Hn0 : ~ elem_of i (seq 0 i)) by (rewrite elem_of_seq; lia).
      by rewrite (package_actions_other _ i _ _ _ _ _ Hn0 HA). }
    pose proof (package_actions_restaged _ _ _ _ _ _ HA) as HreA.
    rewrite Hp1 in HreA. apply restaged_lookup in HreA as [HlenA HreA].
    destruct (lookup_lt_is_Some_2 (packages envA) (carrying robot - 1)) as [pkgA HpA].
    { rewrite <- HlenA. by apply lookup_lt_Some in Hp. }
    pose proof (HreA _ _ _ Hp HpA) as EA.
    assert (EtA : target pkgA = target pkg) by (rewrite EA; by destruct pkg).
    assert (EdA : set_status pkgA Delivered = set_status pkg Delivered)
      by (rewrite EA; by destruct pkg).
    destruct (package_action_drop envA i (set_position robot (target pkg)) pkgA rA)
      as (r'' & env'' & Hdrop & _ & _ & HpB & HrB); [done|done|done|by simpl|].
    rewrite HB in Hdrop. inversion Hdrop; subst r'' env''. clear Hdrop.
    simpl in HpB, HrB.
    assert (Hn : ~ elem_of i (seq (S i) (length (robots env) - S i))).
    { rewrite elem_of_seq. lia. }
    pose proof (package_actions_other _ i _ _ _ _ _ Hn HC) as Hr2. rewrite HrB in Hr2.
    pose proof (package_actions_delivered _ _ _ _ _ _ _ _ HC HpB eq_refl) as Hp2.
    rewrite EdA in Hp2.
    pose proof (package_actions_frame _ _ _ _ _ _ HA) as HfA.
    pose proof (package_action_frame _ _ _ _ _ _ HB) as HfB.
    pose proof (package_actions_frame _ _ _ _ _ _ HC) as HfC.
    assert (Ht2 : t env2 = t env).
    { rewrite (frame_t _ _ HfC), (frame_t _ _ HfB), (frame_t _ _ HfA). apply Hf1. }
    rewrite Henv. simpl. split.
    + rewrite list_lookup_fmap, Hp2. simpl. f_equal. unfold reveal. simpl.
      destruct (start_time pkg =? t env2 + 1)%Z eqn:E; [|done]. exfalso.
      apply Z.eqb_eq in E.
      destruct (good_carry _ HG i robot Hr Hc) as (p0 & Hp0 & Hrank).
      assert (p0 = pkg) as -> by congruence.
      rewrite (good_unrevealed _ HG _ pkg Hp) in Hrank by lia. simpl in Hrank. lia.
    + rewrite Hr2. by destruct robot.
Qed.

(** X13. In an episode, a robot that carries nothing when [step] is called
    and is told to pick up takes, of the packages that wait on the cell it
    has moved to and whose spawn time has come, the one that is first in the
    package list: after the call it carries the id of that package, which
    is in transit, and its turn has added nothing to the reward. *)
Theorem pickup_takes_first env0 snap0 env1 env actions snap r done infos env'
    i rb rb' move j p :
  reset env0 = (Ok snap0, env1) ->
  calls env1 env ->
  step actions env = (Ok (snap, r, done, infos), env') ->
  robots env !! i = Some rb ->
  carrying rb = 0 ->
  actions !! i = Some (move, "1") ->
  robots env' !! i = Some rb' ->
  packages env !! j = Some p ->
  available (position rb') (t env) p ->
  (forall k q, k < j -> packages env !! k = Some q ->
               ~ available (position rb') (t env) q) ->
  carrying rb' = package_id p /\
  packages env' !! j = Some (set_status p InTransit) /\
  r = foldl (add_credit env env' actions)
        (foldl (add_credit env env' actions)
           (foldl (add_cost env env' actions) r_zero (seq 0 (length (robots env))))
           (seq 0 i))
        (seq (S i) (length (robots env) - S i)).
Proof.
  intros Hreset Hcalls H Hr Hc Ha Hrb' Hp (Hst & Hstart & Htime) Hmin.
  destruct (episode_invariant _ _ _ _ Hreset Hcalls) as (HG & HT & _ & _).
  assert (Hnd : NoDup (position <$> robots env)).
  { apply (calls_keeps (fun e => NoDup (position <$> robots e))) with (env := env1);
      [|by apply reset_robots_spec in Hreset as (_ & _ & Hnd & _)|done].
    intros acts e res e' HI Hs. by eapply step_keeps_distinct. }
  assert (Hi : i < length (robots env)) by (by apply lookup_lt_Some in Hr).
  pose proof (step_reward_spec _ _ _ _ _ _ _ H) as Er.
  pose proof (step_keeps_distinct _ _ _ _ Hnd H) as Hnd'.
  pose proof (step_tight _ _ _ _ HG HT H) as HT'.
  pose proof (step_good _ _ _ _ HG H) as [HG' Hadv].
  destruct (step_robot_lookup _ _ _ _ _ _ _ H)
    as (fp & ea & env2 & r1 & Hup & Hpk & Henv & Hrob).
  destruct (Hrob i Hi) as (robot0 & c & rb0' & Hr0 & Hc0 & Hr1 & Hrb0' & Hpos).
  assert (robot0 = rb) as -> by congruence.
  assert (rb0' = rb') as -> by congruence. subst c.
  assert (Hcarry : carrying rb' = package_id p).
  { pose proof (update_positions_frame _ _ _ _ _ _ _ Hup) as (Hf1 & Hp1 & Hc1).
    assert (HG1 : Good ea) by (apply (Good_transfer env); auto; apply Hf1).
    assert (Hrobots : robots env' = robots env2) by (by rewrite Henv).
    assert (Hnd1 : NoDup (position <$> robots ea)).
    { rewrite <- (package_actions_positions _ _ _ _ _ _ Hpk), <- Hrobots. done. }
    rewrite (seq_split i _ Hi) in Hpk.
    apply package_actions_split in Hpk
      as (rA & envA & rB & envB & move' & pa' & HA & Ha' & HB & HC).
    assert (pa' = "1") as -> by congruence.
    assert (HrA : robots envA !! i = Some (set_position rb (position rb'))).
    { assert (Hn0 : ~ elem_of i (seq 0 i)) by (rewrite elem_of_seq; lia).
      by rewrite (package_actions_other _ i _ _ _ _ _ Hn0 HA). }
    pose proof (package_actions_frame _ _ _ _ _ _ HA) as HfA.
    assert (HtA : t envA = t env) by (rewrite (frame_t _ _ HfA); apply Hf1).
    assert (HpA : packages envA !! j = Some p).
    { apply (package_actions_keeps_waiting _ j p _ _ _ _ _ HG1 HA); [by rewrite Hp1|done|].
      intros k rbk Hk Hrbk E. apply elem_of_seq in Hk.
      assert (k = i); [|lia].
      apply (NoDup_lookup _ _ _ (position rb') Hnd1).
      - rewrite list_lookup_fmap, Hrbk. simpl. congruence.
      - by rewrite list_lookup_fmap, Hr1. }
    assert (HavA : available (position (set_position rb (position rb'))) (t envA) p).
    { unfold available. simpl. by rewrite HtA. }
    assert (HminA : forall k q, k < j -> packages envA !! k = Some q ->
              ~ available (position (set_position rb (position rb'))) (t envA) q).
    { intros k q Hk Hq (Hq1 & Hq2 & Hq3). simpl in Hq2. rewrite HtA in Hq3.
      apply (Hmin k q Hk); [|done].
      rewrite <- Hp1. by apply (package_actions_no_new_waiting _ _ _ _ _ _ _ _ HA). }
    pose proof (package_action_pickup envA i _ j p rA HrA Hc HpA HavA HminA) as Hpick.
    rewrite HB in Hpick. injection Hpick as _ EB.
    assert (Hn : ~ elem_of i (seq (S i) (length (robots env) - S i))).
    { rewrite elem_of_seq. lia. }
    pose proof (package_actions_other _ i _ _ _ _ _ Hn HC) as Hr2.
    rewrite EB in Hr2. unfold picked_up in Hr2. simpl in Hr2.
    rewrite list_lookup_insert_eq in Hr2 by (by apply lookup_lt_Some in HrA).
    rewrite <- Hrobots, Hrb' in Hr2. inversion Hr2 as [E]. rewrite E. done. }
  split; [done|]. split.
  - assert (Hid : package_id p = S j) by (by apply (good_ids _ HG)).
    destruct (tight_in_transit _ HT' i rb' Hrb') as (p' & Hp' & Hs'); [lia|].
    rewrite Hcarry, Hid in Hp'. simpl in Hp'. rewrite Nat.sub_0_r in Hp'.
    apply advances_lookup in Hadv as [_ Hadv].
    destruct (Hadv j p p' Hp Hp') as [E _]. rewrite Hp', E, Hs'. done.
  - set (rm := foldl (add_cost env env' actions) r_zero (seq 0 (length (robots env)))) in *.
    rewrite Er, (seq_split i _ Hi), foldl_app. cbn [foldl]. f_equal.
    unfold add_credit at 1. unfold delivers. rewrite Ha, Hr, Hrb'. unfold delivery.
    by destruct (decide ("1" = "2")) as [E|_]; [discriminate E|].
Qed.

End StepReward.

(** * The further properties on the concrete scenarios *)

Lemma depot_grid_ok : grid_ok depot.
Proof. unfold grid_ok. repeat constructor. Qed.

Lemma depot_step1_eq :
  step depot_actions depot_reset = (Ok depot_output1, depot_step1).
Proof. vm_compute. reflexivity. Qed.

Lemma depot_step2_eq :
  step [("D", "1")] depot_step1 = (Ok depot_output2, depot_step2).
Proof. vm_compute. reflexivity. Qed.

Lemma depot_calls1 : calls depot_reset depot_step1.
Proof.
  apply (calls_step depot_reset depot_actions (Ok depot_output1) depot_step1 depot_step1);
    [exact depot_step1_eq|apply calls_nil].
Qed.

Lemma depot_calls2 : calls depot_reset depot_step2.
Proof.
  apply (calls_step depot_reset depot_actions (Ok depot_output1) depot_step1 depot_step2);
    [exact depot_step1_eq|].
  apply (calls_step depot_step1 [("D", "1")] (Ok depot_output2) depot_step2 depot_step2);
    [exact depot_step2_eq|apply calls_nil].
Qed.

Lemma junction_distinct : NoDup (position <$> robots junction).
Proof. apply (bool_decide_unpack _). vm_compute. exact I. Qed.

(** The depot after its reset: one robot, on a free cell, carrying nothing. *)
Lemma reset_places_robots_witness :
  length (robots depot_reset) = n_robots depot /\
  NoDup (position <$> robots depot_reset) /\
  (forall rb, elem_of rb (robots depot_reset) ->
     is_free_cell depot_reset (position rb) = Ok true /\ carrying rb = 0).
Proof.
  apply (reset_places_robots depot depot_snapshot depot_reset).
  vm_compute. reflexivity.
Defined.

(** The three packages of the depot after its reset. *)
Lemma reset_orders_packages_witness :
  length (packages depot_reset) = n_packages depot /\
  forall j p, packages depot_reset !! j = Some p ->
    package_id p = j + 1 /\
    status p = (if (start_time p =? 0)%Z then Waiting else StNone) /\
    forall k q, j <= k -> packages depot_reset !! k = Some q ->
                (start_time p <= start_time q)%Z.
Proof.
  apply (reset_orders_packages depot depot_snapshot depot_reset).
  vm_compute. reflexivity.
Defined.

(** The first package of the depot starts and ends on free cells. *)
Lemma reset_packages_sound_witness :
  start depot_first <> target depot_first /\
  is_free_cell depot_reset (start depot_first) = Ok true /\
  is_free_cell depot_reset (target depot_first) = Ok true /\
  (0 <= start_time depot_first)%Z /\
  (start_time depot_first + 10 <= deadline depot_first)%Z.
Proof.
  apply (reset_packages_sound depot depot_snapshot depot_reset).
  - vm_compute. reflexivity.
  - apply (list_elem_of_lookup_2 _ 0). reflexivity.
Defined.

(** In the corridor the second robot steps right. *)
Lemma step_moves_legally_witness :
  exists rb' move pa,
    robots advance_after !! 1 = Some rb' /\ advance_actions !! 1 = Some (move, pa) /\
    (position rb' = (0, 1)%Z \/
     (position rb' = compute_new_position (0, 1)%Z move /\
      valid_position corridor (position rb') = Ok true)).
Proof.
  apply (step_moves_legally corridor advance_actions advance_output advance_after)
    with (i := 1) (rb := {| position := (0, 1)%Z; carrying := 0 |}).
  - vm_compute. reflexivity.
  - reflexivity.
Defined.

(** The robot of the depot after the reset and two steps. *)
Lemma episode_robots_witness :
  length (robots depot_step2) = n_robots depot /\
  NoDup (position <$> robots depot_step2) /\
  forall rb, elem_of rb (robots depot_step2) ->
    valid_position depot_step2 (position rb) = Ok true.
Proof.
  apply (episode_robots depot depot_snapshot depot_reset depot_step2).
  - vm_compute. reflexivity.
  - exact depot_calls2.
Defined.

(** At the junction the first robot gets the middle cell and the second one
    stays. *)
Lemma first_proposer_wins_witness :
  exists fp,
    resolve (robots junction) junction_proposal = Ok fp /\
    fp !! 0 = Some (Some (0, 1)%Z) /\
    forall b rb, b <> 0 -> robots junction !! b = Some rb ->
      proposed_positions junction_proposal !! b = Some (0, 1)%Z ->
      fp !! b = Some (Some (position rb)).
Proof.
  apply (first_proposer_wins junction junction_actions junction_proposal 0 (0, 1)%Z).
  - exact junction_distinct.
  - vm_compute. reflexivity.
  - intros rb Hrb.
    apply elem_of_cons in Hrb as [->|Hrb]; [simpl; congruence|].
    apply elem_of_cons in Hrb as [->|Hrb]; [simpl; congruence|].
    by apply elem_of_nil in Hrb.
  - reflexivity.
  - intros b Hb. lia.
Defined.

(** In the corridor the first robot asks for the cell of the second one,
    which stays: both stay. *)
Lemma staying_robot_blocks_witness :
  exists fp,
    resolve (robots corridor) block_proposal = Ok fp /\
    fp !! 0 = Some (Some (0, 0)%Z) /\
    fp !! 1 = Some (Some (0, 1)%Z).
Proof.
  apply (staying_robot_blocks corridor block_actions block_proposal 0 1
           {| position := (0, 0)%Z; carrying := 0 |}
           {| position := (0, 1)%Z; carrying := 0 |}).
  - exact corridor_distinct.
  - vm_compute. reflexivity.
  - lia.
  - reflexivity.
  - reflexivity.
  - reflexivity.
  - reflexivity.
Defined.

(** The depot after the reset and two steps: the robot carries package 1. *)
Lemma episode_carrying_witness :
  (forall i rb, robots depot_step2 !! i = Some rb -> carrying rb <> 0 ->
     exists p, packages depot_step2 !! (carrying rb - 1) = Some p /\
               package_id p = carrying rb /\ status p = InTransit) /\
  (forall i k a b, robots depot_step2 !! i = Some a -> robots depot_step2 !! k = Some b ->
     carrying a <> 0 -> carrying a = carrying b -> i = k) /\
  (forall p, elem_of p (packages depot_step2) -> status p = InTransit ->
     exists rb, elem_of rb (robots depot_step2) /\ carrying rb = package_id p).
Proof.
  apply (episode_carrying depot depot_snapshot depot_reset depot_step2).
  - vm_compute. reflexivity.
  - exact depot_calls2.
Defined.

(** The depot after the reset and two steps, each of which cost one move. *)
Lemma episode_clock_witness :
  t depot_step2 = Z.of_nat (length [(-1)%Z; (-1)%Z]) /\
  total_reward depot_step2 = foldl r_add r_zero [(-1)%Z; (-1)%Z].
Proof.
  apply (episode_clock depot depot_snapshot depot_reset [(-1)%Z; (-1)%Z] depot_step2).
  - vm_compute. reflexivity.
  - apply (run_ok [(-1)%Z] depot_reset depot_actions
             depot_output1.1.1.1 (-1)%Z depot_output1.1.2 depot_output1.2
             depot_step1 depot_step2).
    + vm_compute. reflexivity.
    + apply (run_ok [] depot_step1 [("D", "1")]
               depot_output2.1.1.1 (-1)%Z depot_output2.1.2 depot_output2.2
               depot_step2 depot_step2).
      * vm_compute. reflexivity.
      * apply run_nil.
Defined.

(** The map and the parameters of the depot after the reset and two steps. *)
Lemma episode_settings_witness :
  grid depot_step2 = grid depot /\ max_time_steps depot_step2 = max_time_steps depot /\
  move_cost depot_step2 = move_cost depot /\
  delivery_reward depot_step2 = delivery_reward depot /\
  delay_reward depot_step2 = delay_reward depot.
Proof.
  apply (episode_settings depot depot_snapshot depot_reset depot_step2).
  - vm_compute. reflexivity.
  - exact depot_calls2.
Defined.

(** The depot after the reset and two steps takes one action, for its one
    robot. *)
Lemma episode_step_returns_witness :
  (exists out env3, step [("S", "0")] depot_step2 = (Ok out, env3)) <->
  length [("S", "0")] = n_robots depot.
Proof.
  apply (episode_step_returns depot depot_snapshot depot_reset depot_step2 [("S", "0")]).
  - exact depot_grid_ok.
  - vm_compute. reflexivity.
  - exact depot_calls2.
Defined.

(** The second step of the depot: package 1 is picked up. *)
Lemma one_stage_per_step_witness :
  stage (t depot_step1 + 1) depot_first (set_status depot_first InTransit).
Proof.
  apply (one_stage_per_step depot depot_snapshot depot_reset depot_step1
           [("D", "1")] (Ok depot_output2) depot_step2) with (j := 0).
  - vm_compute. reflexivity.
  - exact depot_calls1.
  - vm_compute. reflexivity.
  - reflexivity.
  - reflexivity.
Defined.

(** The depot has seven free cells, for one robot and three packages. *)
Lemma reset_needs_room_witness :
  n_robots depot <= length depot_free /\ (0 < n_packages depot -> 2 <= length depot_free).
Proof.
  apply (reset_needs_room depot depot_snapshot depot_reset depot_free).
  - vm_compute. reflexivity.
  - vm_compute. reflexivity.
Defined.

(** The obstacle of the depot. *)
Lemma free_iff_valid_witness :
  is_free_cell depot (1, 1)%Z = valid_position depot (1, 1)%Z.
Proof.
  apply (free_iff_valid depot (1, 1)%Z).
  intros row v Hrow Hv. simpl in Hrow.
  apply elem_of_cons in Hrow as [->|Hrow];
    [|apply elem_of_cons in Hrow as [->|Hrow]; [|by apply elem_of_nil in Hrow]];
    repeat (apply elem_of_cons in Hv as [->|Hv]; [auto|]);
    by apply elem_of_nil in Hv.
Defined.

(** The depot after the reset and two steps, at tick 2: package 3, which
    spawns at tick 4, still has its initial status. *)
Lemma episode_visibility_witness :
  status depot_third = StNone <-> (t depot_step2 < start_time depot_third)%Z.
Proof.
  apply (episode_visibility depot depot_snapshot depot_reset depot_step2).
  - vm_compute. reflexivity.
  - exact depot_calls2.
  - apply (list_elem_of_lookup_2 _ 2). reflexivity.
Defined.

(** Both robots of the corridor step right: the second one moves to the
    free cell and the first one follows. *)
Lemma follower_moves_witness :
  exists fp,
    resolve (robots corridor) convoy_proposal = Ok fp /\
    fp !! 1 = Some (Some (0, 2)%Z) /\
    fp !! 0 = Some (Some (0, 1)%Z).
Proof.
  apply (follower_moves corridor convoy_actions convoy_proposal 0 1
           {| position := (0, 1)%Z; carrying := 0 |} (0, 2)%Z).
  - exact corridor_distinct.
  - vm_compute. reflexivity.
  - lia.
  - reflexivity.
  - intros rb Hrb.
    apply elem_of_cons in Hrb as [->|Hrb]; [simpl; congruence|].
    apply elem_of_cons in Hrb as [->|Hrb]; [simpl; congruence|].
    by apply elem_of_nil in Hrb.
  - reflexivity.
  - intros [|[|k]] Hk E; [vm_compute in E; congruence|done|vm_compute in E; congruence].
  - reflexivity.
  - intros [|[|k]] Hk E; [done|vm_compute in E; congruence|vm_compute in E; congruence].
Defined.

(** The depot with agents that never move: the loop ends, at the horizon. *)
Lemma main_loop_ends_witness :
  exists out env2,
    main_loop idle_agents (Z.to_nat (max_time_steps depot)) tt depot_snapshot depot_reset
      = (Ok out, env2) /\
    (0 < t env2 <= max_time_steps depot)%Z.
Proof.
  apply (main_loop_ends idle_agents depot depot_snapshot depot_reset tt).
  - exact depot_grid_ok.
  - simpl. lia.
  - vm_compute. reflexivity.
  - intros ag s. reflexivity.
Defined.

(** The robot of the shelf stays and picks up package 3: the step is worth
    nothing. *)
Lemma free_actions_earn_nothing_witness : shelf_output.1.1.2 = r_zero.
Proof.
  apply (free_actions_earn_nothing shelf shelf_actions shelf_output.1.1.1
           shelf_output.1.1.2 shelf_output.1.2 shelf_output.2 shelf_after).
  - intros [|i] move pa Ha; simpl in Ha; [|by rewrite lookup_nil in Ha].
    inversion Ha; subst. split; [|done].
    intros H. apply (bool_decide_pack _) in H. vm_compute in H. exact H.
  - vm_compute. reflexivity.
Defined.

Lemma depot_calls4 : calls depot_reset depot_step4.
Proof.
  apply (calls_step depot_reset depot_actions (Ok depot_output1) depot_step1 depot_step4);
    [exact depot_step1_eq|].
  apply (calls_step depot_step1 [("D", "1")] (Ok depot_output2) depot_step2 depot_step4);
    [exact depot_step2_eq|].
  apply (calls_step depot_step2 [("U", "0")] (step [("U", "0")] depot_step2).1
           depot_step3 depot_step4); [vm_compute; reflexivity|].
  apply (calls_step depot_step3 [("L", "0")] (step [("L", "0")] depot_step3).1
           depot_step4 depot_step4); [vm_compute; reflexivity|].
  apply calls_nil.
Qed.

Lemma depot_step4_good : Good depot_step4.
Proof.
  apply (calls_good depot_reset); [|exact depot_calls4].
  apply (reset_good depot depot_snapshot). exact depot_reset_eq.
Qed.

Lemma depot_calls_west : calls depot_reset depot_west2.
Proof.
  apply (calls_step depot_reset depot_actions (Ok depot_output1) depot_step1 depot_west2);
    [exact depot_step1_eq|].
  apply (calls_step depot_step1 [("L", "0")] (step [("L", "0")] depot_step1).1
           depot_west2 depot_west2); [vm_compute; reflexivity|].
  apply calls_nil.
Qed.

(** In the corridor the second robot steps right and pays, the first one
    stays and does not: the step returns one [move_cost]. *)
Lemma move_cost_rule_witness :
  (exists pr fp,
     propose corridor advance_actions = Ok pr /\ resolve (robots corridor) pr = Ok fp /\
     forall i c, fp !! i = Some (Some c) <-> position <$> robots advance_after !! i = Some c) /\
  advance_output.1.1.2
  = foldl (add_credit corridor advance_after advance_actions)
      (foldl (fun acc i => if pays corridor advance_after advance_actions i
                           then r_add acc (move_cost corridor) else acc)
             r_zero (seq 0 (length (robots corridor))))
      (seq 0 (length (robots corridor))) /\
  forall i rb rb' move pa,
    robots corridor !! i = Some rb -> robots advance_after !! i = Some rb' ->
    advance_actions !! i = Some (move, pa) ->
    (pays corridor advance_after advance_actions i = true <->
     elem_of move ["L"; "R"; "U"; "D"] /\ position rb' <> position rb) /\
    (valid_position corridor (compute_new_position (position rb) move) = Ok false ->
     pays corridor advance_after advance_actions i = false).
Proof.
  apply (move_cost_rule corridor advance_actions advance_output.1.1.1
           advance_output.1.1.2 advance_output.1.2 advance_output.2 advance_after).
  vm_compute. reflexivity.
Defined.

(** The fifth step of the depot, called at tick 4: the robot steps left onto
    the target of package 1, which it carries, and drops it before the
    deadline 13. *)
Lemma drop_at_target_witness :
  depot_output5.1.1.2
  = foldl (add_credit depot_step4 depot_step5 deliver_actions)
      (r_add (foldl (add_credit depot_step4 depot_step5 deliver_actions)
                (foldl (add_cost depot_step4 depot_step5 deliver_actions) r_zero
                   (seq 0 (length (robots depot_step4))))
                (seq 0 0))
             (if (t depot_step4 <=? deadline depot_carried)%Z
              then delivery_reward depot_step4 else delay_reward depot_step4))
      (seq 1 (length (robots depot_step4) - 1)) /\
  packages depot_step5 !! 0 = Some (set_status depot_carried Delivered) /\
  robots depot_step5 !! 0 = Some {| position := target depot_carried; carrying := 0 |}.
Proof.
  apply (drop_at_target depot_step4 deliver_actions depot_output5.1.1.1
           depot_output5.1.1.2 depot_output5.1.2 depot_output5.2 depot_step5
           0 {| position := (0, 1)%Z; carrying := 1 |} "L" depot_carried).
  - exact depot_step4_good.
  - vm_compute. reflexivity.
  - reflexivity.
  - simpl. lia.
  - reflexivity.
  - reflexivity.
  - reflexivity.
Defined.

(** The depot on its course to the left: in the third step the robot gets
    to the cell of package 2 and picks it up; package 1, first in the list,
    waits on another cell. *)
Lemma pickup_takes_first_witness :
  carrying {| position := (0, 0)%Z; carrying := 2 |} = package_id depot_second /\
  packages depot_west3 !! 1 = Some (set_status depot_second InTransit) /\
  depot_west_output.1.1.2
  = foldl (add_credit depot_west2 depot_west3 collect_actions)
      (foldl (add_credit depot_west2 depot_west3 collect_actions)
         (foldl (add_cost depot_west2 depot_west3 collect_actions) r_zero
            (seq 0 (length (robots depot_west2))))
         (seq 0 0))
      (seq 1 (length (robots depot_west2) - 1)).
Proof.
  apply (pickup_takes_first depot depot_snapshot depot_reset depot_west2 collect_actions
           depot_west_output.1.1.1 depot_west_output.1.1.2 depot_west_output.1.2
           depot_west_output.2 depot_west3
           0 {| position := (0, 1)%Z; carrying := 0 |}
           {| position := (0, 0)%Z; carrying := 2 |} "L" 1 depot_second).
  - vm_compute. reflexivity.
  - exact depot_calls_west.
  - vm_compute. reflexivity.
  - reflexivity.
  - reflexivity.
  - reflexivity.
  - reflexivity.
  - reflexivity.
  - unfold available. simpl. split; [reflexivity|]. split; [reflexivity|lia].
  - intros [|k] q Hk Hq (H1 & H2 & H3); [|lia].
    vm_compute in Hq. inversion Hq; subst. simpl in H2. congruence.
Defined.
